(** * DeepPoly bound propagation (AIDomains/deeppoly.py)

    A shallow embedding of the [DeepPoly] linear-relation class, of the
    layer dispatch [backprop_dp], of the backward-substitution driver
    [backward_deeppoly], of the recursive bound solver
    [compute_dp_relu_bounds] and of the entry point [forward_deeppoly].

    Conventions of the embedding.
    - Numbers are kept abstract behind the class [Arith]; it is
      instantiated with exact rationals ([Q]) and with IEEE binary32
      ([float32], the dtype of the tensors the module builds itself).
    - One sample of the batch is modelled: a coefficient tensor of shape
      (1, n, *s) is a [coef] with per-sample shape [s] and [n] rows of
      row-major data, a bounds tensor of shape (1, *s) is a [tensor].
    - Python exceptions are values of [exn]; every operation that can raise
      returns in the monad [res].  The broadcasting of a layer parameter
      against a coefficient tensor is modelled ([coef_bcast]); every other
      elementwise operation takes operands of the same extent, as the
      module always supplies them, and raises [RuntimeError] otherwise.
    - Mutable attributes of the layers (the bound cache [bounds], the
      learned slopes [deepz_lambda], the shape attributes [dim] and
      [output_dim], the batch statistics of a batch-norm layer) live in
      the layer values, and the functions that mutate them return the
      updated network.  The learned slopes are kept with their full
      shape, batch axis first, since line 282 tests its first extent.
    - The network class and the layer classes belong to
      [abstract_layers], which is not among the sources; what
      [forward_deeppoly] needs of them (the two calls of lines 374-375
      and what they write into the layers) is the class [Network]. *)

From Stdlib Require Import String List ZArith QArith Qminmax Bool Arith Lia Lra Psatz SpecFloat.
Import ListNotations.

Set Implicit Arguments.
Close Scope Q_scope.
Open Scope nat_scope.

(** ** Exceptions and the result monad *)

Inductive exn :=
| NameError | TypeError | AssertionError | IndexError | KeyError | AttributeError
| RuntimeError | NotImplementedError | ZeroDivisionError | OutOfFuel.

Inductive res (T : Type) :=
| Ok (v : T)
| Raise (e : exn).
Arguments Ok {T} v.
Arguments Raise {T} e.

Definition bind {T U} (c : res T) (k : T -> res U) : res U :=
  match c with
  | Ok v => k v
  | Raise e => Raise e
  end.

Notation "x <- c ;; k" := (bind c (fun x => k))
  (at level 61, c at next level, right associativity).
Notation "' p <- c ;; k" := (bind c (fun x => match x with p => k end))
  (at level 61, p pattern, c at next level, right associativity).

(** ** The arithmetic of tensor elements *)

Class Arith (A : Type) := {
  zero : A;
  one : A;
  add : A -> A -> A;
  sub : A -> A -> A;
  mul : A -> A -> A;
  div : A -> A -> A;
  opp : A -> A;
  ltb : A -> A -> bool;          (* elementwise [<] *)
  maximum : A -> A -> A;         (* torch.maximum *)
  minimum : A -> A -> A;         (* torch.minimum *)
  of_nat : nat -> A;             (* an integer used as a scalar *)
  eps15 : A                      (* the literal 1e-15 *)
}.

(** Exact rationals. *)
Definition Qltb (a b : Q) : bool := negb (Qle_bool b a).

#[export] Instance Arith_Q : Arith Q := {
  zero := 0%Q;
  one := 1%Q;
  add := Qplus;
  sub := Qminus;
  mul := Qmult;
  div := Qdiv;
  opp := Qopp;
  ltb := Qltb;
  maximum := Qmax;
  minimum := Qmin;
  of_nat := fun n => inject_Z (Z.of_nat n);
  eps15 := (1 # 1000000000000000)%Q
}.

(** IEEE binary32: 24 bits of precision, exponents up to 128. *)
Definition float32 := spec_float.
Definition prec32 : Z := 24.
Definition emax32 : Z := 128.

Definition f32_of_Z (z : Z) : float32 := binary_normalize prec32 emax32 z 0 false.

(** The binary32 number nearest to 1e-15. *)
Definition eps32 : float32 := S754_finite false 9444733 (-73).

Definition f32_is_nan (x : float32) : bool :=
  match x with S754_nan => true | _ => false end.

Definition f32_max (a b : float32) : float32 :=
  if f32_is_nan a || f32_is_nan b then S754_nan
  else if SFltb a b then b else a.

Definition f32_min (a b : float32) : float32 :=
  if f32_is_nan a || f32_is_nan b then S754_nan
  else if SFltb b a then b else a.

#[export] Instance Arith_f32 : Arith float32 := {
  zero := S754_zero false;
  one := f32_of_Z 1;
  add := SFadd prec32 emax32;
  sub := SFsub prec32 emax32;
  mul := SFmul prec32 emax32;
  div := SFdiv prec32 emax32;
  opp := SFopp;
  ltb := SFltb;
  maximum := f32_max;
  minimum := f32_min;
  of_nat := fun n => f32_of_Z (Z.of_nat n);
  eps15 := eps32
}.

Definition f32_finite (x : float32) : bool :=
  match x with
  | S754_zero _ => true
  | S754_finite _ _ _ => valid_binary prec32 emax32 x
  | _ => false
  end.

(** The laws of the order that the statements below rely on.  The strict
    test is asymmetric in both arithmetics.  [maximum] and [minimum] are
    bounds for a reflexive order: in exact arithmetic for the order of the
    rationals, in binary32 for [leb32] below, which lets NaN pass. *)
Class LtAsym (A : Type) `{Arith A} := {
  ltb_asym : forall a b, ltb a b = true -> ltb b a = false
}.
Arguments LtAsym A {_}.

Class OrderLaws (A : Type) `{Arith A} := {
  leb : A -> A -> bool;
  leb_refl : forall a, leb a a = true;
  leb_maximum_r : forall a b, leb b (maximum a b) = true;
  leb_minimum_r : forall a b, leb (minimum a b) b = true
}.
Arguments OrderLaws A {_}.

#[export] Instance OrderLaws_Q : OrderLaws Q := {|
  leb := Qle_bool;
  leb_refl := fun a => proj2 (Qle_bool_iff a a) (Qle_refl a);
  leb_maximum_r := fun a b => proj2 (Qle_bool_iff b (Qmax a b)) (Q.le_max_r a b);
  leb_minimum_r := fun a b => proj2 (Qle_bool_iff (Qmin a b) b) (Q.le_min_r a b)
|}.

(** The order of binary32 on ordinary numbers; a comparison with NaN
    decides nothing and counts as satisfied. *)
Definition leb32 (x y : float32) : bool :=
  f32_is_nan x || f32_is_nan y || SFleb x y.

(** ** Tensors *)

Definition shape_eqb (s t : list nat) : bool :=
  if list_eq_dec Nat.eq_dec s t then true else false.

Definition prod_shape (s : list nat) : nat := fold_right Nat.mul 1 s.

Definition pad_shape (rank : nat) (s : list nat) : list nat :=
  repeat 1 (rank - length s) ++ s.

Fixpoint mapM {T U} (f : T -> res U) (l : list T) : res (list U) :=
  match l with
  | [] => Ok []
  | x :: tl => y <- f x ;; ys <- mapM f tl ;; Ok (y :: ys)
  end.

Fixpoint chunks {T} (k n : nat) (l : list T) : list (list T) :=
  match k with
  | O => []
  | S k' => firstn n l :: chunks k' n (skipn n l)
  end.

(** torch broadcasting of row-major data from shape [src] to shape [dst]
    of the same rank: an axis of extent one is repeated. *)
Fixpoint expand {T} (src dst : list nat) (d : list T) : res (list T) :=
  match src, dst with
  | [], [] => Ok d
  | s :: ss, t :: ts =>
      blocks <- mapM (expand ss ts) (chunks s (prod_shape ss) d) ;;
      if s =? t then Ok (concat blocks)
      else if s =? 1 then Ok (concat (repeat (concat blocks) t))
      else Raise RuntimeError
  | _, _ => Raise RuntimeError
  end.

(** The broadcast of two shapes of the same rank. *)
Fixpoint bshape (s t : list nat) : res (list nat) :=
  match s, t with
  | [], [] => Ok []
  | a :: s', b :: t' =>
      r <- bshape s' t' ;;
      if a =? b then Ok (a :: r)
      else if a =? 1 then Ok (b :: r)
      else if b =? 1 then Ok (a :: r)
      else Raise RuntimeError
  | _, _ => Raise RuntimeError
  end.

Section Model.

Context {A : Type} {AA : Arith A}.

(** A per-sample tensor: shape and row-major data. *)
Record tensor := mkT { tshape : list nat; tdata : list A }.

(** A coefficient tensor of shape (1, n, *cshape): one row per target
    expression. *)
Record coef := mkC { cshape : list nat; crows : list (list A) }.

(** A bias is the 0-dimensional [torch.tensor(0)] the constructor puts in,
    or a tensor of shape (1, n). *)
Inductive bias_t :=
| BScalar (a : A)
| BVec (v : list A).

Definition zip_with (f : A -> A -> A) (a b : list A) : list A :=
  map (fun p => f (fst p) (snd p)) (combine a b).

(** An elementwise operation on two operands of the same extent. *)
Definition ewise (f : A -> A -> A) (a b : list A) : res (list A) :=
  if length a =? length b then Ok (zip_with f a b) else Raise RuntimeError.

Definition vsum (l : list A) : A := fold_left add l zero.

Definition dot (a b : list A) : res A :=
  p <- ewise mul a b ;; Ok (vsum p).

(** [bias + v] for a tensor [v] of shape (1, n). *)
Definition bias_plus (b : bias_t) (v : list A) : res (list A) :=
  match b with
  | BScalar a => Ok (map (add a) v)
  | BVec w => ewise add w v
  end.

Definition bias_add (b : bias_t) (v : list A) : res bias_t :=
  r <- bias_plus b v ;; Ok (BVec r).

Definition bias_add_bias (b c : bias_t) : res bias_t :=
  match c with
  | BScalar a =>
      match b with
      | BScalar a0 => Ok (BScalar (add a0 a))
      | BVec w => Ok (BVec (map (fun x => add x a) w))
      end
  | BVec v => bias_add b v
  end.

(** [c op p.view((1, 1) + p.shape)]: both operands are broadcast to their
    common shape, row by row. *)
Definition coef_bcast (f : A -> A -> A) (c : coef) (p : tensor) : res coef :=
  if length (cshape c) <? length (tshape p) then Raise RuntimeError else
  let ps := pad_shape (length (cshape c)) (tshape p) in
  s <- bshape (cshape c) ps ;;
  pd <- expand ps s (tdata p) ;;
  rows <- mapM (fun r => r' <- expand (cshape c) s r ;; ewise f r' pd) (crows c) ;;
  Ok (mkC s rows).

(** The sum of every row over all its per-sample axes. *)
Definition row_sums (c : coef) : list A := map vsum (crows c).

(** [x.matmul(weight)] for one row [x] and a weight of shape (out, in),
    given by its [out] rows. *)
Definition vec_mat (x : list A) (w : list (list A)) : res (list A) :=
  if length x =? length w then
    Ok (fold_left (fun acc p => zip_with add acc (map (mul (fst p)) (snd p)))
                  (combine x w) (repeat zero (length (hd [] w))))
  else Raise RuntimeError.

(** ** The primitives of the tensor library that are not elementwise *)

Record conv_args := {
  ca_stride : Z * Z;
  ca_padding : Z * Z;
  ca_output_padding : Z * Z;
  ca_groups : Z;
  ca_dilation : Z * Z
}.

Class Torch := {
  (* F.conv_transpose2d on one (C, H, W) slice *)
  conv_transpose2d : tensor -> tensor -> conv_args -> res tensor;
  (* F.interpolate on one (C, H, W) slice *)
  interpolate : tensor -> list nat -> string -> bool -> res tensor;
  (* torch.sqrt *)
  tsqrt : A -> A
}.

Context {TT : Torch}.

(** ** The linear relation *)

Record DeepPoly := mkDP {
  x_l_coef : coef;
  x_u_coef : coef;
  x_l_bias : bias_t;
  x_u_bias : bias_t
}.

(** The attributes of a [DeepPoly] object; [None] is an attribute that was
    never assigned. *)
Inductive device := TensorDevice.

Record DeepPolyObj := mkObj {
  o_device : option device;
  o_x_l_coef : option coef;
  o_x_u_coef : option coef;
  o_x_l_bias : option bias_t;
  o_x_u_bias : option bias_t
}.

(** An argument of the constructor: a tensor or some other Python value. *)
Inductive pyarg (T : Type) :=
| IsTensor (t : T)
| NotTensor.
Arguments IsTensor {T} t.
Arguments NotTensor {T}.

(** [DeepPoly.__init__], lines 15-28. *)
Definition DeepPoly_init (x_l_coef x_u_coef : option coef)
    (x_l_bias x_u_bias : option bias_t) (expr_coef : option (pyarg coef))
  : res DeepPolyObj :=
  let unset := mkObj None None None None None in
  match expr_coef, x_l_coef, x_u_coef with
  | None, None, _ | None, _, None => Ok unset
  | _, _, _ =>
    match expr_coef with
    | Some NotTensor => Raise AssertionError
    | _ =>
      let e := match expr_coef with Some (IsTensor t) => Some t | _ => None end in
      Ok (mkObj (Some TensorDevice)
                (match x_l_coef with None => e | Some c => Some c end)
                (match x_u_coef with None => e | Some c => Some c end)
                (Some (match x_l_bias with None => BScalar zero | Some b => b end))
                (Some (match x_u_bias with None => BScalar zero | Some b => b end)))
    end
  end.

Definition obj_of (d : DeepPoly) : DeepPolyObj :=
  mkObj (Some TensorDevice) (Some (x_l_coef d)) (Some (x_u_coef d))
        (Some (x_l_bias d)) (Some (x_u_bias d)).

(** The relation built by [DeepPoly(expr_coef=e)]. *)
Definition seed (e : coef) : DeepPoly := mkDP e e (BScalar zero) (BScalar zero).

(** ** Transfer operations of the relation *)

Definition last_n {T} (n : nat) (l : list T) : list T := skipn (length l - n) l.

Definition nth_dim (l : list nat) (i : nat) : res Z :=
  match nth_error l i with
  | Some n => Ok (Z.of_nat n)
  | None => Raise IndexError
  end.

(** Python's [a % b] on integers. *)
Definition pymod (a b : Z) : res Z :=
  if (b =? 0)%Z then Raise ZeroDivisionError else Ok (a mod b)%Z.

(** [self.x_l_bias + 0] *)
Definition bias_add_zero (b : bias_t) : bias_t :=
  match b with
  | BScalar a => BScalar (add a zero)
  | BVec v => BVec (map (fun x => add x zero) v)
  end.

(** [coef.matmul(bias)] and [coef.matmul(weight)]; the coefficient has one
    per-sample axis. *)
Definition coef_matvec (c : coef) (b : list A) : res (list A) :=
  match cshape c with
  | [_] => mapM (fun r => dot r b) (crows c)
  | _ => Raise RuntimeError
  end.

Definition coef_matmul (c : coef) (w : list (list A)) : res coef :=
  match cshape c with
  | [_] => rows <- mapM (fun r => vec_mat r w) (crows c) ;;
           Ok (mkC [length (hd [] w)] rows)
  | _ => Raise RuntimeError
  end.

(** [dp_linear], lines 40-47. *)
Definition dp_linear (self : DeepPoly) (weight : list (list A)) (bias : option (list A))
  : res DeepPoly :=
  lb <- match bias with
        | None => Ok (bias_add_zero (x_l_bias self))
        | Some b => v <- coef_matvec (x_l_coef self) b ;; bias_add (x_l_bias self) v
        end ;;
  ub <- match bias with
        | None => Ok (bias_add_zero (x_u_bias self))
        | Some b => v <- coef_matvec (x_u_coef self) b ;; bias_add (x_u_bias self) v
        end ;;
  lc <- coef_matmul (x_l_coef self) weight ;;
  uc <- coef_matmul (x_u_coef self) weight ;;
  Ok (mkDP lc uc lb ub).

(** [dp_bias], lines 49-54. *)
Definition dp_bias (self : DeepPoly) (bias : tensor) : res DeepPoly :=
  pl <- coef_bcast mul (x_l_coef self) bias ;;
  lb <- bias_add (x_l_bias self) (row_sums pl) ;;
  pu <- coef_bcast mul (x_u_coef self) bias ;;
  ub <- bias_add (x_u_bias self) (row_sums pu) ;;
  Ok (mkDP (x_l_coef self) (x_u_coef self) lb ub).

(** [dp_scale], lines 56-60. *)
Definition dp_scale (self : DeepPoly) (scale : tensor) : res DeepPoly :=
  lc <- coef_bcast mul (x_l_coef self) scale ;;
  uc <- coef_bcast mul (x_u_coef self) scale ;;
  Ok (mkDP lc uc (x_l_bias self) (x_u_bias self)).

Definition coef_add (c d : coef) : res coef :=
  if shape_eqb (cshape c) (cshape d) && (length (crows c) =? length (crows d)) then
    rows <- mapM (fun p => ewise add (fst p) (snd p)) (combine (crows c) (crows d)) ;;
    Ok (mkC (cshape c) rows)
  else Raise RuntimeError.

(** [dp_add], lines 62-67. *)
Definition dp_add (self other : DeepPoly) : res DeepPoly :=
  lc <- coef_add (x_l_coef self) (x_l_coef other) ;;
  uc <- coef_add (x_u_coef self) (x_u_coef other) ;;
  lb <- bias_add_bias (x_l_bias self) (x_l_bias other) ;;
  ub <- bias_add_bias (x_u_bias self) (x_u_bias other) ;;
  Ok (mkDP lc uc lb ub).

Definition coef_div_scalar (c : coef) (a : A) : coef :=
  mkC (cshape c) (map (map (fun x => div x a)) (crows c)).

(** [dp_global_avg_pool2d], lines 69-78; [preconv_wh] is the shape of the
    cached lower bound, batch axis included. *)
Definition dp_global_avg_pool2d (self : DeepPoly) (preconv_wh : list nat) : res DeepPoly :=
  let hw := last_n 2 preconv_wh in
  let input_spatial_size := of_nat (prod_shape hw) in
  let ones := mkT (1 :: hw) (repeat one (prod_shape hw)) in
  lc <- coef_bcast mul (x_l_coef self) ones ;;
  uc <- coef_bcast mul (x_u_coef self) ones ;;
  Ok (mkDP (coef_div_scalar lc input_spatial_size)
           (coef_div_scalar uc input_spatial_size)
           (x_l_bias self) (x_u_bias self)).

(** The transposed convolution of every row, as done through the two
    [view] calls around [F.conv_transpose2d]. *)
Definition conv_rows (c : coef) (weight : tensor) (args : conv_args) : res coef :=
  ts <- mapM (fun r => conv_transpose2d (mkT (cshape c) r) weight args) (crows c) ;;
  Ok (mkC (match ts with t :: _ => tshape t | [] => cshape c end) (map tdata ts)).

(** An [int] or a pair of them. *)
Inductive int_or_pair :=
| IntV (z : Z)
| PairV (a b : Z).

Definition as_pair (v : int_or_pair) : Z * Z :=
  match v with
  | IntV z => (z, z)
  | PairV a b => (a, b)
  end.

(** [dp_avg_pool2d], lines 80-106. *)
Definition dp_avg_pool2d (self : DeepPoly) (preconv_wh : list nat)
    (kernel_size stride padding : int_or_pair) : res DeepPoly :=
  let kernel_size := as_pair kernel_size in
  let padding := as_pair padding in
  let stride := as_pair stride in
  d1 <- nth_dim preconv_wh 1 ;;
  w_padding <- pymod (d1 + 2 * fst padding - fst kernel_size)%Z (fst stride) ;;
  d2 <- nth_dim preconv_wh 2 ;;
  h_padding <- pymod (d2 + 2 * snd padding - snd kernel_size)%Z (snd stride) ;;
  d0 <- nth_dim preconv_wh 0 ;;
  let kh := Z.to_nat (fst kernel_size) in
  let kw := Z.to_nat (snd kernel_size) in
  let weight := mkT [Z.to_nat d0; 1; kh; kw]
                    (repeat (mul (div one (of_nat (kh * kw))) one)
                            (Z.to_nat d0 * (kh * kw))) in
  let args := Build_conv_args stride padding (w_padding, h_padding) d0 (1, 1)%Z in
  lc <- conv_rows (x_l_coef self) weight args ;;
  uc <- conv_rows (x_u_coef self) weight args ;;
  Ok (mkDP lc uc (x_l_bias self) (x_u_bias self)).

(** The per-channel shape [1, 1, C, 1, ...] of [req_shape]/[view_dim],
    without the two leading axes. *)
Definition channel_shape (rank c : nat) : list nat := c :: repeat 1 (rank - 1).

(** [dp_normalize], lines 108-119. *)
Definition dp_normalize (self : DeepPoly) (mean sigma : list A) : res DeepPoly :=
  match cshape (x_l_coef self) with
  | [] => Raise IndexError
  | _ :: _ =>
    let req_shape := channel_shape (length (cshape (x_l_coef self))) (length mean) in
    shift <- ewise div (map opp mean) sigma ;;
    pl <- coef_bcast mul (x_l_coef self) (mkT req_shape shift) ;;
    lb <- bias_add (x_l_bias self) (row_sums pl) ;;
    pu <- coef_bcast mul (x_u_coef self) (mkT req_shape shift) ;;
    ub <- bias_add (x_u_bias self) (row_sums pu) ;;
    lc <- coef_bcast div (x_l_coef self) (mkT req_shape sigma) ;;
    uc <- coef_bcast div (x_u_coef self) (mkT req_shape sigma) ;;
    Ok (mkDP lc uc lb ub)
  end.

(** Modelled from the spec: [ai_util.get_neg_pos_comp] is not part of the
    sources at hand.  It splits a tensor into its strictly negative and
    its strictly positive part, zero elsewhere, and returns them in this
    order. *)
Definition neg_part (x : A) : A := if ltb x zero then x else zero.
Definition pos_part (x : A) : A := if ltb zero x then x else zero.
Definition get_neg_pos_comp (x : list A) : list A * list A :=
  (map neg_part x, map pos_part x).

(** *** The ReLU relaxation of one neuron *)

Record relax := mkRelax {
  lambda_l : A;
  lambda_u : A;
  mu_l : A;
  mu_u : A
}.

(** Line 125: the lower slope of the original DeepPoly. *)
Definition default_lambda_l (lb ub : A) : A :=
  if ltb ub (opp lb) then zero else one.

(** Lines 128-145 for one neuron; [l] is the lower slope after line 133,
    that is the default one or the learned one. *)
Definition relu_neuron (lb ub l : A) : relax :=
  let lam_u := div ub (add (sub ub lb) eps15) in
  (* stably inactive *)
  let lam_l := if ltb ub zero then zero else l in
  let lam_u := if ltb ub zero then zero else lam_u in
  (* stably active *)
  let lam_l := if ltb zero lb then one else lam_l in
  let lam_u := if ltb zero lb then one else lam_u in
  let m_u := if ltb lb zero && ltb zero ub
             then div (mul (opp ub) lb) (add (sub ub lb) eps15)
             else zero in
  mkRelax lam_l lam_u zero m_u.

(** Lines 130-133: the lower slopes that enter the overrides and the new
    content of the learned parameter. *)
Definition learned_slopes (defaults : list A) (it : nat) (dp_lambda : option (list A))
  : res (list A * option (list A)) :=
  match dp_lambda with
  | None => Ok (defaults, None)
  | Some p =>
      if it =? 0 then Ok (defaults, Some defaults)
      else if length p =? length defaults then Ok (p, Some p)
      else Raise RuntimeError
  end.

Definition relu_relaxation (x_lb x_ub ls : list A) : list relax :=
  map (fun q => relu_neuron (fst (fst q)) (snd (fst q)) (snd q))
      (combine (combine x_lb x_ub) ls).

(** [pos * a + neg * b] on one row of coefficients, lines 153-156. *)
Definition split_combine (row a b : list A) : res (list A) :=
  let '(neg, pos) := get_neg_pos_comp row in
  p <- ewise mul pos a ;;
  n <- ewise mul neg b ;;
  ewise add p n.

(** [dp_relu], lines 121-168.  The second component is the learned
    parameter after the call. *)
Definition dp_relu (self : DeepPoly) (bounds : option (tensor * tensor)) (it : nat)
    (dp_lambda : option (list A)) : res (DeepPoly * option (list A)) :=
  match bounds with
  | None => Raise TypeError
  | Some (x_lb, x_ub) =>
    if negb (shape_eqb (tshape x_lb) (tshape x_ub)
             && (length (tdata x_lb) =? length (tdata x_ub))) then Raise RuntimeError
    else
    let defaults := zip_with (fun lb ub => default_lambda_l lb ub) (tdata x_lb) (tdata x_ub) in
    ' (ls, dp_lambda') <- learned_slopes defaults it dp_lambda ;;
    let rl := relu_relaxation (tdata x_lb) (tdata x_ub) ls in
    if negb (shape_eqb (cshape (x_l_coef self)) (tshape x_lb)
             && shape_eqb (cshape (x_u_coef self)) (tshape x_lb)) then Raise RuntimeError
    else
    lrows <- mapM (fun r => split_combine r (map lambda_l rl) (map lambda_u rl))
                  (crows (x_l_coef self)) ;;
    new_l <- mapM (fun r => split_combine r (map mu_l rl) (map mu_u rl))
                  (crows (x_l_coef self)) ;;
    urows <- mapM (fun r => split_combine r (map lambda_u rl) (map lambda_l rl))
                  (crows (x_u_coef self)) ;;
    new_u <- mapM (fun r => split_combine r (map mu_u rl) (map mu_l rl))
                  (crows (x_u_coef self)) ;;
    match length (tshape x_lb) with
    | 1 | 3 =>
        lb <- bias_add (x_l_bias self) (map vsum new_l) ;;
        ub <- bias_add (x_u_bias self) (map vsum new_u) ;;
        Ok (mkDP (mkC (tshape x_lb) lrows) (mkC (tshape x_lb) urows) lb ub, dp_lambda')
    | _ => Raise IndexError
    end
  end.

(** [dp_conv], lines 170-192; [kernel_wh] is read off the weight. *)
Definition conv_bias_fold (c : coef) (bias : list A) : res (list A) :=
  match cshape c with
  | [ch; h; w] =>
      mapM (fun r => dot (map vsum (chunks ch (h * w) r)) bias) (crows c)
  | _ => Raise IndexError
  end.

Definition dp_conv (self : DeepPoly) (preconv_wh : list nat) (weight : tensor)
    (bias : option (list A)) (stride padding : Z * Z) (groups : Z) (dilation : Z * Z)
  : res DeepPoly :=
  let kernel_wh := last_n 2 (tshape weight) in
  d1 <- nth_dim preconv_wh 1 ;;
  k0 <- nth_dim kernel_wh 0 ;;
  w_padding <- pymod (d1 + 2 * fst padding - 1 - fst dilation * (k0 - 1))%Z (fst stride) ;;
  d2 <- nth_dim preconv_wh 2 ;;
  k1 <- nth_dim kernel_wh 1 ;;
  h_padding <- pymod (d2 + 2 * snd padding - 1 - snd dilation * (k1 - 1))%Z (snd stride) ;;
  lb <- match bias with
        | None => Ok (bias_add_zero (x_l_bias self))
        | Some b => v <- conv_bias_fold (x_l_coef self) b ;; bias_add (x_l_bias self) v
        end ;;
  ub <- match bias with
        | None => Ok (bias_add_zero (x_u_bias self))
        | Some b => v <- conv_bias_fold (x_u_coef self) b ;; bias_add (x_u_bias self) v
        end ;;
  let args := Build_conv_args stride padding (w_padding, h_padding) groups dilation in
  lc <- conv_rows (x_l_coef self) weight args ;;
  uc <- conv_rows (x_u_coef self) weight args ;;
  Ok (mkDP lc uc lb ub).

Definition coef_view (c : coef) (s : list nat) : res coef :=
  if prod_shape s =? prod_shape (cshape c) then Ok (mkC s (crows c))
  else Raise RuntimeError.

(** [dp_flatten], lines 194-198. *)
Definition dp_flatten (self : DeepPoly) (input_size : list nat) : res DeepPoly :=
  lc <- coef_view (x_l_coef self) input_size ;;
  uc <- coef_view (x_u_coef self) input_size ;;
  Ok (mkDP lc uc (x_l_bias self) (x_u_bias self)).

(** The abstract input region, an object of the zonotope module: its
    domain tag, its [concretize] and, for the zonotope domain, the merged
    [flatten().linear(W, bias=b)...concretize()] of lines 203-204. *)
Record HybridZonotope := mkHZ {
  domain : string;
  concretize : tensor * tensor;
  linear_concretize : list (list A) -> bias_t -> res (list A * list A)
}.

Definition concretize_rows (c : coef) (first second : tensor) : res (list A) :=
  if negb (shape_eqb (cshape c) (tshape first) && shape_eqb (cshape c) (tshape second))
  then Raise RuntimeError
  else mapM (fun r => v <- split_combine r (tdata first) (tdata second) ;; Ok (vsum v))
            (crows c).

(** [dp_concretize], lines 200-218. *)
Definition is_zono (abs_input : option HybridZonotope) : bool :=
  match abs_input with
  | Some z => String.eqb (domain z) "zono"
  | None => false
  end.

Definition dp_concretize (self : DeepPoly) (bounds : option (tensor * tensor))
    (abs_input : option HybridZonotope) : res (list A * list A) :=
  match bounds, abs_input with
  | None, None => Raise AssertionError
  | _, Some z =>
      if is_zono abs_input then
        l <- linear_concretize z (crows (x_l_coef self)) (x_l_bias self) ;;
        u <- linear_concretize z (crows (x_u_coef self)) (x_u_bias self) ;;
        Ok (fst l, snd u)
      else
        let '(lb_x, ub_x) := match bounds with Some b => b | None => concretize z end in
        l <- concretize_rows (x_l_coef self) lb_x ub_x ;;
        u <- concretize_rows (x_u_coef self) ub_x lb_x ;;
        lb <- bias_plus (x_l_bias self) l ;;
        ub <- bias_plus (x_u_bias self) u ;;
        Ok (lb, ub)
  | Some (lb_x, ub_x), None =>
      l <- concretize_rows (x_l_coef self) lb_x ub_x ;;
      u <- concretize_rows (x_u_coef self) ub_x lb_x ;;
      lb <- bias_plus (x_l_bias self) l ;;
      ub <- bias_plus (x_u_bias self) u ;;
      Ok (lb, ub)
  end.

Definition interp_rows (c : coef) (size : list nat) (mode : string) (align : bool)
  : res coef :=
  match cshape c with
  | [_; _; _] =>
      ts <- mapM (fun r => interpolate (mkT (cshape c) r) size mode align) (crows c) ;;
      Ok (mkC (match ts with t :: _ => tshape t | [] => cshape c end) (map tdata ts))
  | _ => Raise RuntimeError
  end.

(** [dp_upsample], lines 220-231. *)
Definition dp_upsample (self : DeepPoly) (pre_sample_size : list nat) (mode : string)
    (align_corners : bool) : res DeepPoly :=
  lc <- interp_rows (x_l_coef self) pre_sample_size mode align_corners ;;
  uc <- interp_rows (x_u_coef self) pre_sample_size mode align_corners ;;
  Ok (mkDP lc uc (x_l_bias self) (x_u_bias self)).

(** [dp_batch_norm], lines 233-250. *)
Definition dp_batch_norm (self : DeepPoly) (current_mean current_var weight : list A)
    (bias : option (list A)) (eps : A) : res DeepPoly :=
  c <- ewise div weight (map (fun v => tsqrt (add v eps)) current_var) ;;
  mc <- ewise mul (map opp current_mean) c ;;
  b <- match bias with
       | None => Ok (map (fun x => add x zero) mc)
       | Some bi => ewise add mc bi
       end ;;
  let rank := length (cshape (x_l_coef self)) in
  let view_dim := channel_shape rank (length c) in
  ' (lb, ub) <-
    match rank with
    | 1 =>
        l <- coef_matvec (x_l_coef self) b ;;
        u <- coef_matvec (x_u_coef self) b ;;
        lb <- bias_add (x_l_bias self) l ;;
        ub <- bias_add (x_u_bias self) u ;;
        Ok (lb, ub)
    | 3 =>
        pl <- coef_bcast mul (x_l_coef self) (mkT (channel_shape 3 (length b)) b) ;;
        pu <- coef_bcast mul (x_u_coef self) (mkT (channel_shape 3 (length b)) b) ;;
        lb <- bias_add (x_l_bias self) (row_sums pl) ;;
        ub <- bias_add (x_u_bias self) (row_sums pu) ;;
        Ok (lb, ub)
    | _ => Raise NotImplementedError
    end ;;
  lc <- coef_bcast mul (x_l_coef self) (mkT view_dim c) ;;
  uc <- coef_bcast mul (x_u_coef self) (mkT view_dim c) ;;
  Ok (mkDP lc uc lb ub).

(** ** Layers *)

Definition cache := option (tensor * tensor).

(** The layer classes of [abstract_layers] with the attributes this module
    reads.  Every layer has the bound cache [bounds]; [OtherLayer] is any
    class the dispatch does not know.  The learned slopes [deepz_lambda]
    of a ReLU layer are a parameter tensor given with its full shape, the
    batch axis first. *)
#[warnings="-register-all"]
Inductive layer :=
| Linear (bounds : cache) (weight : list (list A)) (bias : option (list A))
| Flatten (bounds : cache) (dim : list nat)
| Normalization (bounds : cache) (mean sigma : list A)
| ReLU (bounds : cache) (output_dim : list nat) (deepz_lambda : option tensor)
| Conv2d (bounds : cache) (dim : list nat) (weight : tensor) (bias : option (list A))
         (stride padding dilation : Z * Z) (groups : Z)
| GlobalAvgPool2d (bounds : cache)
| AvgPool2d (bounds : cache) (dim : list nat) (kernel_size stride padding : int_or_pair)
| Upsample (bounds : cache) (dim : list nat) (mode : string) (align_corners : bool)
| BatchNorm (bounds : cache) (training : bool)
            (current_mean current_var running_mean running_var weight : list A)
            (bias : option (list A)) (eps : A)
| Bias (bounds : cache) (bias : tensor)
| Scale (bounds : cache) (scale : tensor)
| ResBlock (bounds : cache) (residual : layer) (downsample relu_final : option layer)
| Sequential (bounds : cache) (layers : list layer)
| OtherLayer (bounds : cache).

Definition layer_bounds (l : layer) : cache :=
  match l with
  | Linear b _ _ | Flatten b _ | Normalization b _ _ | ReLU b _ _
  | Conv2d b _ _ _ _ _ _ _ | GlobalAvgPool2d b | AvgPool2d b _ _ _ _
  | Upsample b _ _ _ | BatchNorm b _ _ _ _ _ _ _ _ | Bias b _ | Scale b _
  | ResBlock b _ _ _ | Sequential b _ | OtherLayer b => b
  end.

Definition set_bounds (l : layer) (c : cache) : layer :=
  match l with
  | Linear _ w b => Linear c w b
  | Flatten _ d => Flatten c d
  | Normalization _ m s => Normalization c m s
  | ReLU _ d p => ReLU c d p
  | Conv2d _ d w b s p dl g => Conv2d c d w b s p dl g
  | GlobalAvgPool2d _ => GlobalAvgPool2d c
  | AvgPool2d _ d k s p => AvgPool2d c d k s p
  | Upsample _ d m a => Upsample c d m a
  | BatchNorm _ t cm cv rm rv w b e => BatchNorm c t cm cv rm rv w b e
  | Bias _ b => Bias c b
  | Scale _ s => Scale c s
  | ResBlock _ r d f => ResBlock c r d f
  | Sequential _ ls => Sequential c ls
  | OtherLayer _ => OtherLayer c
  end.

Definition is_relu (l : layer) : bool :=
  match l with ReLU _ _ _ => true | _ => false end.

(** The parameter line 283 creates: -1 for every neuron, in the shape of
    the cached lower bound, whose batch extent is 1. *)
Definition fresh_lambda (lb : tensor) : tensor :=
  mkT (1 :: tshape lb) (repeat (opp one) (length (tdata lb))).

(** Line 282 for a layer with the cached lower bound [lb]: the parameter
    is kept when its batch extent [shape[0]] is the one of the bounds, and
    replaced otherwise and when there is none. *)
Definition init_lambda (lb : tensor) (deepz_lambda : option tensor) : res tensor :=
  match deepz_lambda with
  | None => Ok (fresh_lambda lb)
  | Some p =>
      match tshape p with
      | [] => Raise IndexError
      | n :: _ => if n =? 1 then Ok p else Ok (fresh_lambda lb)
      end
  end.

(** The parameter after [dp_relu] has run on it: at iteration 0 line 132
    gives it the data and the shape of the default slopes, later it is
    left as it was. *)
Definition lambda_after (lb p : tensor) (it : nat) (data : option (list A)) : tensor :=
  match data with
  | Some v => mkT (if it =? 0 then 1 :: tshape lb else tshape p) v
  | None => p
  end.

(** [backprop_dp], lines 270-309.  The layer is returned with the learned
    slopes the ReLU branch may have created or overwritten; either operand
    of the [or] in line 282 reads [layer.bounds[0]].  The ResBlock branch
    evaluates the name [lambda_layer], which no scope binds. *)
Fixpoint backprop_dp (l : layer) (abs_dp_element : DeepPoly) (it : nat) (use_lambda : bool)
  {struct l} : res (layer * DeepPoly) :=
  match l with
  | Sequential b layers =>
      ' (layers', d) <-
        (fix loop (ls : list layer) : res (list layer * DeepPoly) :=
           match ls with
           | [] => Ok ([], abs_dp_element)
           | sub_layer :: tl =>
               ' (tl', d) <- loop tl ;;
               ' (sub_layer', d') <- backprop_dp sub_layer d it use_lambda ;;
               Ok (sub_layer' :: tl', d')
           end) layers ;;
      Ok (Sequential b layers', d)
  | Linear _ weight bias =>
      d <- dp_linear abs_dp_element weight bias ;; Ok (l, d)
  | Flatten _ dim =>
      d <- dp_flatten abs_dp_element dim ;; Ok (l, d)
  | Normalization _ mean sigma =>
      d <- dp_normalize abs_dp_element mean sigma ;; Ok (l, d)
  | ReLU b output_dim deepz_lambda =>
      if use_lambda then
        match b with
        | None => Raise TypeError
        | Some (lb, _) =>
            p <- init_lambda lb deepz_lambda ;;
            ' (d, data) <- dp_relu abs_dp_element b it (Some (tdata p)) ;;
            Ok (ReLU b output_dim (Some (lambda_after lb p it data)), d)
        end
      else
        ' (d, _) <- dp_relu abs_dp_element b it None ;;
        Ok (l, d)
  | Conv2d _ dim weight bias stride padding dilation groups =>
      d <- dp_conv abs_dp_element dim weight bias stride padding groups dilation ;;
      Ok (l, d)
  | GlobalAvgPool2d b =>
      match b with
      | None => Raise TypeError
      | Some (lb, _) =>
          d <- dp_global_avg_pool2d abs_dp_element (1 :: tshape lb) ;; Ok (l, d)
      end
  | AvgPool2d _ dim kernel_size stride padding =>
      d <- dp_avg_pool2d abs_dp_element dim kernel_size stride padding ;; Ok (l, d)
  | Upsample _ dim mode align_corners =>
      d <- dp_upsample abs_dp_element (last_n 2 dim) mode align_corners ;; Ok (l, d)
  | BatchNorm _ training current_mean current_var running_mean running_var weight bias eps =>
      let mean := if training then current_mean else running_mean in
      let var := if training then current_var else running_var in
      d <- dp_batch_norm abs_dp_element mean var weight bias eps ;; Ok (l, d)
  | Bias _ bias =>
      d <- dp_bias abs_dp_element bias ;; Ok (l, d)
  | Scale _ scale =>
      d <- dp_scale abs_dp_element scale ;; Ok (l, d)
  | ResBlock _ _ _ _ => Raise NameError
  | OtherLayer _ => Raise RuntimeError
  end.

(** The [dp_lambda] dictionary handed to [dp_res_block]: whether the
    [relu_final] layer object is one of its keys, the entries under the
    string keys, the two that are passed on as [use_lambda] by their truth
    value. *)
Record lambda_dict := mkLD {
  has_relu_final_layer : bool;
  entry_relu_final : option (list A);
  entry_residual : option bool;
  entry_downsample : option bool
}.

Definition truth (o : option bool) : bool :=
  match o with Some b => b | None => false end.

(** [dp_res_block], lines 252-267.  It returns the two branches and the
    dictionary as the call leaves them, and the sum relation. *)
Definition dp_res_block (self : DeepPoly) (residual : layer) (downsample relu_final : option layer)
    (it : nat) (dp_lambda : option lambda_dict)
  : res (layer * option layer * option lambda_dict * DeepPoly) :=
  ' (in_dp_elem, dp_lambda) <-
    match relu_final with
    | None => Ok (self, dp_lambda)
    | Some rf =>
        match dp_lambda with
        | Some ld =>
            if has_relu_final_layer ld then
              match entry_relu_final ld with
              | None => Raise KeyError
              | Some p =>
                  ' (d, p') <- dp_relu self (layer_bounds rf) it (Some p) ;;
                  Ok (d, Some (mkLD true p' (entry_residual ld) (entry_downsample ld)))
              end
            else ' (d, _) <- dp_relu self (layer_bounds rf) it None ;; Ok (d, dp_lambda)
        | None => ' (d, _) <- dp_relu self (layer_bounds rf) it None ;; Ok (d, dp_lambda)
        end
    end ;;
  let id_dp_elem := mkDP (x_l_coef in_dp_elem) (x_u_coef in_dp_elem)
                         (BScalar zero) (BScalar zero) in
  ' (residual', res_dp_elem) <-
    backprop_dp residual in_dp_elem it
      (match dp_lambda with Some ld => truth (entry_residual ld) | None => false end) ;;
  ' (downsample', id_dp_elem) <-
    match downsample with
    | None => Ok (None, id_dp_elem)
    | Some ds =>
        ' (ds', d) <- backprop_dp ds id_dp_elem it
          (match dp_lambda with Some ld => truth (entry_downsample ld) | None => false end) ;;
        Ok (Some ds', d)
    end ;;
  out_dp_elem <- dp_add id_dp_elem res_dp_elem ;;
  Ok (residual', downsample', dp_lambda, out_dp_elem).

(** ** Backward substitution *)

Definition bounds_pair := (list A * list A)%type.

(** Lines 318-325 for the layer of index [j]. *)
Definition concretize_step (j : nat) (l : layer) (d : DeepPoly) (use_intermediate : bool)
    (abs_inputs : option HybridZonotope) (acc : option bounds_pair)
  : res (option bounds_pair) :=
  if (j =? 0) || (use_intermediate && match layer_bounds l with Some _ => true | None => false end)
  then
    tmp <- dp_concretize d (if 0 <? j then layer_bounds l else None)
                           (if 0 <? j then None else abs_inputs) ;;
    match acc with
    | Some (x_l_bias, x_u_bias) =>
        lo <- ewise maximum x_l_bias (fst tmp) ;;
        up <- ewise minimum x_u_bias (snd tmp) ;;
        Ok (Some (lo, up))
    | None => Ok (Some tmp)
    end
  else Ok acc.

(** The loop of lines 314-325 over the layers [ls], whose first element
    has index [j]; the last layer is visited first. *)
Fixpoint backward_loop (j : nat) (ls : list layer) (d : DeepPoly) (it : nat)
    (use_lambda use_intermediate : bool) (abs_inputs : option HybridZonotope)
  : res (list layer * DeepPoly * option bounds_pair) :=
  match ls with
  | [] => Ok ([], d, None)
  | l :: tl =>
      ' (tl', d, acc) <- backward_loop (S j) tl d it use_lambda use_intermediate abs_inputs ;;
      ' (l', d) <- backprop_dp l d it use_lambda ;;
      acc <- concretize_step j l d use_intermediate abs_inputs acc ;;
      Ok (l' :: tl', d, acc)
  end.

(** [backward_deeppoly], lines 311-327, on [net.layers]. *)
Definition backward_deeppoly (net : list layer) (layer_idx : Z) (abs_dp_element : DeepPoly)
    (it : nat) (use_lambda use_intermediate : bool) (abs_inputs : option HybridZonotope)
  : res (list layer * option bounds_pair) :=
  if (layer_idx <? 0)%Z then Ok (net, None)
  else
    let n := Z.to_nat layer_idx in
    if length net <=? n then Raise IndexError
    else
      ' (pre, _, acc) <- backward_loop 0 (firstn (S n) net) abs_dp_element it
                                       use_lambda use_intermediate abs_inputs ;;
      Ok (pre ++ skipn (S n) net, acc).

(** ** The recursive bound solver *)

(** Modelled from the spec: [update_bounds] belongs to [abstract_layers],
    which is not part of the sources at hand.  It writes the resulting
    numeric bounds into the cache of the layer. *)
Definition update_bounds (l : layer) (b : tensor * tensor) : layer :=
  set_bounds l (Some b).

Fixpoint list_set {T} (l : list T) (i : nat) (x : T) : list T :=
  match l, i with
  | [], _ => []
  | _ :: tl, O => x :: tl
  | y :: tl, S i' => y :: list_set tl i' x
  end.

(** The state the solver works on: the layers of the network with their
    caches, the list [already_bounded_layers] the recursive calls share,
    and a ghost log of the indices for which a backward-substitution pass
    was started (most recent first). *)
Record solver_state := mkSt {
  st_net : list layer;
  st_memo : list nat;
  st_trace : list nat
}.

Definition eye (k : nat) : list (list A) :=
  map (fun i => map (fun j => if i =? j then one else zero) (seq 0 k)) (seq 0 k).

(** [DeepPoly(expr_coef=torch.eye(k).view(-1, *dim).unsqueeze(0))] *)
Definition identity_seed (dim : list nat) : DeepPoly :=
  seed (mkC dim (eye (prod_shape dim))).

Definition layer_output_dim (l : layer) : list nat :=
  match l with ReLU _ d _ => d | _ => [] end.

Definition in_memo (i : nat) (memo : list nat) : bool := existsb (Nat.eqb i) memo.

Definition has_bounds (l : layer) : bool :=
  match layer_bounds l with Some _ => true | None => false end.

(** The loop of lines 349-355 over the indices [idx]; [rec s i] is the
    recursive call of line 353 for the layer of index [i]. *)
Fixpoint solver_loop (rec : solver_state -> nat -> res solver_state)
    (recompute_bounds : bool) (idx : list nat) (s : solver_state) (is_first_relu : bool)
  : res (solver_state * bool) :=
  match idx with
  | [] => Ok (s, is_first_relu)
  | i :: rest =>
      match nth_error (st_net s) i with
      | None => solver_loop rec recompute_bounds rest s is_first_relu
      | Some layer =>
          if is_relu layer && negb (in_memo i (st_memo s)) then
            s <- (if negb (has_bounds layer) || recompute_bounds then
                    if negb (is_first_relu && has_bounds layer) then rec s i
                    else Ok s
                  else Ok s) ;;
            solver_loop rec recompute_bounds rest
                        (mkSt (st_net s) (st_memo s ++ [i]) (st_trace s)) false
          else solver_loop rec recompute_bounds rest s is_first_relu
      end
  end.

(** Lines 358-368: the backward pass for the requested layer, or nothing
    when it is not a ReLU. *)
Definition bound_requested (s : solver_state) (max_layer_id : nat)
    (abs_input : HybridZonotope) (it : nat) (use_lambda use_intermediate : bool)
  : res (solver_state * option (tensor * tensor)) :=
  match nth_error (st_net s) max_layer_id with
  | None => Raise IndexError
  | Some last_layer =>
      if negb (is_relu last_layer) then Ok (s, None)
      else
        let dim := layer_output_dim last_layer in
        ' (net, r) <- backward_deeppoly (st_net s) (Z.of_nat max_layer_id - 1)
                        (identity_seed dim) it use_lambda use_intermediate
                        (Some abs_input) ;;
        match r with
        | None => Raise TypeError
        | Some (x_l_bias, x_u_bias) =>
            Ok (mkSt net (st_memo s) (max_layer_id :: st_trace s),
                Some (mkT dim x_l_bias, mkT dim x_u_bias))
        end
  end.

(** Line 370. *)
Definition write_bounds (s : solver_state) (max_layer_id : nat)
    (new_bounds : option (tensor * tensor)) : res solver_state :=
  match new_bounds with
  | None => Ok s
  | Some b =>
      match nth_error (st_net s) max_layer_id with
      | None => Raise IndexError
      | Some l =>
          Ok (mkSt (list_set (st_net s) max_layer_id (update_bounds l b))
                   (st_memo s) (st_trace s))
      end
  end.

(** [compute_dp_relu_bounds], lines 339-370.  The recursion is on the
    index of the layer; [fuel] bounds its depth.  The recursive call
    leaves [recompute_bounds] at its default, true. *)
Fixpoint compute_dp_relu_bounds_rec (fuel : nat) (s : solver_state) (max_layer_id : nat)
    (abs_input : HybridZonotope) (it : nat) (use_lambda recompute_bounds use_intermediate : bool)
  {struct fuel} : res solver_state :=
  match fuel with
  | O => Raise OutOfFuel
  | S fuel' =>
    ' (s, new_bounds) <-
      (if max_layer_id =? 0 then Ok (s, Some (concretize abs_input))
       else
         ' (s, _) <-
           solver_loop
             (fun s i => compute_dp_relu_bounds_rec fuel' s i abs_input it
                           use_lambda true use_intermediate)
             recompute_bounds
             (seq 0 (Nat.min max_layer_id (length (st_net s)))) s true ;;
         bound_requested s max_layer_id abs_input it use_lambda use_intermediate) ;;
    write_bounds s max_layer_id new_bounds
  end.

Definition compute_dp_relu_bounds (s : solver_state) (max_layer_id : nat)
    (abs_input : HybridZonotope) (it : nat) (use_lambda recompute_bounds use_intermediate : bool)
  : res solver_state :=
  compute_dp_relu_bounds_rec (S max_layer_id) s max_layer_id abs_input it
                             use_lambda recompute_bounds use_intermediate.

(** ** The entry point *)

(** Modelled from the spec: the network class belongs to [abstract_layers],
    which is not part of the sources at hand.  By the network contract the
    network "must accept a set input shape call" and "must support being
    invoked as a plain forward function from input to output", used to
    discover shapes.  What the two calls write into a layer is its shape
    attribute ([dim], for a ReLU layer [output_dim]), for a batch-norm
    layer in training mode the statistics of the batch, and the same for
    the layers inside it; [layer_data] holds these values for one layer. *)
#[warnings="-register-all"]
Inductive layer_data :=
| LayerData (shape : list nat) (batch_mean batch_var : list A) (inner : list layer_data).

(** Modelled from the spec: the writes of the two calls on one layer and
    on the layers of a network.  The inner data of a residual block are
    those of its residual, downsample and final ReLU layer, in this
    order. *)
Fixpoint write_layer (l : layer) (w : layer_data) {struct l} : layer :=
  match w with
  | LayerData shape batch_mean batch_var inner =>
    match l with
    | Flatten b _ => Flatten b shape
    | ReLU b _ deepz_lambda => ReLU b shape deepz_lambda
    | Conv2d b _ weight bias stride padding dilation groups =>
        Conv2d b shape weight bias stride padding dilation groups
    | AvgPool2d b _ kernel_size stride padding =>
        AvgPool2d b shape kernel_size stride padding
    | Upsample b _ mode align_corners => Upsample b shape mode align_corners
    | BatchNorm b training current_mean current_var running_mean running_var
                weight bias eps =>
        if training
        then BatchNorm b training batch_mean batch_var running_mean running_var
                       weight bias eps
        else l
    | Sequential b layers =>
        Sequential b
          ((fix write_all (ls : list layer) (ws : list layer_data) : list layer :=
              match ls, ws with
              | sub_layer :: tl, w0 :: wt => write_layer sub_layer w0 :: write_all tl wt
              | _, _ => ls
              end) layers inner)
    | ResBlock b residual downsample relu_final =>
        match inner with
        | wr :: wd :: wf :: _ =>
            ResBlock b (write_layer residual wr)
                     (match downsample with
                      | Some ds => Some (write_layer ds wd)
                      | None => None
                      end)
                     (match relu_final with
                      | Some rf => Some (write_layer rf wf)
                      | None => None
                      end)
        | _ => l
        end
    | _ => l
    end
  end.

Fixpoint write_layers (ls : list layer) (ws : list layer_data) : list layer :=
  match ls, ws with
  | l :: tl, w :: wt => write_layer l w :: write_layers tl wt
  | _, _ => ls
  end.

(** Modelled from the spec: the two calls of the network the entry point
    makes, what [net.set_dim(x)] writes for the first sample [x] of the
    lower bound of the input, and what [net(abs_input.head)] writes
    together with the per-sample shape of its result, or the exception
    either raises. *)
Class Network := {
  set_dim : list layer -> tensor -> res (list layer_data);
  net_call : list layer -> HybridZonotope -> res (list layer_data * list nat)
}.

Context {NN : Network}.

(** Lines 374-375: the network after the two calls and the per-sample
    shape of [x]. *)
Definition prepare (net : list layer) (abs_input : HybridZonotope)
  : res (list layer * list nat) :=
  w <- set_dim net (fst (concretize abs_input)) ;;
  let net := write_layers net w in
  ' (w, x_shape) <- net_call net abs_input ;;
  Ok (write_layers net w, x_shape).

(** [forward_deeppoly], lines 373-392. *)
Definition forward_deeppoly (net : list layer)
    (abs_input : HybridZonotope) (expr_coef : option coef) (it : nat)
    (use_lambda recompute_bounds use_intermediate : bool)
  : res (list layer * option bounds_pair) :=
  ' (net, out_shape) <- prepare net abs_input ;;
  net <- (if recompute_bounds then
            match length net with
            | O => Raise IndexError
            | S n =>
                s <- compute_dp_relu_bounds (mkSt net [] []) n abs_input it
                                            false true use_intermediate ;;
                Ok (st_net s)
            end
          else Ok net) ;;
  let abs_dp_element :=
    match expr_coef with
    | None => identity_seed out_shape
    | Some e => seed e
    end in
  ' (net, r) <- backward_deeppoly net (Z.of_nat (length net) - 1) abs_dp_element it
                                  use_lambda use_intermediate (Some abs_input) ;;
  match expr_coef, r with
  | None, None => Raise AttributeError
  | _, _ => Ok (net, r)
  end.

End Model.

(** ** The sign split in the words of the specification *)

(** New coefficient = positive part x [f]-slope + negative part x
    [g]-slope, neuron by neuron. *)
Definition sign_split {A : Type} {AA : Arith A} (f g : @relax A -> A)
    (row : list A) (rl : list (@relax A)) : list A :=
  map (fun q => add (mul (pos_part (fst q)) (f (snd q)))
                    (mul (neg_part (fst q)) (g (snd q))))
      (combine row rl).

(** The sum of the entries of a vector, taken one after the other from
    [acc]; from zero it is the reduction of the offsets of one row over
    the neurons. *)
Fixpoint sum_from {A : Type} {AA : Arith A} (acc : A) (l : list A) : A :=
  match l with
  | [] => acc
  | x :: tl => sum_from (add acc x) tl
  end.

(** Pointwise order of two bound vectors. *)
Definition le_all {A : Type} {AA : Arith A} {OL : OrderLaws A} (a b : list A) : Prop :=
  Forall2 (fun x y => leb x y = true) a b.

(** ** What the solver leaves behind *)

(** The caches and the kinds of the layers of a network, by index. *)
Definition caches {A : Type} (net : list (@layer A)) : list (@cache A) :=
  map layer_bounds net.

Definition kinds {A : Type} (net : list (@layer A)) : list bool :=
  map is_relu net.

(** The index [j] was put into the memo between [s] and [s']. *)
Definition memoized {A : Type} (m : nat) (s s' : @solver_state A) (j : nat) : Prop :=
  j < m /\ ~ In j (st_memo s) /\ In j (st_memo s').

(** How a run from [s] to [s'] may differ: the memo and the log grow by
    [M] and [E]; no index is logged twice; a logged index satisfies [P];
    a cache that changed belongs to a logged index or to layer 0. *)
Definition evolves {A : Type} (P : nat -> Prop) (s s' : @solver_state A) : Prop :=
  kinds (st_net s') = kinds (st_net s) /\
  exists M E,
    st_memo s' = st_memo s ++ M /\
    st_trace s' = E ++ st_trace s /\
    NoDup E /\
    (forall j, In j E -> P j) /\
    (forall j, nth_error (caches (st_net s')) j = nth_error (caches (st_net s)) j
               \/ In j E \/ j = 0).

(** ** The function a network computes *)

(** Modelled from the spec: the forward pass belongs to the layer classes
    of [abstract_layers], which are not part of the sources at hand.  A
    [Linear] layer computes weight . x + bias, a [ReLU] layer max(x, 0)
    for every neuron; the other layer kinds are not needed below. *)
Definition relu {A : Type} {AA : Arith A} (x : A) : A :=
  if ltb zero x then x else zero.

Fixpoint forward {A : Type} {AA : Arith A} (net : list (@layer A)) (x : list A)
  : res (list A) :=
  match net with
  | [] => Ok x
  | Linear _ weight bias :: tl =>
      y <- mapM (fun row => dot row x) weight ;;
      z <- match bias with
           | None => Ok y
           | Some b => ewise add y b
           end ;;
      forward tl z
  | ReLU _ _ _ :: tl => forward tl (map relu x)
  | _ :: _ => Raise NotImplementedError
  end.

(** ** Concrete values used below *)

Definition finite_relax (r : @relax float32) : bool :=
  f32_finite (lambda_l r) && f32_finite (lambda_u r)
  && f32_finite (mu_l r) && f32_finite (mu_u r).

Definition f32_is_inf (x : float32) : bool :=
  match x with S754_infinity _ => true | _ => false end.



(** A relation with one expression over two neurons, the first unstable
    with bounds [-1, 3], the second stably inactive with bounds [-2, -1]. *)
Definition ex_rel : @DeepPoly Q :=
  mkDP (mkC [2] [[1%Q; (-2)%Q]]) (mkC [2] [[1%Q; (-2)%Q]]) (BScalar 0%Q) (BScalar 0%Q).

Definition ex_bounds : @tensor Q * @tensor Q :=
  (mkT [2] [(-1)%Q; (-2)%Q], mkT [2] [3%Q; (-1)%Q]).

(** Bounds under which both neurons are unstable: [-1, 3] and [-2, 2]. *)
Definition unstable_bounds : @tensor Q * @tensor Q :=
  (mkT [2] [(-1)%Q; (-2)%Q], mkT [2] [3%Q; 2%Q]).

(** Two large binary32 numbers, 2^100 and 2^40; their product is beyond
    the range of binary32. *)
Definition big32 : float32 := f32_of_Z (2 ^ 100).
Definition mid32 : float32 := f32_of_Z (2 ^ 40).

(** The example networks below have no convolution, pooling, upsampling
    or batch-norm layer; for them the three primitives of [Torch] are never
    called and are filled with the identity. *)
Definition plain_torch (A : Type) : @Torch A :=
  {| conv_transpose2d := fun t _ _ => Ok t;
     interpolate := fun t _ _ _ => Ok t;
     tsqrt := fun x => x |}.

(** The values the two calls of the network find in a layer whose shapes
    and statistics are set already. *)
Fixpoint data_of {A : Type} (l : @layer A) : @layer_data A :=
  match l with
  | Flatten _ dim => LayerData dim [] [] []
  | ReLU _ output_dim _ => LayerData output_dim [] [] []
  | Conv2d _ dim _ _ _ _ _ _ => LayerData dim [] [] []
  | AvgPool2d _ dim _ _ _ => LayerData dim [] [] []
  | Upsample _ dim _ _ => LayerData dim [] [] []
  | BatchNorm _ _ current_mean current_var _ _ _ _ _ =>
      LayerData [] current_mean current_var []
  | Sequential _ layers => LayerData [] [] [] (map data_of layers)
  | ResBlock _ residual downsample relu_final =>
      LayerData [] [] []
        [data_of residual;
         match downsample with Some ds => data_of ds | None => LayerData [] [] [] [] end;
         match relu_final with Some rf => data_of rf | None => LayerData [] [] [] [] end]
  | _ => LayerData [] [] [] []
  end.

(** The network object of the examples below: its shapes are set and its
    statistics are those of the input, so that the two calls write the
    values the layers hold; the result of its forward pass has the
    per-sample shape [out_shape]. *)
Definition plain_network (A : Type) (out_shape : list nat) : @Network A :=
  {| set_dim := fun net _ => Ok (map data_of net);
     net_call := fun net _ => Ok (map data_of net, out_shape) |}.

(** An interval input region over one input. *)
Definition box1 {A : Type} (l u : A) : @HybridZonotope A :=
  mkHZ "box" (mkT [1] [l], mkT [1] [u]) (fun _ _ => Raise RuntimeError).

(** x -> (x, x) -> relu over one input, in binary32, with the exact
    bounds of the input 2^40 in the cache of the ReLU; the expression
    2^100 * y1 - 2^100 * y2 over its two outputs. *)
Definition net_overflow : list (@layer float32) :=
  [Linear None [[f32_of_Z 1]; [f32_of_Z 1]] None;
   ReLU (Some (mkT [2] [mid32; mid32], mkT [2] [mid32; mid32])) [2] None].

Definition rel_overflow : @DeepPoly float32 :=
  seed (mkC [2] [[big32; SFopp big32]]).

(** x -> 2x -> relu -> identity, the ReLU with the cached bounds [-1, 3]. *)
Definition net_cached : list (@layer Q) :=
  [Linear None [[2%Q]] None;
   ReLU (Some (mkT [1] [(-1)%Q], mkT [1] [3%Q])) [1] None;
   Linear None [[1%Q]] None].

(** The same network in binary32. *)
Definition net_cached32 : list (@layer float32) :=
  [Linear None [[f32_of_Z 2]] None;
   ReLU (Some (mkT [1] [f32_of_Z (-1)], mkT [1] [f32_of_Z 3])) [1] None;
   Linear None [[f32_of_Z 1]] None].

(** The residual-block scenario: a relation with two expressions over two
    neurons and biases 5 and 6, and a block whose residual branch is the
    identity [Linear] layer, without downsample and without final ReLU. *)
Definition rel2 : @DeepPoly Q :=
  mkDP (mkC [2] [[1%Q; (-2)%Q]; [3%Q; 4%Q]]) (mkC [2] [[1%Q; (-2)%Q]; [3%Q; 4%Q]])
       (BVec [5%Q; 6%Q]) (BVec [5%Q; 6%Q]).

Definition identity_linear : @layer Q :=
  Linear None [[1%Q; 0%Q]; [0%Q; 1%Q]] (Some [0%Q; 0%Q]).

Definition identity_block : @layer Q := ResBlock None identity_linear None None.

(** x -> x -> relu over one input; both caches are populated, the one of
    the ReLU with the loose bounds [-5, 5]. *)
Definition net_loose : list (@layer Q) :=
  [Linear (Some (mkT [1] [(-1)%Q], mkT [1] [1%Q])) [[1%Q]] None;
   ReLU (Some (mkT [1] [(-5)%Q], mkT [1] [5%Q])) [1] None].

(** x -> x -> relu -> identity with empty caches. *)
Definition net_fresh : list (@layer Q) :=
  [Linear None [[1%Q]] None; ReLU None [1] None; Linear None [[1%Q]] None].

(** The layer of index [i] needs no work from the loop of the solver. *)
Definition settled {A : Type} (recompute_bounds : bool) (s : @solver_state A) (i : nat)
  : Prop :=
  forall l, nth_error (st_net s) i = Some l -> is_relu l = true ->
            in_memo i (st_memo s) = true \/
            (has_bounds l = true /\ recompute_bounds = false).

(** x -> x -> relu over one input, with empty caches, in both
    arithmetics; 2^-50 in both. *)
Definition net_unit (A : Type) {AA : Arith A} : list (@layer A) :=
  [Linear None [[one]] None; ReLU None [1] None].
Arguments net_unit A {AA}.

Definition tiny32 : float32 := S754_finite false 8388608 (-73).

Definition tinyQ : Q := (1 # 1125899906842624)%Q.

(** ** Notions for the further properties *)

(** The value of one row of coefficients at the point [x]: the sum of
    the products, over the neurons both have. *)
Definition row_value {A : Type} {AA : Arith A} (c x : list A) : A :=
  vsum (zip_with mul c x).

(** The bias of the expression of index [i]; the 0-dimensional bias is
    shared by all of them. *)
Definition bias_at {A : Type} {AA : Arith A} (b : @bias_t A) (i : nat) : A :=
  match b with
  | BScalar a => a
  | BVec v => nth i v zero
  end.

(** The value of the lower expression of index [i] of a relation at the
    point [x]. *)
Definition lower_value {A : Type} {AA : Arith A} (d : @DeepPoly A) (i : nat) (x : list A) : A :=
  add (bias_at (x_l_bias d) i) (row_value (nth i (crows (x_l_coef d)) []) x).

(** The same for the upper expression. *)
Definition upper_value {A : Type} {AA : Arith A} (d : @DeepPoly A) (i : nat) (x : list A) : A :=
  add (bias_at (x_u_bias d) i) (row_value (nth i (crows (x_u_coef d)) []) x).


(** The products of a weight matrix, given by its rows, with a vector. *)
Definition mat_vec (w : list (list Q)) (x : list Q) : list Q :=
  map (fun row => row_value row x) w.

(** What a [Linear] layer computes. *)
Definition affine_image (w : list (list Q)) (b : option (list Q)) (x : list Q) : list Q :=
  match b with
  | None => mat_vec w x
  | Some b' => zip_with add (mat_vec w x) b'
  end.

(** The bounds of a neuron that is strictly active or strictly inactive. *)
Definition stable_pair (lb ub : Q) : Prop := (0 < lb)%Q \/ (ub < 0)%Q.

(** The bounds [lb], [ub] contain [z] and no neuron is unstable. *)
Inductive stable_at : list Q -> list Q -> list Q -> Prop :=
| stable_nil : stable_at [] [] []
| stable_cons lb ub z lbs ubs zs :
    stable_pair lb ub -> (lb <= z)%Q -> (z <= ub)%Q ->
    stable_at lbs ubs zs -> stable_at (lb :: lbs) (ub :: ubs) (z :: zs).





(** The loop of lines 272-274 with the dispatch as a parameter. *)
Fixpoint seq_loop {A : Type} (f : @layer A -> @DeepPoly A -> res (@layer A * @DeepPoly A))
    (ls : list (@layer A)) (d : @DeepPoly A) : res (list (@layer A) * @DeepPoly A) :=
  match ls with
  | [] => Ok ([], d)
  | sub_layer :: tl =>
      ' (tl', d1) <- seq_loop f tl d ;;
      ' (sub_layer', d2) <- f sub_layer d1 ;;
      Ok (sub_layer' :: tl', d2)
  end.

(** Every ReLU and global pooling layer the dispatch reaches has cached
    bounds, and it reaches no residual block and no unknown layer. *)
Fixpoint supported {A : Type} (l : @layer A) : Prop :=
  match l with
  | ReLU b _ _ => b <> None
  | GlobalAvgPool2d b => b <> None
  | ResBlock _ _ _ _ => False
  | OtherLayer _ => False
  | Sequential _ ls =>
      (fix all (ls : list (@layer A)) : Prop :=
         match ls with
         | [] => True
         | x :: tl => supported x /\ all tl
         end) ls
  | _ => True
  end.

(** The relation [d'] has as many lower and as many upper expressions as
    the relation [d]. *)
Definition same_rows {A : Type} (d d' : @DeepPoly A) : Prop :=
  length (crows (x_l_coef d')) = length (crows (x_l_coef d)) /\
  length (crows (x_u_coef d')) = length (crows (x_u_coef d)).


(** The layer of index [i] exists and has cached bounds. *)
Definition cached {A : Type} (net : list (@layer A)) (i : nat) : Prop :=
  exists b, nth_error (caches net) i = Some (Some b).

(** The layer of index [i] exists and is a ReLU layer. *)
Definition relu_at {A : Type} (net : list (@layer A)) (i : nat) : Prop :=
  nth_error (kinds net) i = Some true.

(** What a run of the solver from [s] to [s'] over the indices [lo] .. [hi]-1
    guarantees: the kinds are kept, caches persist, the memo grows by
    indices below [hi], and every ReLU layer of these indices outside the
    memo has cached bounds. *)
Definition bounded_after {A : Type} (lo hi : nat) (s s' : @solver_state A) : Prop :=
  kinds (st_net s') = kinds (st_net s) /\
  (forall i, cached (st_net s) i -> cached (st_net s') i) /\
  (exists M, st_memo s' = st_memo s ++ M /\ forall j, In j M -> j < hi) /\
  (forall i, lo <= i < hi -> relu_at (st_net s) i -> in_memo i (st_memo s) = false ->
             cached (st_net s') i).

(** The network with every bound cache of its layers emptied. *)
Definition without_caches {A : Type} (net : list (@layer A)) : list (@layer A) :=
  map (fun l => set_bounds l None) net.

(** Reading an attribute of an object; one that was never assigned raises
    AttributeError. *)
Definition attr {T : Type} (o : option T) : res T :=
  match o with
  | Some v => Ok v
  | None => Raise AttributeError
  end.

(** [DeepPoly.clone], lines 30-31: a tensor and its clone hold the same
    values. *)
Definition clone {A : Type} {AA : Arith A} (self : @DeepPolyObj A) : res (@DeepPolyObj A) :=
  lc <- attr (o_x_l_coef self) ;;
  uc <- attr (o_x_u_coef self) ;;
  lb <- attr (o_x_l_bias self) ;;
  ub <- attr (o_x_u_bias self) ;;
  DeepPoly_init (Some lc) (Some uc) (Some lb) (Some ub) None.

(** [DeepPoly.detach], lines 33-38: a tensor and its detached view hold
    the same values. *)
Definition detach {A : Type} {AA : Arith A} (self : @DeepPolyObj A) : res (@DeepPolyObj A) :=
  x_l_coef <- attr (o_x_l_coef self) ;;
  x_u_coef <- attr (o_x_u_coef self) ;;
  x_l_bias <- attr (o_x_l_bias self) ;;
  x_u_bias <- attr (o_x_u_bias self) ;;
  DeepPoly_init (Some x_l_coef) (Some x_u_coef) (Some x_l_bias) (Some x_u_bias) None.

(** [get_layer_sizes], lines 330-336.  A block is a callable on tensors;
    [size] is [Tensor.size].  The dictionary is given by its items in the
    order of insertion; the loop returns them with the last value of [x]
    and of the loop variable [i], which is unbound before the first
    iteration. *)
Fixpoint layer_sizes_loop {T U : Type} (size : T -> U) (blocks : list (T -> res T))
    (i : nat) (last : option nat) (layer_sizes : list (nat * U)) (x : T)
  : res (list (nat * U) * T * option nat) :=
  match blocks with
  | [] => Ok (layer_sizes, x, last)
  | layer :: tl =>
      let layer_sizes := layer_sizes ++ [(i, size x)] in
      x <- layer x ;;
      layer_sizes_loop size tl (S i) (Some i) layer_sizes x
  end.

(** Reading [i] after a loop without iterations raises UnboundLocalError,
    a NameError. *)
Definition get_layer_sizes {T U : Type} (size : T -> U) (blocks : list (T -> res T)) (x : T)
  : res (list (nat * U)) :=
  ' (layer_sizes, x, last) <- layer_sizes_loop size blocks 0 None [] x ;;
  match last with
  | None => Raise NameError
  | Some i => Ok (layer_sizes ++ [(i + 1, size x)])
  end.

(** The value the first [k] blocks compute from [x]. *)
Fixpoint run_blocks {T : Type} (blocks : list (T -> res T)) (x : T) : res T :=
  match blocks with
  | [] => Ok x
  | layer :: tl => y <- layer x ;; run_blocks tl y
  end.

(** The layers a [Sequential] holds after a call, and none for any other
    layer. *)
Definition sub_layers {A : Type} (l : @layer A) : list (@layer A) :=
  match l with
  | Sequential _ ls => ls
  | _ => []
  end.

(** Modelled from the spec: the forward pass of the layers belongs to
    [abstract_layers], which is not part of the sources at hand.
    Normalization subtracts the mean and divides by sigma, which is
    x / sigma + (-mean / sigma). *)
Definition normalize_image (mean sigma x : list Q) : list Q :=
  zip_with add (zip_with div x sigma) (zip_with div (map opp mean) sigma).

(** Modelled from the spec: batch normalisation is the affine map with
    scale = weight / sqrt(var + eps) and shift = -mean * scale + bias. *)
Definition batch_norm_image (sqrt : Q -> Q) (mean var weight : list Q)
    (bias : option (list Q)) (eps : Q) (x : list Q) : list Q :=
  let scale := zip_with div weight (map (fun v => sqrt (add v eps)) var) in
  let shift := match bias with
               | None => zip_with mul (map opp mean) scale
               | Some b => zip_with add (zip_with mul (map opp mean) scale) b
               end in
  zip_with add (zip_with mul scale x) shift.


(** Bounds under which both neurons are stable: the first active, the
    second inactive. *)
Definition stable_bounds : @tensor Q * @tensor Q :=
  (mkT [2] [1%Q; (-3)%Q], mkT [2] [2%Q; (-1)%Q]).

(** A box inside [ex_bounds]. *)
Definition inner_bounds : @tensor Q * @tensor Q :=
  (mkT [2] [0%Q; (-2)%Q], mkT [2] [1%Q; (-1)%Q]).

(** * Properties *)

Lemma bind_Ok {T U} (c : res T) (k : T -> res U) (u : U) :
  bind c k = Ok u -> exists v, c = Ok v /\ k v = Ok u.
Proof. destruct c as [v|e]; simpl; [eauto | discriminate]. Qed.

Ltac inv_bind H :=
  let v := fresh "v" in
  let E := fresh "E" in
  apply bind_Ok in H; destruct H as [v [E H]].

(** ** The two arithmetics are lawful *)

Lemma Qltb_true (a b : Q) : Qltb a b = true <-> (a < b)%Q.
Proof.
  unfold Qltb. rewrite negb_true_iff. split; intro H.
  - apply Qnot_le_lt. intro L. apply Qle_bool_iff in L. congruence.
  - destruct (Qle_bool b a) eqn:E; [|reflexivity].
    apply Qle_bool_iff in E. exfalso. exact (Qlt_not_le _ _ H E).
Qed.

Lemma Qltb_false (a b : Q) : Qltb a b = false <-> (b <= a)%Q.
Proof.
  unfold Qltb. rewrite negb_false_iff. apply Qle_bool_iff.
Qed.

#[export] Instance LtAsym_Q : LtAsym Q.
Proof.
  constructor. intros a b H. apply Qltb_true in H.
  apply Qltb_false. apply Qlt_le_weak. exact H.
Qed.

Lemma SFcompare_antisym (x y : float32) :
  SFcompare y x = option_map CompOpp (SFcompare x y).
Proof.
  destruct x as [sx|sx| |sx mx ex], y as [sy|sy| |sy my ey]; simpl;
    try reflexivity;
    try (destruct sx; reflexivity); try (destruct sy; reflexivity);
    try (destruct sx, sy; reflexivity).
  destruct sx, sy; try reflexivity;
    rewrite (Z.compare_antisym ex ey);
    destruct (ex ?= ey)%Z; simpl; try reflexivity;
    rewrite (Pos.compare_cont_antisym mx my Eq); simpl;
    destruct (Pos.compare_cont Eq mx my); reflexivity.
Qed.

#[export] Instance LtAsym_f32 : LtAsym float32.
Proof.
  constructor. intros a b. simpl. unfold SFltb.
  rewrite (SFcompare_antisym a b).
  destruct (SFcompare a b) as [[| |]|]; simpl; congruence.
Qed.

(** ** The constructor *)

(** C10: with [expr_coef = None] and one of the two coefficient arguments
    [None], the constructor returns without raising and leaves every
    attribute ([device], [x_l_coef], [x_u_coef], [x_l_bias], [x_u_bias])
    unset. *)
Theorem init_without_coefficients_sets_nothing :
  forall (A : Type) (AA : Arith A) (x_l_coef x_u_coef : option (@coef A))
         (x_l_bias x_u_bias : option (@bias_t A)),
    x_l_coef = None \/ x_u_coef = None ->
    DeepPoly_init x_l_coef x_u_coef x_l_bias x_u_bias None
    = Ok (mkObj None None None None None).
Proof.
  intros A AA lc uc lb ub [H|H]; subst; unfold DeepPoly_init.
  - reflexivity.
  - destruct lc; reflexivity.
Qed.

Lemma init_without_coefficients_sets_nothing_witness :
  (Some (mkC [1] [[1%Q]]) = None \/ @None (@coef Q) = None) /\
  DeepPoly_init (Some (mkC [1] [[1%Q]])) None (Some (BScalar 2%Q)) None None
  = Ok (mkObj None None None None None).
Proof.
  split.
  - right. reflexivity.
  - apply init_without_coefficients_sets_nothing. right. reflexivity.
Defined.

(** With both coefficients the constructor builds the object of the
    relation, which is how the transfer operations use it. *)
Lemma DeepPoly_init_full (A : Type) (AA : Arith A) (d : @DeepPoly A) :
  DeepPoly_init (Some (x_l_coef d)) (Some (x_u_coef d))
                (Some (x_l_bias d)) (Some (x_u_bias d)) None
  = Ok (obj_of d).
Proof. reflexivity. Qed.

Lemma DeepPoly_init_expr (A : Type) (AA : Arith A) (e : @coef A) :
  DeepPoly_init None None None None (Some (IsTensor e)) = Ok (obj_of (seed e)).
Proof. reflexivity. Qed.

(** ** The ReLU relaxation of one neuron *)

(** The binary32 constant is the nearest one to 1e-15: it is off by less
    than half a unit in the last place, 2^-74. *)
Lemma eps32_nearest :
  ((9444733 # 1) / (2 ^ 73) - 1 / (2 ^ 74) < 1 / (10 ^ 15))%Q /\
  (1 / (10 ^ 15) < (9444733 # 1) / (2 ^ 73) + 1 / (2 ^ 74))%Q.
Proof. split; vm_compute; reflexivity. Qed.

Lemma relu_neuron_unstable (A : Type) (AA : Arith A) (LA : LtAsym A) (lb ub : A) :
  ltb lb zero = true -> ltb zero ub = true ->
  relu_neuron lb ub (default_lambda_l lb ub)
  = mkRelax (if ltb ub (opp lb) then zero else one)
            (div ub (add (sub ub lb) eps15))
            zero
            (div (mul (opp ub) lb) (add (sub ub lb) eps15)).
Proof.
  intros Hl Hu. unfold relu_neuron.
  rewrite (ltb_asym _ _ Hl), (ltb_asym _ _ Hu), Hl, Hu. reflexivity.
Qed.



(** At the boundary lb = ub = 0 the bounds are both "entirely >= 0" and
    "entirely <= 0", and the neuron gets the lower slope 1 and the upper
    slope 0: neither the identity nor the zero function.  For the bounds
    [0, 2^-50], entirely >= 0, the binary32 upper slope is about 0.47. *)
Lemma stable_boundary_counterexample :
  (0 <= 0)%Q /\
  ~ (lambda_u (relu_neuron 0%Q 0%Q (default_lambda_l 0%Q 0%Q)) == 1)%Q /\
  ~ (lambda_l (relu_neuron 0%Q 0%Q (default_lambda_l 0%Q 0%Q)) == 0)%Q /\
  relu_neuron (S754_zero false) (S754_zero false)
              (default_lambda_l (S754_zero false) (S754_zero false))
  = mkRelax (f32_of_Z 1) (S754_zero false) (S754_zero false) (S754_zero false) /\
  lambda_u (relu_neuron (S754_zero false) (S754_finite false 8388608 (-73))
                        (default_lambda_l (S754_zero false)
                                          (S754_finite false 8388608 (-73))))
  = S754_finite false 15783638 (-25).
Proof.
  split; [apply Qle_refl|].
  split; [vm_compute; discriminate|].
  split; [vm_compute; discriminate|].
  split; vm_compute; reflexivity.
Qed.

(** C3, amended: a neuron whose cached bounds are strictly positive
    ([lb > 0]) gets the exact identity (both slopes 1, both offsets 0), a
    neuron whose cached bounds are strictly negative ([lb < 0] and
    [ub < 0]) gets the zero function (both slopes and offsets 0), whatever
    lower slope [l], default or learned, enters the overrides. *)
Theorem stable_relaxation_strict :
  forall (A : Type) (AA : Arith A) (LA : LtAsym A) (lb ub l : A),
    (ltb zero lb = true ->
     relu_neuron lb ub l = mkRelax one one zero zero) /\
    (ltb lb zero = true -> ltb ub zero = true ->
     relu_neuron lb ub l = mkRelax zero zero zero zero).
Proof.
  intros A AA LA lb ub l. split.
  - intro Hp. unfold relu_neuron.
    rewrite Hp, (ltb_asym _ _ Hp). reflexivity.
  - intros Hl Hu. unfold relu_neuron.
    rewrite Hu, Hl, (ltb_asym _ _ Hl), (ltb_asym _ _ Hu). reflexivity.
Qed.

Lemma stable_relaxation_strict_witness :
  (ltb zero 1%Q = true /\
   relu_neuron 1%Q 2%Q (-5)%Q = mkRelax 1%Q 1%Q 0%Q 0%Q) /\
  (ltb (-2)%Q zero = true /\ ltb (-1)%Q zero = true /\
   relu_neuron (-2)%Q (-1)%Q 7%Q = mkRelax 0%Q 0%Q 0%Q 0%Q).
Proof.
  split.
  - split; [reflexivity|].
    exact (proj1 (stable_relaxation_strict LtAsym_Q 1%Q 2%Q (-5)%Q) eq_refl).
  - split; [reflexivity|]. split; [reflexivity|].
    exact (proj2 (stable_relaxation_strict LtAsym_Q (-2)%Q (-1)%Q 7%Q) eq_refl eq_refl).
Defined.

(** *** Zero-width bounds in binary32 *)

Lemma SFsub_diag (s : bool) (m : positive) (e : Z) :
  SFsub prec32 emax32 (S754_finite s m e) (S754_finite s m e) = S754_zero false.
Proof.
  unfold SFsub. rewrite Z.sub_diag. reflexivity.
Qed.

Lemma SFeqb_finite (s1 s2 : bool) (m1 m2 : positive) (e1 e2 : Z) :
  SFeqb (S754_finite s1 m1 e1) (S754_finite s2 m2 e2) = true ->
  s1 = s2 /\ m1 = m2 /\ e1 = e2.
Proof.
  unfold SFeqb, SFcompare.
  destruct s1, s2; try discriminate;
    destruct (e1 ?= e2)%Z eqn:E; try discriminate;
    apply Z.compare_eq in E; subst;
    destruct (Pos.compare_cont Eq m1 m2) eqn:C; try discriminate;
    apply Pos.compare_eq in C; subst; auto.
Qed.

Lemma f32_finite_default (lb ub : float32) :
  f32_finite (default_lambda_l lb ub) = true.
Proof.
  unfold default_lambda_l. destruct (ltb ub (opp lb)); reflexivity.
Qed.

Lemma SFeqb_cases (lb ub : float32) :
  SFeqb ub lb = true ->
  (exists s s', lb = S754_zero s /\ ub = S754_zero s') \/
  (exists s, lb = S754_infinity s /\ ub = S754_infinity s) \/
  (exists s m e, lb = S754_finite s m e /\ ub = S754_finite s m e).
Proof.
  intro He.
  destruct lb as [sl|sl| |sl ml el], ub as [su|su| |su mu eu];
    try discriminate He;
    try (destruct sl; discriminate He); try (destruct su; discriminate He).
  - left. eauto.
  - right. left. destruct sl, su; try discriminate He; eauto.
  - right. right. apply SFeqb_finite in He. destruct He as [-> [-> ->]]. eauto.
Qed.

Lemma zero_width_finite (lb ub l : float32) :
  SFeqb ub lb = true -> f32_finite l = true ->
  finite_relax (relu_neuron lb ub l) = true.
Proof.
  intros He Hl.
  destruct (SFeqb_cases _ _ He) as [[s [s' [-> ->]]] | [[s [-> ->]] | [s [m [e [-> ->]]]]]].
  - assert (R : exists z, @relu_neuron float32 _ (S754_zero s) (S754_zero s') l
                        = mkRelax l (S754_zero z) (S754_zero false) (S754_zero false))
      by (destruct s, s'; eexists; vm_compute; reflexivity).
    destruct R as [z R]. rewrite R. unfold finite_relax. simpl.
    rewrite Hl. reflexivity.
  - destruct s; vm_compute; reflexivity.
  - destruct s; reflexivity.
Qed.

(** C9: when the cached bounds of a neuron coincide ([ub == lb]) the
    slopes and offsets [dp_relu] uses are finite binary32 numbers, with
    the default lower slope and with any finite learned one; and for such
    bounds that are not infinite the denominator [ub - lb + 1e-15] is
    exactly the positive constant, so no division by zero occurs. *)
Theorem degenerate_width_guard :
  forall lb ub : float32,
    SFeqb ub lb = true ->
    finite_relax (relu_neuron lb ub (default_lambda_l lb ub)) = true /\
    (forall l, f32_finite l = true -> finite_relax (relu_neuron lb ub l) = true) /\
    (f32_is_inf lb = false ->
     add (sub ub lb) eps15 = eps32 /\ ltb zero eps32 = true /\ f32_finite eps32 = true).
Proof.
  intros lb ub He. split; [|split].
  - apply zero_width_finite; [exact He | apply f32_finite_default].
  - intros l Hl. apply zero_width_finite; assumption.
  - intro Hi.
    destruct (SFeqb_cases _ _ He) as [[s [s' [-> ->]]] | [[s [-> ->]] | [s [m [e [-> ->]]]]]].
    + destruct s, s'; repeat split; reflexivity.
    + discriminate Hi.
    + split; [|split; reflexivity].
      change (SFadd prec32 emax32
                (SFsub prec32 emax32 (S754_finite s m e) (S754_finite s m e)) eps32
              = eps32).
      rewrite SFsub_diag. reflexivity.
Qed.

Lemma degenerate_width_guard_witness :
  SFeqb (S754_zero false) (S754_zero false) = true /\
  finite_relax (relu_neuron (S754_zero false) (S754_zero false)
                  (default_lambda_l (S754_zero false) (S754_zero false))) = true.
Proof.
  split; [reflexivity|].
  exact (proj1 (degenerate_width_guard (S754_zero false) (S754_zero false) eq_refl)).
Defined.

(** ** Coefficient propagation through the ReLU *)

Section SignSplit.

Context {A : Type} {AA : Arith A}.

Lemma ewise_Ok (f : A -> A -> A) (a b c : list A) :
  ewise f a b = Ok c -> length a = length b /\ c = zip_with f a b.
Proof.
  unfold ewise. destruct (length a =? length b) eqn:E; [|discriminate].
  intro H. injection H as <-. apply Nat.eqb_eq in E. auto.
Qed.

Lemma zip_sign_split (f g : @relax A -> A) (row : list A) (rl : list (@relax A)) :
  zip_with add (zip_with mul (map pos_part row) (map f rl))
               (zip_with mul (map neg_part row) (map g rl))
  = sign_split f g row rl.
Proof.
  revert rl. induction row as [|c row IH]; intros [|r rl]; try reflexivity.
  unfold sign_split, zip_with in *. simpl. f_equal. apply IH.
Qed.

Lemma split_combine_Ok (f g : @relax A -> A) (row : list A) (rl : list (@relax A))
    (v : list A) :
  split_combine row (map f rl) (map g rl) = Ok v ->
  length row = length rl /\ v = sign_split f g row rl.
Proof.
  unfold split_combine, get_neg_pos_comp. intro H.
  inv_bind H. inv_bind H.
  apply ewise_Ok in E. destruct E as [L1 ->].
  apply ewise_Ok in E0. destruct E0 as [L2 ->].
  apply ewise_Ok in H. destruct H as [_ ->].
  rewrite !length_map in L1. split; [exact L1|]. apply zip_sign_split.
Qed.

Lemma mapM_Ok {T U} (f : T -> res U) (g : T -> U) (P : T -> Prop) (l : list T) (r : list U) :
  (forall x y, f x = Ok y -> P x /\ y = g x) ->
  mapM f l = Ok r -> Forall P l /\ r = map g l.
Proof.
  intro Hf. revert r. induction l as [|x l IH]; simpl; intros r H.
  - injection H as <-. auto.
  - inv_bind H. inv_bind H. injection H as <-.
    destruct (Hf _ _ E) as [Px ->]. destruct (IH _ E0) as [Pl ->]. auto.
Qed.

Lemma vsum_sum_from (l : list A) : vsum l = sum_from zero l.
Proof.
  unfold vsum. generalize (@zero A AA) as acc.
  induction l as [|x l IH]; intro acc; simpl; [reflexivity | apply IH].
Qed.

Lemma nth_error_zip_with (f : A -> A -> A) (a b : list A) (i : nat) (x y : A) :
  nth_error a i = Some x -> nth_error b i = Some y ->
  nth_error (zip_with f a b) i = Some (f x y).
Proof.
  unfold zip_with. revert b i.
  induction a as [|p a IH]; intros [|q b] [|i] Ha Hb; simpl in *; try discriminate.
  - injection Ha as <-. injection Hb as <-. reflexivity.
  - apply IH; assumption.
Qed.

(** The entries of the bias [bias_add] returns. *)
Lemma bias_add_entries (b b' : @bias_t A) (v : list A) :
  bias_add b v = Ok b' ->
  (exists v', b' = BVec v' /\ length v' = length v) /\
  forall i y, nth_error v i = Some y ->
              match b, b' with
              | BScalar a, BVec v' => nth i v' zero = add a y
              | BVec w, BVec v' => nth i v' zero = add (nth i w zero) y
              | _, BScalar _ => False
              end.
Proof.
  unfold bias_add. intro H. inv_bind H. injection H as <-.
  destruct b as [a|w]; simpl in E.
  - injection E as <-. split; [eexists; split; [reflexivity | apply length_map]|].
    intros i y Hy. apply nth_error_nth.
    rewrite nth_error_map, Hy. reflexivity.
  - apply ewise_Ok in E. destruct E as [L ->].
    split.
    + eexists. split; [reflexivity|]. unfold zip_with.
      rewrite length_map, length_combine. lia.
    + intros i y Hy.
      destruct (nth_error w i) as [x|] eqn:Hx.
      * rewrite (nth_error_nth _ _ _ Hx). apply nth_error_nth.
        apply nth_error_zip_with; assumption.
      * apply nth_error_None in Hx.
        assert (i < length v) by (apply nth_error_Some; congruence). lia.
Qed.

(** C4: [dp_relu] splits every coefficient into its positive and its
    negative part; the new lower coefficient is positive part x lower
    slope + negative part x upper slope, the new upper coefficient is
    positive part x upper slope + negative part x lower slope.  The new
    biases are vectors with one entry per row: the entry of a row is the
    running bias of this row plus the sum over the neurons of the offsets
    of the row, combined with the same pairing.  Every row has one
    coefficient per neuron. *)
Theorem relu_sign_split :
  forall (self : @DeepPoly A) (x_lb x_ub : @tensor A) (it : nat)
         (dp_lambda : option (list A)) (d : @DeepPoly A) (p : option (list A)),
    dp_relu self (Some (x_lb, x_ub)) it dp_lambda = Ok (d, p) ->
    exists ls,
      learned_slopes (zip_with default_lambda_l (tdata x_lb) (tdata x_ub)) it dp_lambda
      = Ok (ls, p) /\
      let rl := relu_relaxation (tdata x_lb) (tdata x_ub) ls in
      crows (x_l_coef d)
      = map (fun row => sign_split lambda_l lambda_u row rl) (crows (x_l_coef self)) /\
      crows (x_u_coef d)
      = map (fun row => sign_split lambda_u lambda_l row rl) (crows (x_u_coef self)) /\
      (exists bl bu,
         x_l_bias d = BVec bl /\ x_u_bias d = BVec bu /\
         length bl = length (crows (x_l_coef self)) /\
         length bu = length (crows (x_u_coef self))) /\
      (forall i row, nth_error (crows (x_l_coef self)) i = Some row ->
         bias_at (x_l_bias d) i
         = add (bias_at (x_l_bias self) i)
               (sum_from zero (sign_split mu_l mu_u row rl))) /\
      (forall i row, nth_error (crows (x_u_coef self)) i = Some row ->
         bias_at (x_u_bias d) i
         = add (bias_at (x_u_bias self) i)
               (sum_from zero (sign_split mu_u mu_l row rl))) /\
      Forall (fun row => length row = length rl) (crows (x_l_coef self)) /\
      Forall (fun row => length row = length rl) (crows (x_u_coef self)).
Proof.
  intros self x_lb x_ub it dp_lambda d p H.
  unfold dp_relu in H.
  destruct (negb _) eqn:? in H; [discriminate|].
  inv_bind H. destruct v as [ls p'].
  destruct (negb _) eqn:? in H; [discriminate|].
  inv_bind H. inv_bind H. inv_bind H. inv_bind H.
  set (rl := relu_relaxation (tdata x_lb) (tdata x_ub) ls) in *.
  destruct (mapM_Ok _ (fun row => sign_split lambda_l lambda_u row rl)
              (fun row => length row = length rl) _
              (fun x y => @split_combine_Ok lambda_l lambda_u x rl y) E0) as [F1 ->].
  destruct (mapM_Ok _ (fun row => sign_split mu_l mu_u row rl)
              (fun row => length row = length rl) _
              (fun x y => @split_combine_Ok mu_l mu_u x rl y) E1) as [_ ->].
  destruct (mapM_Ok _ (fun row => sign_split lambda_u lambda_l row rl)
              (fun row => length row = length rl) _
              (fun x y => @split_combine_Ok lambda_u lambda_l x rl y) E2) as [F2 ->].
  destruct (mapM_Ok _ (fun row => sign_split mu_u mu_l row rl)
              (fun row => length row = length rl) _
              (fun x y => @split_combine_Ok mu_u mu_l x rl y) E3) as [_ ->].
  rewrite !map_map in H.
  assert (K : exists lb ub,
             bias_add (x_l_bias self)
               (map (fun row => vsum (sign_split mu_l mu_u row rl)) (crows (x_l_coef self)))
             = Ok lb /\
             bias_add (x_u_bias self)
               (map (fun row => vsum (sign_split mu_u mu_l row rl)) (crows (x_u_coef self)))
             = Ok ub /\
             Ok (mkDP (mkC (tshape x_lb) (map (fun row => sign_split lambda_l lambda_u row rl)
                                              (crows (x_l_coef self))))
                      (mkC (tshape x_lb) (map (fun row => sign_split lambda_u lambda_l row rl)
                                              (crows (x_u_coef self))))
                      lb ub, p') = Ok (d, p)).
  { destruct (length (tshape x_lb)) as [|[|[|[|n]]]]; try discriminate H;
      inv_bind H; inv_bind H; eauto. }
  destruct K as [lb [ub [Kl [Ku K]]]]. injection K as <- <-.
  apply bias_add_entries in Kl, Ku.
  destruct Kl as [[bl [-> Ll]] Pl], Ku as [[bu [-> Lu]] Pu].
  rewrite length_map in Ll, Lu.
  exists ls. cbn [x_l_coef x_u_coef x_l_bias x_u_bias crows].
  split; [assumption|]. split; [reflexivity|]. split; [reflexivity|].
  split; [exists bl, bu; auto|].
  split; [|split; [|split; assumption]].
  - intros i row Hr.
    specialize (Pl i (vsum (sign_split mu_l mu_u row rl))).
    rewrite nth_error_map, Hr in Pl. specialize (Pl eq_refl).
    rewrite vsum_sum_from in Pl.
    destruct (x_l_bias self); exact Pl.
  - intros i row Hr.
    specialize (Pu i (vsum (sign_split mu_u mu_l row rl))).
    rewrite nth_error_map, Hr in Pu. specialize (Pu eq_refl).
    rewrite vsum_sum_from in Pu.
    destruct (x_u_bias self); exact Pu.
Qed.

End SignSplit.

Lemma relu_sign_split_witness :
  exists d p,
    dp_relu rel2 (Some unstable_bounds) 0 None = Ok (d, p) /\
    Forall2 (Forall2 Qeq) (crows (x_l_coef d))
            [[1; - (4 / (4 + eps15))]; [3; 4]]%Q /\
    Forall2 (Forall2 Qeq) (crows (x_u_coef d))
            [[3 / (4 + eps15); - (2)]; [9 / (4 + eps15); 8 / (4 + eps15)]]%Q /\
    (bias_at (x_l_bias d) 0 == 5 - 8 / (4 + eps15))%Q /\
    (bias_at (x_l_bias d) 1 == 6)%Q /\
    (bias_at (x_u_bias d) 0 == 5 + 3 / (4 + eps15))%Q /\
    (bias_at (x_u_bias d) 1 == 6 + 25 / (4 + eps15))%Q.
Proof.
  destruct (dp_relu rel2 (Some unstable_bounds) 0 None) as [[d p]|e] eqn:E;
    [|vm_compute in E; discriminate E].
  exists d, p. split; [reflexivity|].
  destruct (@relu_sign_split Q _ rel2 (fst unstable_bounds) (snd unstable_bounds)
              0 None d p E) as [ls [L [Cl [Cu [_ [Bl [Bu _]]]]]]].
  injection L as <- _.
  split; [rewrite Cl; repeat constructor; vm_compute; reflexivity|].
  split; [rewrite Cu; repeat constructor; vm_compute; reflexivity|].
  split; [rewrite (Bl 0 [1; -2]%Q eq_refl); vm_compute; reflexivity|].
  split; [rewrite (Bl 1 [3; 4]%Q eq_refl); vm_compute; reflexivity|].
  split; [rewrite (Bu 0 [1; -2]%Q eq_refl); vm_compute; reflexivity|].
  rewrite (Bu 1 [3; 4]%Q eq_refl). vm_compute. reflexivity.
Defined.

(** ** Intersection of the partial bounds *)

Section Intersection.

Context {A : Type} {AA : Arith A} {OL : OrderLaws A} {TT : @Torch A}.

Lemma le_all_refl (a : list A) : le_all a a.
Proof. induction a; constructor; [apply leb_refl | assumption]. Qed.

Lemma zip_maximum_ge (a b : list A) :
  length a = length b -> le_all b (zip_with maximum a b).
Proof.
  revert b. induction a as [|x a IH]; intros [|y b] L; try discriminate L.
  - constructor.
  - constructor; [apply leb_maximum_r | apply IH; injection L; auto].
Qed.

Lemma zip_minimum_le (a b : list A) :
  length a = length b -> le_all (zip_with minimum a b) b.
Proof.
  revert b. induction a as [|x a IH]; intros [|y b] L; try discriminate L.
  - constructor.
  - constructor; [apply leb_minimum_r | apply IH; injection L; auto].
Qed.

(** Without intermediate reuse the layers of positive index only transform
    the relation. *)
Lemma backward_loop_inner (ls : list (@layer A)) :
  forall (j : nat) (d : DeepPoly) (it : nat) (ul : bool) (ai : option HybridZonotope)
         ls' d' acc,
    backward_loop (S j) ls d it ul true ai = Ok (ls', d', acc) ->
    backward_loop (S j) ls d it ul false ai = Ok (ls', d', None).
Proof.
  induction ls as [|l tl IH]; intros j d it ul ai ls' d' acc H; simpl in *.
  - injection H as <- <- _. reflexivity.
  - inv_bind H. destruct v as [[tl' d1] acc1].
    inv_bind H. destruct v as [l' d2].
    inv_bind H. injection H as <- <- _.
    rewrite (IH _ _ _ _ _ _ _ _ E). simpl. rewrite E0. reflexivity.
Qed.

Lemma backward_loop_top (ls : list (@layer A)) :
  forall (d : DeepPoly) (it : nat) (ul : bool) (ai : option HybridZonotope)
         ls' d' l u,
    backward_loop 0 ls d it ul true ai = Ok (ls', d', Some (l, u)) ->
    exists l0 u0,
      backward_loop 0 ls d it ul false ai = Ok (ls', d', Some (l0, u0)) /\
      le_all l0 l /\ le_all u u0.
Proof.
  destruct ls as [|x tl]; intros d it ul ai ls' d' l u H; simpl in *.
  - discriminate H.
  - inv_bind H. destruct v as [[tl' d1] acc1].
    inv_bind H. destruct v as [x' d2].
    inv_bind H. injection H as <- <- ->.
    rewrite (backward_loop_inner _ _ _ _ _ _ E). simpl. rewrite E0. simpl.
    unfold concretize_step in *. simpl in *.
    apply bind_Ok in E1. destruct E1 as [[l0 u0] [Ec Ea]].
    rewrite Ec. simpl.
    exists l0, u0. split; [reflexivity|].
    destruct acc1 as [[al au]|].
    + apply bind_Ok in Ea. destruct Ea as [lo [El Ea]].
      apply bind_Ok in Ea. destruct Ea as [up [Eu Ea]].
      injection Ea as <- <-. simpl in *.
      apply ewise_Ok in El. destruct El as [L1 ->].
      apply ewise_Ok in Eu. destruct Eu as [L2 ->].
      split; [apply zip_maximum_ge | apply zip_minimum_le]; assumption.
    + injection Ea as <- <-. split; apply le_all_refl.
Qed.

(** The two runs transform the relation alike and both concretize at
    layer 0; the run with intermediate reuse only adds pointwise maxima to
    the lower and pointwise minima to the upper bound. *)
Lemma reuse_le_all :
  forall (net : list (@layer A)) (layer_idx : Z) (d : DeepPoly) (it : nat)
         (use_lambda : bool) (abs_inputs : option HybridZonotope)
         (net' : list (@layer A)) (l u : list A),
    backward_deeppoly net layer_idx d it use_lambda true abs_inputs
    = Ok (net', Some (l, u)) ->
    exists l0 u0,
      backward_deeppoly net layer_idx d it use_lambda false abs_inputs
      = Ok (net', Some (l0, u0)) /\
      le_all l0 l /\ le_all u u0.
Proof.
  intros net layer_idx d it ul ai net' l u H.
  unfold backward_deeppoly in *.
  destruct (layer_idx <? 0)%Z; [discriminate H|].
  destruct (length net <=? Z.to_nat layer_idx); [discriminate H|].
  inv_bind H. destruct v as [[pre d'] acc]. injection H as <- ->.
  destruct (backward_loop_top _ _ _ _ _ E) as [l0 [u0 [R [Hl Hu]]]].
  exists l0, u0. rewrite R. simpl. auto.
Qed.

End Intersection.

(** The order laws in binary32, with NaN comparable to everything. *)
Lemma SFcompare_refl (x : float32) :
  f32_is_nan x = false -> SFcompare x x = Some Eq.
Proof.
  destruct x as [s|s| |s m e]; simpl; intros N; try discriminate N;
    try (destruct s; reflexivity).
  destruct s; rewrite Z.compare_refl, Pos.compare_cont_refl; reflexivity.
Qed.

Lemma SFcompare_some (x y : float32) :
  f32_is_nan x = false -> f32_is_nan y = false ->
  exists c, SFcompare x y = Some c.
Proof.
  destruct x as [sx|sx| |sx mx ex], y as [sy|sy| |sy my ey]; simpl; intros Nx Ny;
    try discriminate Nx; try discriminate Ny; eexists; reflexivity.
Qed.

Lemma SFleb_refl (x : float32) : f32_is_nan x = false -> SFleb x x = true.
Proof. intros N. unfold SFleb. rewrite (SFcompare_refl _ N). reflexivity. Qed.

Lemma SFleb_of_not_ltb (x y : float32) :
  f32_is_nan x = false -> f32_is_nan y = false ->
  SFltb x y = false -> SFleb y x = true.
Proof.
  intros Nx Ny. unfold SFltb, SFleb. rewrite (SFcompare_antisym x y).
  destruct (SFcompare_some _ _ Nx Ny) as [c ->].
  destruct c; simpl; congruence.
Qed.

Lemma leb32_refl (a : float32) : leb32 a a = true.
Proof.
  unfold leb32. destruct (f32_is_nan a) eqn:N; [reflexivity|].
  simpl. apply SFleb_refl. exact N.
Qed.

Lemma leb32_maximum_r (a b : float32) : leb32 b (f32_max a b) = true.
Proof.
  unfold leb32, f32_max.
  destruct (f32_is_nan a) eqn:Na; simpl.
  { rewrite orb_true_r. reflexivity. }
  destruct (f32_is_nan b) eqn:Nb; simpl; [reflexivity|].
  destruct (SFltb a b) eqn:L.
  - rewrite Nb. simpl. apply SFleb_refl. exact Nb.
  - rewrite Na. simpl. apply SFleb_of_not_ltb; assumption.
Qed.

Lemma leb32_minimum_r (a b : float32) : leb32 (f32_min a b) b = true.
Proof.
  unfold leb32, f32_min.
  destruct (f32_is_nan a) eqn:Na; simpl; [reflexivity|].
  destruct (f32_is_nan b) eqn:Nb; simpl; [reflexivity|].
  destruct (SFltb b a) eqn:L.
  - rewrite Nb. simpl. apply SFleb_refl. exact Nb.
  - rewrite Na. simpl. apply SFleb_of_not_ltb; assumption.
Qed.

Lemma Forall2_leb32 (a b : list float32) :
  Forall2 (fun x y => leb32 x y = true) a b ->
  Forall2 (fun x y => f32_is_nan x = false -> f32_is_nan y = false ->
                      SFleb x y = true) a b.
Proof.
  induction 1 as [|x y a b H _ IH]; constructor; [|exact IH].
  intros Nx Ny. unfold leb32 in H. rewrite Nx, Ny in H. exact H.
Qed.

Lemma Forall2_Qle_bool (a b : list Q) :
  Forall2 (fun x y => Qle_bool x y = true) a b -> Forall2 Qle a b.
Proof.
  induction 1 as [|x y a b H _ IH]; constructor; [|exact IH].
  apply Qle_bool_iff. exact H.
Qed.

(** C5, amended: whenever [backward_deeppoly] returns bounds with
    intermediate reuse it returns bounds without it as well, with the same
    network, and the bounds with reuse are contained in those without: in
    exact arithmetic at every entry, in binary32 at every entry where
    neither of the two compared bounds is NaN.  (In binary32 an overflow in
    an intermediate concretization can turn the bounds with reuse into NaN
    while those without are ordinary numbers, as the example after the
    theorem shows.) *)
Theorem intersection_monotone :
  (forall (TT : @Torch Q) (net : list (@layer Q)) (layer_idx : Z) (d : DeepPoly)
          (it : nat) (use_lambda : bool) (abs_inputs : option HybridZonotope)
          (net' : list (@layer Q)) (l u : list Q),
      backward_deeppoly net layer_idx d it use_lambda true abs_inputs
      = Ok (net', Some (l, u)) ->
      exists l0 u0,
        backward_deeppoly net layer_idx d it use_lambda false abs_inputs
        = Ok (net', Some (l0, u0)) /\
        Forall2 Qle l0 l /\ Forall2 Qle u u0) /\
  (forall (TT : @Torch float32) (net : list (@layer float32)) (layer_idx : Z)
          (d : DeepPoly) (it : nat) (use_lambda : bool)
          (abs_inputs : option HybridZonotope)
          (net' : list (@layer float32)) (l u : list float32),
      backward_deeppoly net layer_idx d it use_lambda true abs_inputs
      = Ok (net', Some (l, u)) ->
      exists l0 u0,
        backward_deeppoly net layer_idx d it use_lambda false abs_inputs
        = Ok (net', Some (l0, u0)) /\
        Forall2 (fun x y => f32_is_nan x = false -> f32_is_nan y = false ->
                            SFleb x y = true) l0 l /\
        Forall2 (fun x y => f32_is_nan x = false -> f32_is_nan y = false ->
                            SFleb x y = true) u u0).
Proof.
  split.
  - intros TT net layer_idx d it ul ai net' l u H.
    destruct (@reuse_le_all Q Arith_Q OrderLaws_Q TT _ _ _ _ _ _ _ _ _ H)
      as [l0 [u0 [R [Hl Hu]]]].
    exists l0, u0. split; [exact R|].
    split; apply Forall2_Qle_bool; assumption.
  - intros TT net layer_idx d it ul ai net' l u H.
    destruct (@reuse_le_all float32 Arith_f32
                (@Build_OrderLaws float32 Arith_f32 leb32 leb32_refl leb32_maximum_r
                                  leb32_minimum_r)
                TT _ _ _ _ _ _ _ _ _ H)
      as [l0 [u0 [R [Hl Hu]]]].
    exists l0, u0. split; [exact R|].
    split; apply Forall2_leb32; assumption.
Qed.

Lemma intersection_monotone_witness :
  (exists net' l u,
     backward_deeppoly (TT := plain_torch Q) net_cached 2 (identity_seed [1]) 0 false true
                       (Some (box1 (-1)%Q 1%Q))
     = Ok (net', Some (l, u)) /\
     exists l0 u0,
       backward_deeppoly (TT := plain_torch Q) net_cached 2 (identity_seed [1]) 0 false
                         false (Some (box1 (-1)%Q 1%Q))
       = Ok (net', Some (l0, u0)) /\
       Forall2 Qle l0 l /\ Forall2 Qle u u0) /\
  (exists net' l u,
     backward_deeppoly (TT := plain_torch float32) net_cached32 2 (identity_seed [1]) 0
                       false true (Some (box1 (f32_of_Z (-1)) (f32_of_Z 1)))
     = Ok (net', Some (l, u)) /\
     exists l0 u0,
       backward_deeppoly (TT := plain_torch float32) net_cached32 2 (identity_seed [1]) 0
                         false false (Some (box1 (f32_of_Z (-1)) (f32_of_Z 1)))
       = Ok (net', Some (l0, u0)) /\
       Forall2 (fun x y => f32_is_nan x = false -> f32_is_nan y = false ->
                           SFleb x y = true) l0 l /\
       Forall2 (fun x y => f32_is_nan x = false -> f32_is_nan y = false ->
                           SFleb x y = true) u u0).
Proof.
  split.
  - do 3 eexists. split.
    + cbv. reflexivity.
    + apply (proj1 intersection_monotone (plain_torch Q)). cbv. reflexivity.
  - do 3 eexists. split.
    + vm_compute. reflexivity.
    + apply (proj2 intersection_monotone (plain_torch float32)).
      vm_compute. reflexivity.
Defined.

(** C5, the counterexample to the unqualified statement: in binary32, on
    the network x -> (x, x) -> relu with the exact bounds [2^40, 2^40] of
    its input 2^40 cached at the ReLU, the expression 2^100 y1 - 2^100 y2
    is bounded by [0, 0] without intermediate reuse, while with it the
    concretization against the cache computes 2^140 - 2^140 = inf - inf, and
    [maximum] and [minimum] keep the NaN: the bounds with reuse are
    (NaN, NaN), which contain no number and are not within [0, 0]. *)
Lemma intersection_nan_counterexample :
  f32_finite big32 = true /\ f32_finite mid32 = true /\
  backward_deeppoly (TT := plain_torch float32) net_overflow 1 rel_overflow 0 false true
                    (Some (box1 mid32 mid32))
  = Ok (net_overflow, Some ([S754_nan], [S754_nan])) /\
  backward_deeppoly (TT := plain_torch float32) net_overflow 1 rel_overflow 0 false false
                    (Some (box1 mid32 mid32))
  = Ok (net_overflow, Some ([S754_zero false], [S754_zero false])) /\
  ~ Forall2 (fun x y => SFleb x y = true) [S754_zero false] [S754_nan] /\
  ~ Forall2 (fun x y => SFleb x y = true) [S754_nan] [S754_zero false].
Proof.
  repeat split; try (vm_compute; reflexivity);
    intros H; inversion H as [|? ? ? ? C]; subst; vm_compute in C; discriminate C.
Qed.

(** ** Residual blocks *)

(** C6: the dispatch never reaches [dp_res_block].  Line 306 names
    [lambda_layer], which is bound nowhere, so [backprop_dp] raises
    [NameError] on every ResBlock, and so do the driver and the entry point
    on a network that contains one.  Called directly on the scenario of the
    claim, [dp_res_block] doubles the coefficients and keeps the biases 5
    and 6 as they are. *)
Theorem res_block_dispatch_raises :
  (forall (A : Type) (AA : Arith A) (TT : @Torch A) (b : @cache A)
          (residual : @layer A) (downsample relu_final : option (@layer A))
          (d : @DeepPoly A) (it : nat) (use_lambda : bool),
      backprop_dp (ResBlock b residual downsample relu_final) d it use_lambda
      = Raise NameError) /\
  backward_deeppoly (TT := plain_torch Q) [identity_block] 0 rel2 0 false true None
  = Raise NameError /\
  forward_deeppoly (TT := plain_torch Q) (NN := plain_network Q [2])
                   [identity_block]
                   (mkHZ "box" (mkT [2] [0%Q; 0%Q], mkT [2] [1%Q; 1%Q])
                         (fun _ _ => Raise RuntimeError))
                   None 0 false false true
  = Raise NameError /\
  dp_res_block (TT := plain_torch Q) rel2 identity_linear None None 0 None
  = Ok (identity_linear, None, None,
        mkDP (mkC [2] [[2%Q; (-4)%Q]; [6%Q; 8%Q]]) (mkC [2] [[2%Q; (-4)%Q]; [6%Q; 8%Q]])
             (BVec [5%Q; 6%Q]) (BVec [5%Q; 6%Q])).
Proof.
  split; [reflexivity|]. repeat split; vm_compute; reflexivity.
Qed.

(** ** The recursive bound solver *)

Section Solver.

Context {A : Type} {AA : Arith A} {TT : @Torch A}.

(** What a successful call on a ReLU layer did. *)
Lemma backprop_relu_Ok (b : @cache A) (dim : list nat) (p : option (@tensor A))
    (d d' : DeepPoly) (it : nat) (ul : bool) (l' : @layer A) :
  backprop_dp (ReLU b dim p) d it ul = Ok (l', d') ->
  if ul then
    exists lb ub q data,
      b = Some (lb, ub) /\ init_lambda lb p = Ok q /\
      dp_relu d b it (Some (tdata q)) = Ok (d', data) /\
      l' = ReLU b dim (Some (lambda_after lb q it data))
  else
    exists data, dp_relu d b it None = Ok (d', data) /\ l' = ReLU b dim p.
Proof.
  intro H. cbn [backprop_dp] in H. destruct ul.
  - destruct b as [[lb ub]|]; [|discriminate H].
    apply bind_Ok in H. destruct H as [q [Eq H]].
    apply bind_Ok in H. destruct H as [[d0 data] [Er H]].
    injection H as <- <-. exists lb, ub, q, data. auto.
  - apply bind_Ok in H. destruct H as [[d0 data] [Er H]].
    injection H as <- <-. exists data. auto.
Qed.

Lemma backprop_dp_frame (l l' : @layer A) (d d' : DeepPoly) (it : nat) (ul : bool) :
  backprop_dp l d it ul = Ok (l', d') ->
  layer_bounds l' = layer_bounds l /\ is_relu l' = is_relu l.
Proof.
  intro H. destruct l; try (apply backprop_relu_Ok in H); simpl in H; try discriminate H;
    try (inv_bind H; injection H as <- <-; auto; fail).
  - destruct ul.
    + destruct H as [lb [ub [q [data [_ [_ [_ ->]]]]]]]. auto.
    + destruct H as [data [_ ->]]. auto.
  - destruct bounds as [[lb ub]|]; [|discriminate H].
    inv_bind H. injection H as <- <-. auto.
  - inv_bind H. destruct v as [ls d0]. injection H as <- <-. auto.
Qed.

Lemma backward_loop_frame (ls : list (@layer A)) :
  forall j d it ul ui ai ls' d' acc,
    backward_loop j ls d it ul ui ai = Ok (ls', d', acc) ->
    caches ls' = caches ls /\ kinds ls' = kinds ls.
Proof.
  induction ls as [|l tl IH]; intros j d it ul ui ai ls' d' acc H; simpl in H.
  - injection H as <- _ _. auto.
  - inv_bind H. destruct v as [[tl' d1] acc1].
    inv_bind H. destruct v as [l' d2].
    inv_bind H. injection H as <- _ _.
    destruct (IH _ _ _ _ _ _ _ _ _ E) as [C K].
    destruct (backprop_dp_frame _ _ _ _ E0) as [B R].
    unfold caches, kinds in *. simpl. rewrite C, K, B, R. auto.
Qed.

Lemma backward_deeppoly_frame (net net' : list (@layer A)) (idx : Z) d it ul ui ai r :
  backward_deeppoly net idx d it ul ui ai = Ok (net', r) ->
  caches net' = caches net /\ kinds net' = kinds net.
Proof.
  unfold backward_deeppoly. intro H.
  destruct (idx <? 0)%Z; [injection H as <- _; auto|].
  destruct (length net <=? Z.to_nat idx); [discriminate H|].
  inv_bind H. destruct v as [[pre d'] acc]. injection H as <- _.
  destruct (backward_loop_frame _ _ _ _ _ _ _ E) as [C K].
  unfold caches, kinds in *. rewrite !map_app, C, K, <- !map_app, firstn_skipn. auto.
Qed.

Lemma map_list_set {T U} (f : T -> U) (l : list T) (m : nat) (x : T) :
  map f (list_set l m x) = list_set (map f l) m (f x).
Proof.
  revert m. induction l as [|y l IH]; intros [|m]; simpl; try reflexivity.
  rewrite IH. reflexivity.
Qed.

Lemma list_set_same {T} (l : list T) (m : nat) (x : T) :
  nth_error l m = Some x -> list_set l m x = l.
Proof.
  revert m. induction l as [|y l IH]; intros [|m]; simpl; intro H;
    try discriminate H.
  - injection H as ->. reflexivity.
  - rewrite IH; auto.
Qed.

Lemma nth_error_list_set_neq {T} (l : list T) (m j : nat) (x : T) :
  j <> m -> nth_error (list_set l m x) j = nth_error l j.
Proof.
  revert m j. induction l as [|y l IH]; intros [|m] [|j] H; simpl; try reflexivity.
  - congruence.
  - apply IH. congruence.
Qed.

Lemma kinds_update_bounds (net : list (@layer A)) (m : nat) (l : @layer A) b :
  nth_error net m = Some l ->
  kinds (list_set net m (update_bounds l b)) = kinds net.
Proof.
  intro H. unfold kinds. rewrite map_list_set.
  apply list_set_same. rewrite nth_error_map, H. simpl. f_equal.
  destruct l; reflexivity.
Qed.

Lemma caches_update_bounds (net : list (@layer A)) (m j : nat) (l : @layer A) :
  j <> m ->
  nth_error (caches (list_set net m l)) j = nth_error (caches net) j.
Proof.
  intro H. unfold caches. rewrite map_list_set. apply nth_error_list_set_neq. exact H.
Qed.

Lemma in_memo_false (i : nat) (memo : list nat) :
  in_memo i memo = false -> ~ In i memo.
Proof.
  unfold in_memo. intros H Hin.
  assert (T : existsb (Nat.eqb i) memo = true).
  { apply existsb_exists. exists i. split; [exact Hin | apply Nat.eqb_refl]. }
  congruence.
Qed.

Lemma evolves_refl (P : nat -> Prop) (s : @solver_state A) : evolves P s s.
Proof.
  split; [reflexivity|]. exists [], []. rewrite app_nil_r.
  repeat split; auto; [constructor | intros j []].
Qed.

(** The loop logs only indices below [m] that it also puts into the
    memo, provided the recursive calls behave. *)
Lemma solver_loop_evolves (m : nat)
    (rec : @solver_state A -> nat -> res (@solver_state A))
    (rb : bool) :
  (forall s i s1, i < m -> rec s i = Ok s1 ->
                  evolves (fun j => j = i \/ memoized i s s1 j) s s1) ->
  forall idx s first s' first',
    Forall (fun i => i < m) idx ->
    solver_loop rec rb idx s first = Ok (s', first') ->
    evolves (memoized m s s') s s'.
Proof.
  intro Hrec. induction idx as [|i rest IH]; intros s first s' first' Hidx H; simpl in H.
  - injection H as <- _. apply evolves_refl.
  - inversion Hidx as [|? ? Hi Hrest]; subst.
    destruct (nth_error (st_net s) i) as [layer|]; [|eauto].
    destruct (is_relu layer && negb (in_memo i (st_memo s))) eqn:T; [|eauto].
    apply andb_true_iff in T. destruct T as [_ T].
    apply negb_true_iff, in_memo_false in T.
    inv_bind H. rename v into s1.
    assert (Ev1 : evolves (fun j => j = i \/ memoized i s s1 j) s s1).
    { destruct (negb (has_bounds layer) || rb);
        [destruct (negb (first && has_bounds layer))|];
        try (injection E as <-; apply evolves_refl).
      apply Hrec; assumption. }
    apply IH in H; [|assumption].
    destruct Ev1 as [K1 [M1 [E1 [Hm1 [Ht1 [N1 [P1 C1]]]]]]].
    destruct H as [K2 [M2 [E2 [Hm2 [Ht2 [N2 [P2 C2]]]]]]].
    simpl in K2, Hm2, Ht2, C2.
    assert (I1 : forall j, In j E1 -> In j (st_memo s1 ++ [i])).
    { intros j Hj. apply in_or_app.
      destruct (P1 j Hj) as [->|[_ [_ Hin]]]; [right; left; reflexivity | left; exact Hin]. }
    split; [congruence|].
    exists (M1 ++ [i] ++ M2), (E2 ++ E1).
    split; [rewrite Hm2, Hm1, <- !app_assoc; reflexivity|].
    split; [rewrite Ht2, Ht1, <- app_assoc; reflexivity|].
    split.
    { apply NoDup_app; try assumption.
      intros a Ha2 Ha1. destruct (P2 a Ha2) as [_ [Hn _]]. apply Hn. simpl. auto. }
    split.
    { intros j Hj. apply in_app_or in Hj. destruct Hj as [Hj|Hj].
      - destruct (P2 j Hj) as [Hlt [Hn Hin]]. simpl in Hn.
        split; [exact Hlt|]. split; [|exact Hin].
        intro Hs. apply Hn. rewrite Hm1, <- app_assoc. apply in_or_app. left. exact Hs.
      - assert (Hin : In j (st_memo s')).
        { rewrite Hm2. apply in_or_app. left. auto. }
        destruct (P1 j Hj) as [->|[Hlt [Hn _]]].
        + split; [exact Hi|]. split; assumption.
        + split; [lia|]. split; assumption. }
    intro j. destruct (C2 j) as [e|[h|z]]; auto.
    + destruct (C1 j) as [e1|[h1|z1]]; auto.
      * left. congruence.
      * right. left. apply in_or_app. auto.
    + right. left. apply in_or_app. auto.
Qed.

(** Every call logs each index at most once: the requested index, and
    indices below it that were not in the memo and are in it afterwards. *)
Lemma compute_evolves (fuel : nat) :
  forall s m ai it ul rb ui s',
    compute_dp_relu_bounds_rec fuel s m ai it ul rb ui = Ok s' ->
    evolves (fun j => j = m \/ memoized m s s' j) s s'.
Proof.
  induction fuel as [|fuel IH]; intros s m ai it ul rb ui s' H; simpl in H;
    [discriminate H|].
  inv_bind H. destruct v as [s2 nb].
  destruct (m =? 0) eqn:Em.
  - apply Nat.eqb_eq in Em. subst m. injection E as <- <-.
    unfold write_bounds in H.
    destruct (nth_error (st_net s) 0) as [l|] eqn:El; [|discriminate H].
    injection H as <-. split; [apply kinds_update_bounds; exact El|].
    exists [], []. simpl. rewrite app_nil_r.
    repeat split; auto; [constructor | intros j [] |].
    intro j. destruct j as [|j]; [auto|].
    left. apply caches_update_bounds. discriminate.
  - apply Nat.eqb_neq in Em.
    inv_bind E. destruct v as [s1 f1].
    apply (solver_loop_evolves (m := m)) in E0.
    2:{ intros s0 i s3 _ Hr. apply IH in Hr. exact Hr. }
    2:{ apply Forall_forall. intros i Hi. apply in_seq in Hi. lia. }
    destruct E0 as [K1 [M1 [E1 [Hm1 [Ht1 [N1 [P1 C1]]]]]]].
    unfold bound_requested in E.
    destruct (nth_error (st_net s1) m) as [l|] eqn:El; [|discriminate E].
    destruct (negb (is_relu l)).
    + injection E as <- <-. simpl in H. injection H as <-.
      split; [exact K1|]. exists M1, E1. repeat split; auto.
    + inv_bind E. destruct v as [net2 r].
      destruct r as [[lo up]|]; [|discriminate E].
      injection E as <- <-.
      destruct (backward_deeppoly_frame _ _ _ _ _ _ _ E0) as [C2 K2].
      unfold write_bounds in H. simpl in H.
      destruct (nth_error net2 m) as [l2|] eqn:El2; [|discriminate H].
      injection H as <-. unfold evolves. cbn [st_net st_memo st_trace].
      split; [rewrite (kinds_update_bounds _ _ _ El2); congruence|].
      exists M1, (m :: E1). cbn [app].
      split; [exact Hm1|]. split; [rewrite Ht1; reflexivity|].
      split.
      { constructor; [|exact N1]. intro Hin. destruct (P1 m Hin) as [Hlt _]. lia. }
      split.
      { intros j [<-|Hj]; [auto|]. right.
        destruct (P1 j Hj) as [Hlt [Hn Hin]]. repeat split; assumption. }
      intro j. destruct (Nat.eq_dec j m) as [->|Hne]; [right; left; left; reflexivity|].
      rewrite (caches_update_bounds _ _ Hne), C2.
      destruct (C1 j) as [e|[h|z]]; auto.
      right. left. right. exact h.
Qed.

Lemma solver_loop_ext (rec1 rec2 : @solver_state A -> nat -> res (@solver_state A))
    (rb : bool) (idx : list nat) :
  (forall s i, In i idx -> rec1 s i = rec2 s i) ->
  forall s first, solver_loop rec1 rb idx s first = solver_loop rec2 rb idx s first.
Proof.
  induction idx as [|i rest IH]; intros Hr s first; simpl; [reflexivity|].
  assert (Hrest : forall s i, In i rest -> rec1 s i = rec2 s i)
    by (intros; apply Hr; right; assumption).
  destruct (nth_error (st_net s) i); [|auto].
  destruct (is_relu l && negb (in_memo i (st_memo s))); [|auto].
  rewrite (Hr s i (or_introl eq_refl)).
  destruct (if negb (has_bounds l) || rb
            then if negb (first && has_bounds l) then rec2 s i else Ok s
            else Ok s); simpl; auto.
Qed.

(** The result does not depend on the fuel once it exceeds the index. *)
Lemma compute_fuel_irrelevant (f1 : nat) :
  forall f2 s m ai it ul rb ui,
    m < f1 -> m < f2 ->
    compute_dp_relu_bounds_rec f1 s m ai it ul rb ui
    = compute_dp_relu_bounds_rec f2 s m ai it ul rb ui.
Proof.
  induction f1 as [|f1 IH]; intros [|f2] s m ai it ul rb ui H1 H2; try lia.
  simpl. destruct (m =? 0); [reflexivity|].
  rewrite (solver_loop_ext _
             (fun s i => compute_dp_relu_bounds_rec f2 s i ai it ul true ui)).
  - reflexivity.
  - intros s0 i Hi. apply in_seq in Hi. apply IH; lia.
Qed.

Lemma in_memo_app (i : nat) (memo extra : list nat) :
  in_memo i memo = true -> in_memo i (memo ++ extra) = true.
Proof.
  unfold in_memo. rewrite existsb_app. intros ->. reflexivity.
Qed.

(** When every index of the loop is settled, the loop only extends the
    memo. *)
Lemma solver_loop_idle (rec : @solver_state A -> nat -> res (@solver_state A))
    (rb : bool) (idx : list nat) :
  forall s first,
    (forall i, In i idx -> settled rb s i) ->
    exists M first',
      solver_loop rec rb idx s first
      = Ok (mkSt (st_net s) (st_memo s ++ M) (st_trace s), first').
Proof.
  induction idx as [|i rest IH]; intros s first Hs; simpl.
  - exists [], first. rewrite app_nil_r. destruct s; reflexivity.
  - assert (Hrest : forall k, In k rest -> settled rb s k)
      by (intros; apply Hs; right; assumption).
    destruct (nth_error (st_net s) i) as [l|] eqn:El; [|apply IH; exact Hrest].
    destruct (is_relu l) eqn:Er; simpl; [|apply IH; exact Hrest].
    destruct (in_memo i (st_memo s)) eqn:Em; simpl; [apply IH; exact Hrest|].
    destruct (Hs i (or_introl eq_refl) l El Er) as [C|[Hb ->]]; [congruence|].
    rewrite Hb. simpl.
    destruct (IH (mkSt (st_net s) (st_memo s ++ [i]) (st_trace s)) false)
      as [M [f' R]].
    + intros k Hk l' El' Er'. simpl in *.
      destruct (Hrest k Hk l' El' Er') as [C|C]; [left; apply in_memo_app; exact C | auto].
    + exists ([i] ++ M), f'. rewrite R. simpl. rewrite <- app_assoc. reflexivity.
Qed.

Lemma nth_error_kinds (net : list (@layer A)) (m : nat) (l : @layer A) :
  nth_error net m = Some l -> nth_error (kinds net) m = Some (is_relu l).
Proof. intro H. unfold kinds. rewrite nth_error_map, H. reflexivity. Qed.

Lemma nth_error_list_set_eq {T} (l : list T) (m : nat) (x y : T) :
  nth_error l m = Some y -> nth_error (list_set l m x) m = Some x.
Proof.
  revert m. induction l as [|z l IH]; intros [|m]; simpl; intro H;
    try discriminate H; auto.
Qed.

Lemma cached_update_bounds (net : list (@layer A)) (m : nat) (l : @layer A) b :
  nth_error net m = Some l ->
  cached (list_set net m (update_bounds l b)) m /\
  (forall i, cached net i -> cached (list_set net m (update_bounds l b)) i).
Proof.
  intro H.
  assert (C : cached (list_set net m (update_bounds l b)) m).
  { exists b. unfold caches. rewrite map_list_set.
    replace (layer_bounds (update_bounds l b)) with (Some b) by (destruct l; reflexivity).
    eapply nth_error_list_set_eq. rewrite nth_error_map, H. reflexivity. }
  split; [exact C|]. intros i [b' Hi].
  destruct (Nat.eq_dec i m) as [->|N]; [exact C|].
  exists b'. rewrite caches_update_bounds; auto.
Qed.

Lemma in_memo_fresh (i : nat) (M : list nat) :
  (forall j, In j M -> j <> i) -> in_memo i M = false.
Proof.
  intro H. unfold in_memo. destruct (existsb (Nat.eqb i) M) eqn:E; [|reflexivity].
  apply existsb_exists in E. destruct E as [j [Hj Ej]]. apply Nat.eqb_eq in Ej.
  subst j. now elim (H i Hj).
Qed.

Lemma in_memo_split (i : nat) (a b : list nat) :
  in_memo i (a ++ b) = in_memo i a || in_memo i b.
Proof. apply existsb_app. Qed.

Lemma relu_at_layer (net : list (@layer A)) (i : nat) (l : @layer A) :
  nth_error net i = Some l -> relu_at net i -> is_relu l = true.
Proof.
  unfold relu_at. intros H R. rewrite (nth_error_kinds _ _ H) in R. congruence.
Qed.

Lemma relu_at_none (net : list (@layer A)) (i : nat) :
  nth_error net i = None -> ~ relu_at net i.
Proof.
  unfold relu_at, kinds. intros H R. rewrite nth_error_map, H in R. discriminate R.
Qed.

Lemma has_bounds_cached (net : list (@layer A)) (i : nat) (l : @layer A) :
  nth_error net i = Some l -> has_bounds l = true -> cached net i.
Proof.
  unfold has_bounds, cached, caches. intros H Hb. rewrite nth_error_map, H. simpl.
  destruct (layer_bounds l) as [b|]; [eauto | discriminate Hb].
Qed.

Lemma bounded_after_idle (lo hi : nat) (s : @solver_state A) :
  (forall i, lo <= i < hi -> relu_at (st_net s) i -> in_memo i (st_memo s) = false ->
             cached (st_net s) i) ->
  bounded_after lo hi s s.
Proof.
  intro H. repeat split; auto.
  exists []. rewrite app_nil_r. split; [reflexivity | intros j []].
Qed.

Lemma solver_loop_bounded (rec : @solver_state A -> nat -> res (@solver_state A)) (rb : bool) :
  (forall s i s', rec s i = Ok s' -> bounded_after i (S i) s s') ->
  forall n a s f s' f',
    solver_loop rec rb (seq a n) s f = Ok (s', f') -> bounded_after a (a + n) s s'.
Proof.
  intro Hrec. induction n as [|n IH]; intros a s f s' f' H.
  - simpl in H. injection H as <- _. apply bounded_after_idle. intros i Hi. lia.
  - cbn [seq solver_loop] in H.
    destruct (nth_error (st_net s) a) as [l|] eqn:El.
    2:{ destruct (IH _ _ _ _ _ H) as [K [Mo [[M [Hm HM]] C]]].
        repeat split; auto.
        - exists M. split; [exact Hm|]. intros j Hj. specialize (HM j Hj). lia.
        - intros i Hi R Hin. destruct (Nat.eq_dec i a) as [->|N].
          + now elim (relu_at_none El).
          + apply C; auto. lia. }
    destruct (is_relu l && negb (in_memo a (st_memo s))) eqn:Ec.
    2:{ destruct (IH _ _ _ _ _ H) as [K [Mo [[M [Hm HM]] C]]].
        repeat split; auto.
        - exists M. split; [exact Hm|]. intros j Hj. specialize (HM j Hj). lia.
        - intros i Hi R Hin. destruct (Nat.eq_dec i a) as [->|N].
          + rewrite (relu_at_layer El R), Hin in Ec. discriminate Ec.
          + apply C; auto. lia. }
    apply andb_prop in Ec. destruct Ec as [Er Em]. apply negb_true_iff in Em.
    apply bind_Ok in H. destruct H as [s1 [E1 H]].
    assert (St : bounded_after a (S a) s s1).
    { assert (Idle : has_bounds l = true -> bounded_after a (S a) s s).
      { intro Hb. apply bounded_after_idle. intros i Hi _ _.
        replace i with a by lia. eapply has_bounds_cached; eauto. }
      destruct (has_bounds l) eqn:Hb.
      - destruct (negb true || rb); [destruct (negb (f && true))|];
          try (injection E1 as <-; auto); eauto.
      - rewrite andb_false_r in E1. simpl in E1. eauto. }
    destruct St as [K1 [Mo1 [[M1 [Hm1 HM1]] C1]]].
    destruct (IH _ _ _ _ _ H) as [K2 [Mo2 [[M2 [Hm2 HM2]] C2]]].
    cbn [st_net st_memo st_trace] in *.
    split; [congruence|]. split; [auto|]. split.
    + exists (M1 ++ [a] ++ M2). split.
      * rewrite Hm2, Hm1, <- !app_assoc. reflexivity.
      * intros j Hj. apply in_app_or in Hj. destruct Hj as [Hj|Hj].
        { specialize (HM1 j Hj). lia. }
        apply in_app_or in Hj. destruct Hj as [Hj|Hj].
        { destruct Hj as [<-|[]]. lia. }
        specialize (HM2 j Hj). lia.
    + intros i Hi R Hin. destruct (Nat.eq_dec i a) as [->|N].
      * apply Mo2. apply C1; auto.
      * apply C2; [lia | unfold relu_at in *; congruence |].
        rewrite Hm1, !in_memo_split, Hin.
        rewrite (@in_memo_fresh i M1), (@in_memo_fresh i [a]); auto.
        { intros j [<-|[]]. auto. }
        { intros j Hj. specialize (HM1 j Hj). lia. }
Qed.

Lemma compute_bounded (fuel : nat) :
  forall s m ai it ul rb ui s',
    compute_dp_relu_bounds_rec fuel s m ai it ul rb ui = Ok s' ->
    bounded_after 0 (S m) s s' /\ m < length (st_net s).
Proof.
  induction fuel as [|fuel IH]; intros s m ai it ul rb ui s' H; simpl in H;
    [discriminate H|].
  apply bind_Ok in H. destruct H as [[s2 nb] [E H]].
  destruct (m =? 0) eqn:Em.
  - apply Nat.eqb_eq in Em. subst m. injection E as <- <-.
    unfold write_bounds in H.
    destruct (nth_error (st_net s) 0) as [l|] eqn:El; [|discriminate H].
    injection H as <-. cbn [st_net st_memo].
    destruct (@cached_update_bounds _ _ _ (concretize ai) El) as [C Mo].
    split; [|apply nth_error_Some; congruence].
    split; [apply kinds_update_bounds; exact El|]. split; [exact Mo|]. split.
    + exists []. rewrite app_nil_r. split; [reflexivity | intros j []].
    + intros i Hi _ _. replace i with 0 by lia. exact C.
  - apply Nat.eqb_neq in Em.
    apply bind_Ok in E. destruct E as [[s1 f1] [E1 E2]].
    apply solver_loop_bounded in E1.
    2:{ intros s0 i s0' Hr. apply IH in Hr. destruct Hr as [[K [Mo [[M [Hm HM]] C]]] _].
        repeat split; auto.
        - exists M. split; [exact Hm|]. intros j Hj. specialize (HM j Hj). lia.
        - intros j Hj. apply C. lia. }
    destruct E1 as [K1 [Mo1 [[M1 [Hm1 HM1]] C1]]].
    unfold bound_requested in E2.
    destruct (nth_error (st_net s1) m) as [last|] eqn:El; [|discriminate E2].
    assert (Lm : m < length (st_net s)).
    { assert (L : m < length (st_net s1)) by (apply nth_error_Some; congruence).
      apply (f_equal (@length bool)) in K1. unfold kinds in K1.
      rewrite !length_map in K1. lia. }
    split; [|exact Lm].
    assert (Before : forall i, i < m -> relu_at (st_net s) i ->
                               in_memo i (st_memo s) = false -> cached (st_net s1) i).
    { intros i Hi. apply C1. lia. }
    assert (HM : forall j, In j M1 -> j < S m).
    { intros j Hj. specialize (HM1 j Hj). lia. }
    destruct (is_relu last) eqn:Er; simpl in E2.
    + apply bind_Ok in E2. destruct E2 as [[net r] [E3 E4]].
      destruct r as [[xl xu]|]; [|discriminate E4]. injection E4 as <- <-.
      apply backward_deeppoly_frame in E3. destruct E3 as [Ca Ki].
      unfold write_bounds in H. cbn [st_net st_memo st_trace] in H.
      destruct (nth_error net m) as [l|] eqn:Eln; [|discriminate H].
      injection H as <-. cbn [st_net st_memo].
      destruct (@cached_update_bounds _ _ _ (mkT (layer_output_dim last) xl,
                                        mkT (layer_output_dim last) xu) Eln) as [C Mo].
      assert (Mo' : forall i, cached (st_net s1) i ->
                      cached (list_set net m
                                (update_bounds l (mkT (layer_output_dim last) xl,
                                                  mkT (layer_output_dim last) xu))) i).
      { intros i Hc. apply Mo. unfold cached in *. rewrite Ca. exact Hc. }
      split; [etransitivity; [apply kinds_update_bounds; exact Eln | congruence]|].
      split; [auto|]. split; [exists M1; auto|].
      intros i Hi R Hin. destruct (Nat.eq_dec i m) as [->|N]; [exact C|].
      apply Mo'. apply Before; auto. lia.
    + injection E2 as <- <-. simpl in H. injection H as <-.
      split; [exact K1|]. split; [exact Mo1|]. split; [exists M1; auto|].
      intros i Hi R Hin. destruct (Nat.eq_dec i m) as [->|N].
      * unfold relu_at in R. rewrite <- K1, (nth_error_kinds _ _ El) in R. congruence.
      * apply Before; auto. lia.
Qed.

(** What lines 358-370 do for a requested ReLU layer of positive index:
    the pass is logged and its result written into the cache. *)
Lemma requested_relu_written (s1 s2 s' : @solver_state A) (m : nat)
    (ai : HybridZonotope) (it : nat) (ul ui : bool) (l : @layer A) nb :
  nth_error (st_net s1) m = Some l -> is_relu l = true ->
  bound_requested s1 m ai it ul ui = Ok (s2, nb) ->
  write_bounds s2 m nb = Ok s' ->
  st_trace s' = m :: st_trace s1 /\
  exists net2 lo up,
    backward_deeppoly (st_net s1) (Z.of_nat m - 1) (identity_seed (layer_output_dim l))
                      it ul ui (Some ai)
    = Ok (net2, Some (lo, up)) /\
    nth_error (caches (st_net s')) m
    = Some (Some (mkT (layer_output_dim l) lo, mkT (layer_output_dim l) up)).
Proof.
  intros El Er E H. unfold bound_requested in E. rewrite El, Er in E. simpl in E.
  inv_bind E. destruct v as [net2 r]. destruct r as [[lo up]|]; [|discriminate E].
  injection E as <- <-.
  unfold write_bounds in H. simpl in H.
  destruct (nth_error net2 m) as [l2|] eqn:El2; [|discriminate H].
  injection H as <-. simpl. split; [reflexivity|].
  exists net2, lo, up. split; [exact E0|].
  unfold caches. rewrite map_list_set.
  replace (layer_bounds (update_bounds l2 (mkT (layer_output_dim l) lo,
                                           mkT (layer_output_dim l) up)))
    with (Some (mkT (layer_output_dim l) lo, mkT (layer_output_dim l) up))
    by (destruct l2; reflexivity).
  eapply nth_error_list_set_eq. rewrite nth_error_map, El2. reflexivity.
Qed.

(** C7, amended: within one top-level call no index is logged twice, and
    every logged index other than the requested one was outside the memo
    before the call and is in it afterwards.  When the requested layer has
    a positive index and is a ReLU, its pass is the last one logged and the
    layer has cached bounds afterwards.  With [recompute_bounds] false and
    every earlier ReLU layer cached, the call starts no pass for any layer
    other than the requested one and leaves the cache of every layer other
    than the requested one unchanged; when the requested layer has a
    positive index and is a ReLU, its pass is run on the network as it is,
    whatever the cache of the layer holds, and the cache is rewritten with
    the bounds this pass returns. *)
Theorem solver_memoization :
  forall (s : @solver_state A) (m : nat) (ai : HybridZonotope) (it : nat)
         (ul rb ui : bool) (s' : @solver_state A),
    compute_dp_relu_bounds s m ai it ul rb ui = Ok s' ->
    (exists E, st_trace s' = E ++ st_trace s /\ NoDup E /\
               forall j, In j E -> j <> m ->
                         ~ In j (st_memo s) /\ In j (st_memo s')) /\
    (forall l, m <> 0 -> nth_error (st_net s) m = Some l -> is_relu l = true ->
               (exists E, st_trace s' = m :: E ++ st_trace s) /\
               cached (st_net s') m) /\
    (rb = false ->
     (forall i l, i < m -> nth_error (st_net s) i = Some l ->
                  is_relu l = true -> has_bounds l = true) ->
     (st_trace s' = st_trace s \/ st_trace s' = m :: st_trace s) /\
     (forall j, j <> m ->
                nth_error (caches (st_net s')) j = nth_error (caches (st_net s)) j) /\
     (forall l, m <> 0 -> nth_error (st_net s) m = Some l -> is_relu l = true ->
        st_trace s' = m :: st_trace s /\
        exists net2 lo up,
          backward_deeppoly (st_net s) (Z.of_nat m - 1)
                            (identity_seed (layer_output_dim l)) it ul ui (Some ai)
          = Ok (net2, Some (lo, up)) /\
          nth_error (caches (st_net s')) m
          = Some (Some (mkT (layer_output_dim l) lo, mkT (layer_output_dim l) up)))).
Proof.
  intros s m ai it ul rb ui s' H. unfold compute_dp_relu_bounds in H. split; [|split].
  - destruct (compute_evolves _ _ _ _ _ _ _ _ H) as [_ [M [E [_ [Ht [N [P _]]]]]]].
    exists E. repeat split; auto;
      destruct (P j H0) as [->|[_ [Hn Hin]]]; congruence || assumption.
  - intros l Hm El Er. simpl in H. inv_bind H. destruct v as [s2 nb].
    destruct (m =? 0) eqn:Em; [apply Nat.eqb_eq in Em; contradiction|].
    inv_bind E. destruct v as [s1 f1].
    apply (solver_loop_evolves (m := m)) in E0.
    2:{ intros s0 i s3 _ Hr. apply compute_evolves in Hr. exact Hr. }
    2:{ apply Forall_forall. intros i Hi. apply in_seq in Hi. lia. }
    destruct E0 as [K1 [M1 [E1 [_ [Ht1 _]]]]].
    assert (L1 : exists l1, nth_error (st_net s1) m = Some l1 /\ is_relu l1 = true).
    { pose proof (nth_error_kinds _ _ El) as Kl. rewrite <- K1 in Kl.
      unfold kinds in Kl. rewrite nth_error_map in Kl.
      destruct (nth_error (st_net s1) m) as [l1|]; [|discriminate Kl].
      exists l1. split; [reflexivity|]. simpl in Kl. congruence. }
    destruct L1 as [l1 [El1 Er1]].
    destruct (@requested_relu_written _ _ _ _ _ _ _ _ _ _ El1 Er1 E H) as [T [net2 [lo [up [_ C]]]]].
    split.
    + exists E1. rewrite T, Ht1. reflexivity.
    + eexists. exact C.
  - intros -> Hc. simpl in H. inv_bind H. destruct v as [s2 nb].
    destruct (m =? 0) eqn:Em.
    + apply Nat.eqb_eq in Em. subst m. injection E as <- <-.
      unfold write_bounds in H.
      destruct (nth_error (st_net s) 0) as [l|]; [|discriminate H].
      injection H as <-. simpl. split; [auto|]. split.
      * intros j Hj. apply caches_update_bounds. exact Hj.
      * intros l0 C. now elim C.
    + inv_bind E. destruct v as [s1 f1].
      destruct (@solver_loop_idle
                  (fun s i => compute_dp_relu_bounds_rec m s i ai it ul true ui) false
                  (seq 0 (Nat.min m (length (st_net s)))) s true) as [M [f' R]].
      { intros i Hi l El Er. right. split; [|reflexivity].
        apply in_seq in Hi. apply (Hc i l); [lia | exact El | exact Er]. }
      rewrite R in E0. injection E0 as <- _.
      assert (Rq : forall l, nth_error (st_net s) m = Some l -> is_relu l = true ->
                   st_trace s' = m :: st_trace s /\
                   exists net2 lo up,
                     backward_deeppoly (st_net s) (Z.of_nat m - 1)
                                       (identity_seed (layer_output_dim l)) it ul ui
                                       (Some ai)
                     = Ok (net2, Some (lo, up)) /\
                     nth_error (caches (st_net s')) m
                     = Some (Some (mkT (layer_output_dim l) lo,
                                   mkT (layer_output_dim l) up))).
      { intros l El Er.
        exact (@requested_relu_written
                 (mkSt (st_net s) (st_memo s ++ M) (st_trace s)) _ _ _ _ _ _ _ _ _
                 El Er E H). }
      unfold bound_requested in E. simpl in E.
      destruct (nth_error (st_net s) m) as [l|]; [|discriminate E].
      destruct (negb (is_relu l)).
      * injection E as <- <-. simpl in H. injection H as <-. simpl in *.
        split; [auto|]. split; [auto|]. intros l0 _. apply Rq.
      * inv_bind E. destruct v as [net2 r]. destruct r as [[lo up]|]; [|discriminate E].
        injection E as <- <-.
        destruct (backward_deeppoly_frame _ _ _ _ _ _ _ E0) as [C2 _].
        unfold write_bounds in H. simpl in H.
        destruct (nth_error net2 m) as [l2|]; [|discriminate H].
        injection H as <-. simpl in *. split; [auto|]. split.
        -- intros j Hj. rewrite (caches_update_bounds _ _ Hj). congruence.
        -- intros l0 _. apply Rq.
Qed.

(** C8, amended: a request for a layer of positive index that is not a
    ReLU starts no pass for that layer and leaves its cache and the caches
    of later layers unchanged, but it bounds the earlier ReLU layers: each
    of them that the memo does not hold has cached bounds afterwards.  The
    call does nothing but extend the memo if every earlier ReLU layer is
    settled, that is memoized, or cached while [recompute_bounds] is
    false. *)
Theorem non_relu_request :
  forall (s : @solver_state A) (m : nat) (ai : HybridZonotope) (it : nat)
         (ul rb ui : bool) (l : @layer A),
    m <> 0 -> nth_error (st_net s) m = Some l -> is_relu l = false ->
    (forall s', compute_dp_relu_bounds s m ai it ul rb ui = Ok s' ->
       (exists E, st_trace s' = E ++ st_trace s /\ Forall (fun j => j < m) E) /\
       (forall j, m <= j ->
                  nth_error (caches (st_net s')) j = nth_error (caches (st_net s)) j) /\
       (forall i, i < m -> relu_at (st_net s) i -> in_memo i (st_memo s) = false ->
                  cached (st_net s') i)) /\
    ((forall i, i < m -> settled rb s i) ->
     exists M, compute_dp_relu_bounds s m ai it ul rb ui
               = Ok (mkSt (st_net s) (st_memo s ++ M) (st_trace s))).
Proof.
  intros s m ai it ul rb ui l Hm El Er.
  unfold compute_dp_relu_bounds. split.
  - intros s' H.
    assert (B : forall i, i < m -> relu_at (st_net s) i ->
                          in_memo i (st_memo s) = false -> cached (st_net s') i).
    { destruct (compute_bounded _ _ _ _ _ _ _ _ H) as [[_ [_ [_ C]]] _].
      intros i Hi. apply C. lia. }
    simpl in H.
    destruct (m =? 0) eqn:Em; [apply Nat.eqb_eq in Em; contradiction|].
    inv_bind H. destruct v as [s2 nb].
    inv_bind E. destruct v as [s1 f1].
    apply (solver_loop_evolves (m := m)) in E0.
    2:{ intros s0 i s3 _ Hr. apply compute_evolves in Hr. exact Hr. }
    2:{ apply Forall_forall. intros i Hi. apply in_seq in Hi. lia. }
    destruct E0 as [K1 [M1 [E1 [Hm1 [Ht1 [N1 [P1 C1]]]]]]].
    unfold bound_requested in E.
    destruct (nth_error (st_net s1) m) as [l1|] eqn:El1; [|discriminate E].
    assert (Er1 : is_relu l1 = false).
    { apply nth_error_kinds in El, El1. rewrite K1, El in El1. congruence. }
    rewrite Er1 in E. simpl in E. injection E as <- <-.
    simpl in H. injection H as <-. split; [|split].
    + exists E1. split; [exact Ht1|]. apply Forall_forall.
      intros j Hj. destruct (P1 j Hj) as [Hlt _]. exact Hlt.
    + intros j Hj. destruct (C1 j) as [e|[h|z]]; [exact e | |lia].
      destruct (P1 j h) as [Hlt _]. lia.
    + exact B.
  - intro Hs. simpl.
    destruct (m =? 0) eqn:Em; [apply Nat.eqb_eq in Em; contradiction|].
    destruct (@solver_loop_idle
                (fun s i => compute_dp_relu_bounds_rec m s i ai it ul true ui) rb
                (seq 0 (Nat.min m (length (st_net s)))) s true) as [M [f' R]].
    { intros i Hi. apply Hs. apply in_seq in Hi. lia. }
    exists M. rewrite R. simpl. unfold bound_requested. simpl.
    rewrite El, Er. reflexivity.
Qed.

End Solver.

(** With both caches populated and [recompute_bounds] false, a request for
    the ReLU of index 1 rewrites its cache from [-5, 5] to [-1, 1]; and a
    second, identical request on the result starts the pass for layer 1
    again, as the log shows. *)
Lemma solver_requested_layer_counterexample :
  exists s1 s2,
    compute_dp_relu_bounds (TT := plain_torch Q) (mkSt net_loose [] []) 1
                           (box1 (-1)%Q 1%Q) 0 false false false = Ok s1 /\
    has_bounds (nth 0 net_loose (OtherLayer None)) = true /\
    has_bounds (nth 1 net_loose (OtherLayer None)) = true /\
    nth_error (caches (st_net s1)) 1 <> nth_error (caches net_loose) 1 /\
    st_trace s1 = [1] /\
    compute_dp_relu_bounds (TT := plain_torch Q) (mkSt (st_net s1) [] []) 1
                           (box1 (-1)%Q 1%Q) 0 false false false = Ok s2 /\
    st_trace s2 = [1].
Proof.
  eexists. eexists. split; [vm_compute; reflexivity|].
  repeat split; try (vm_compute; reflexivity).
  vm_compute. discriminate.
Qed.

Lemma solver_memoization_witness :
  (exists s',
     compute_dp_relu_bounds (TT := plain_torch Q) (mkSt net_fresh [] []) 2
                            (box1 (-1)%Q 1%Q) 0 false true false = Ok s' /\
     exists E, st_trace s' = E ++ [] /\ NoDup E /\
               forall j, In j E -> j <> 2 -> ~ In j [] /\ In j (st_memo s')) /\
  (exists s',
     compute_dp_relu_bounds (TT := plain_torch Q) (mkSt net_loose [] []) 1
                            (box1 (-1)%Q 1%Q) 0 false false false = Ok s' /\
     st_trace s' = [1] /\
     nth_error (caches (st_net s')) 0 = nth_error (caches net_loose) 0 /\
     backward_deeppoly (TT := plain_torch Q) net_loose 0 (identity_seed [1]) 0 false false
                       (Some (box1 (-1)%Q 1%Q))
     = Ok (net_loose, Some ([(-1)%Q], [1%Q])) /\
     nth_error (caches (st_net s')) 1
     = Some (Some (mkT [1] [(-1)%Q], mkT [1] [1%Q]))).
Proof.
  split.
  - eexists. split; [vm_compute; reflexivity|].
    exact (proj1 (solver_memoization (TT := plain_torch Q) (mkSt net_fresh [] []) 2
                    (box1 (-1)%Q 1%Q) 0 false true false eq_refl)).
  - destruct (compute_dp_relu_bounds (TT := plain_torch Q) (mkSt net_loose [] []) 1
                (box1 (-1)%Q 1%Q) 0 false false false) as [s'|e] eqn:E;
      [|vm_compute in E; discriminate E].
    exists s'. split; [reflexivity|].
    assert (Hc : forall i l, i < 1 -> nth_error net_loose i = Some l ->
                             is_relu l = true -> has_bounds l = true).
    { intros [|i] l Hi El Er; [|lia]. injection El as <-. reflexivity. }
    destruct (proj2 (proj2 (solver_memoization (TT := plain_torch Q)
                              (mkSt net_loose [] []) 1 (box1 (-1)%Q 1%Q) 0
                              false false false E)) eq_refl Hc)
      as [_ [Hk Hr]].
    destruct (Hr (ReLU (Some (mkT [1] [(-5)%Q], mkT [1] [5%Q])) [1] None)
                 ltac:(discriminate) eq_refl eq_refl)
      as [Ht [net2 [lo [up [Eb Ec]]]]].
    assert (Ev : backward_deeppoly (TT := plain_torch Q) net_loose 0 (identity_seed [1]) 0
                                   false false (Some (box1 (-1)%Q 1%Q))
                 = Ok (net_loose, Some ([(-1)%Q], [1%Q])))
      by (vm_compute; reflexivity).
    simpl in Eb. rewrite Ev in Eb. injection Eb as _ <- <-.
    split; [exact Ht|]. split; [apply Hk; discriminate|].
    split; [exact Ev | exact Ec].
Defined.

(** A request for the last layer of a fresh network, a [Linear] one,
    fills the cache of the ReLU before it and logs its pass; a request for
    a [Linear] layer of index 0 writes the bounds of the input region into
    the cache of that layer. *)
Lemma non_relu_request_counterexample :
  exists s1 s2,
    is_relu (nth 2 net_fresh (OtherLayer None)) = false /\
    compute_dp_relu_bounds (TT := plain_torch Q) (mkSt net_fresh [] []) 2
                           (box1 (-1)%Q 1%Q) 0 false true false = Ok s1 /\
    nth_error (caches (st_net s1)) 1 <> nth_error (caches net_fresh) 1 /\
    st_trace s1 = [1] /\
    is_relu (nth 0 net_fresh (OtherLayer None)) = false /\
    compute_dp_relu_bounds (TT := plain_torch Q) (mkSt net_fresh [] []) 0
                           (box1 (-1)%Q 1%Q) 0 false true false = Ok s2 /\
    nth_error (caches (st_net s2)) 0 <> nth_error (caches net_fresh) 0.
Proof.
  eexists. eexists. split; [reflexivity|].
  split; [vm_compute; reflexivity|].
  split; [vm_compute; discriminate|].
  split; [vm_compute; reflexivity|].
  split; [reflexivity|].
  split; [vm_compute; reflexivity|].
  vm_compute. discriminate.
Qed.

Lemma non_relu_request_witness :
  2 <> 0 /\
  nth_error net_fresh 2 = Some (Linear None [[1%Q]] None) /\
  exists s',
    compute_dp_relu_bounds (TT := plain_torch Q) (mkSt net_fresh [] []) 2
                           (box1 (-1)%Q 1%Q) 0 false true false = Ok s' /\
    (exists E, st_trace s' = E ++ [] /\ Forall (fun j => j < 2) E) /\
    nth_error (caches (st_net s')) 2 = nth_error (caches net_fresh) 2 /\
    relu_at net_fresh 1 /\ cached (st_net s') 1.
Proof.
  split; [discriminate|]. split; [reflexivity|].
  eexists. split; [vm_compute; reflexivity|].
  destruct (proj1 (non_relu_request (TT := plain_torch Q) (mkSt net_fresh [] [])
                     (box1 (-1)%Q 1%Q) 0 false true false
                     (m := 2) (l := Linear None [[1%Q]] None)
                     ltac:(discriminate) eq_refl eq_refl) _ eq_refl) as [HE [HC HB]].
  split; [exact HE|]. split; [apply HC; apply Nat.le_refl|].
  split; [reflexivity|].
  apply HB; [lia | reflexivity | reflexivity].
Defined.

(** ** Soundness of the propagation *)

(** In exact arithmetic the lower line of an unstable neuron is below the
    ReLU everywhere. *)
Lemma lower_line_sound (lb ub x : Q) :
  (lb < 0)%Q -> (0 < ub)%Q ->
  (lambda_l (relu_neuron lb ub (default_lambda_l lb ub)) * x
   + mu_l (relu_neuron lb ub (default_lambda_l lb ub)) <= relu x)%Q.
Proof.
  intros Hl Hu.
  rewrite (relu_neuron_unstable LtAsym_Q lb ub
             (proj2 (Qltb_true _ _) Hl) (proj2 (Qltb_true _ _) Hu)).
  unfold relu. simpl.
  destruct (Qltb ub (- lb)); destruct (Qltb 0 x) eqn:Ex;
    try apply Qltb_true in Ex; try apply Qltb_false in Ex; lra.
Qed.

(** The upper line is above the ReLU on [lb, ub] only up to the factor
    (ub - lb + 1e-15) / (ub - lb). *)
Lemma upper_line_slack (lb ub x : Q) :
  (lb < 0)%Q -> (0 < ub)%Q -> (lb <= x)%Q -> (x <= ub)%Q ->
  (relu x * (ub - lb)
   <= (lambda_u (relu_neuron lb ub (default_lambda_l lb ub)) * x
       + mu_u (relu_neuron lb ub (default_lambda_l lb ub))) * (ub - lb + eps15))%Q.
Proof.
  intros Hl Hu Hx1 Hx2.
  rewrite (relu_neuron_unstable LtAsym_Q lb ub
             (proj2 (Qltb_true _ _) Hl) (proj2 (Qltb_true _ _) Hu)).
  simpl.
  assert (D : (0 < ub - lb + (1 # 1000000000000000))%Q) by lra.
  setoid_replace ((ub / (ub - lb + (1 # 1000000000000000)) * x
                   + - ub * lb / (ub - lb + (1 # 1000000000000000)))
                  * (ub - lb + (1 # 1000000000000000)))%Q
    with (ub * x - ub * lb)%Q by (field; lra).
  unfold relu. simpl. destruct (Qltb 0 x) eqn:E.
  - apply Qltb_true in E. nra.
  - apply Qltb_false in E. nra.
Qed.

(** C1 fails on the two-layer network x -> relu(1 * x).  The guard 1e-15
    enters the slope and the offset of the upper line of an unstable neuron,
    which therefore passes below the point (ub, ub).  For the input region
    [-2^-50, 2^-50] and the input 2^-50, which lies in it, the network
    returns 2^-50 and [forward_deeppoly], with the bounds recomputed,
    returns an upper bound of about 0.64 * 2^-50, in binary32 and in exact
    arithmetic; in exact arithmetic the upper bound for the region [-1, 3]
    is below the value 3 the network takes at 3. *)
Theorem upper_bound_below_value :
  (exists net' l u,
      valid_binary prec32 emax32 tiny32 = true /\
      ltb tiny32 (opp tiny32) = false /\
      forward (net_unit float32) [tiny32] = Ok [tiny32] /\
      forward_deeppoly (TT := plain_torch float32) (NN := plain_network float32 [1])
                       (net_unit float32)
                       (box1 (opp tiny32) tiny32) None 0 false true true
      = Ok (net', Some ([l], [u])) /\
      u = S754_finite false 10734327 (-74) /\
      ltb u tiny32 = true) /\
  (exists net' l u,
      forward (net_unit Q) [tinyQ] = Ok [tinyQ] /\
      forward_deeppoly (TT := plain_torch Q) (NN := plain_network Q [1])
                       (net_unit Q)
                       (box1 (- tinyQ)%Q tinyQ) None 0 false true true
      = Ok (net', Some ([l], [u])) /\
      (u < tinyQ)%Q) /\
  (exists net' l u y,
      forward (net_unit Q) [3%Q] = Ok [y] /\ (y == 3)%Q /\
      forward_deeppoly (TT := plain_torch Q) (NN := plain_network Q [1])
                       (net_unit Q)
                       (box1 (-1)%Q 3%Q) None 0 false true true
      = Ok (net', Some ([l], [u])) /\
      (u < y)%Q).
Proof.
  split; [|split].
  - do 3 eexists. repeat split; vm_compute; reflexivity.
  - do 3 eexists. split; [vm_compute; reflexivity|].
    split; [vm_compute; reflexivity|]. vm_compute. reflexivity.
  - do 4 eexists. split; [vm_compute; reflexivity|].
    split; [vm_compute; reflexivity|].
    split; [vm_compute; reflexivity|]. vm_compute. reflexivity.
Qed.

(** * Further properties *)

Lemma fold_left_Qplus (l : list Q) (a : Q) :
  (fold_left Qplus l a == a + fold_left Qplus l 0)%Q.
Proof.
  revert a. induction l as [|y l IH]; intro a; simpl.
  - lra.
  - rewrite (IH (a + y)%Q), (IH (0 + y)%Q). lra.
Qed.

Lemma vsum_cons (y : Q) (l : list Q) : (vsum (y :: l) == y + vsum l)%Q.
Proof.
  unfold vsum. simpl. rewrite fold_left_Qplus. lra.
Qed.

Lemma vsum_nil : (@vsum Q _ [] == 0)%Q.
Proof. reflexivity. Qed.

Lemma vsum_le (a b : list Q) : Forall2 Qle a b -> (vsum a <= vsum b)%Q.
Proof.
  induction 1 as [|x y a b H _ IH].
  - apply Qle_refl.
  - rewrite !vsum_cons. lra.
Qed.






Section Generic.
Context {A : Type} {AA : Arith A}.

Lemma mapM_Forall2 {T U} (f : T -> res U) (l : list T) (r : list U) :
  mapM f l = Ok r -> Forall2 (fun x y => f x = Ok y) l r.
Proof.
  revert r. induction l as [|x l IH]; simpl; intros r H.
  - injection H as <-. constructor.
  - inv_bind H. inv_bind H. injection H as <-. constructor; auto.
Qed.


Lemma zip_with_nth_error (f : A -> A -> A) (a b : list A) (i : nat) (y : A) :
  nth_error (zip_with f a b) i = Some y ->
  exists p q, nth_error a i = Some p /\ nth_error b i = Some q /\ y = f p q.
Proof.
  revert b i. induction a as [|p a IH]; intros [|q b] [|i] H;
    unfold zip_with in *; simpl in *; try discriminate.
  - injection H as <-. eauto.
  - apply IH. exact H.
Qed.

Lemma bias_plus_nth_error (b : @bias_t A) (v r : list A) (i : nat) (y : A) :
  bias_plus b v = Ok r -> nth_error r i = Some y ->
  exists vi, nth_error v i = Some vi /\ y = add (bias_at b i) vi.
Proof.
  destruct b as [a|w]; simpl; intros H Hi.
  - injection H as <-. rewrite nth_error_map in Hi.
    destruct (nth_error v i) as [vi|]; [|discriminate]. injection Hi as <-. eauto.
  - apply ewise_Ok in H. destruct H as [_ ->].
    apply zip_with_nth_error in Hi. destruct Hi as [p [q [Hp [Hq ->]]]].
    exists q. split; [exact Hq|]. f_equal. symmetry. apply nth_error_nth. exact Hp.
Qed.

End Generic.





(** ** Pulling back through an affine layer *)

Lemma zip_with_length {A : Type} {AA : Arith A} (f : A -> A -> A) (a b : list A) :
  length a = length b -> length (zip_with f a b) = length a.
Proof.
  intro H. unfold zip_with. rewrite length_map, length_combine, H. apply Nat.min_id.
Qed.

Lemma row_value_nil_l (x : list Q) : (row_value [] x == 0)%Q.
Proof. reflexivity. Qed.

Lemma row_value_cons (c : Q) (cs : list Q) (x : Q) (xs : list Q) :
  (row_value (c :: cs) (x :: xs) == c * x + row_value cs xs)%Q.
Proof. unfold row_value, zip_with. simpl. rewrite vsum_cons. reflexivity. Qed.

Lemma row_value_nil_r (c : list Q) : (row_value c [] == 0)%Q.
Proof. destruct c; reflexivity. Qed.

Lemma row_value_add_l (a b x : list Q) :
  length a = length b ->
  (row_value (zip_with add a b) x == row_value a x + row_value b x)%Q.
Proof.
  revert b x. induction a as [|p a IH]; intros [|q b] x L; try discriminate L.
  - rewrite !row_value_nil_l. lra.
  - destruct x as [|y x].
    + rewrite !row_value_nil_r. lra.
    + change (zip_with add (p :: a) (q :: b)) with ((p + q)%Q :: zip_with add a b).
      rewrite !row_value_cons, IH by (injection L; auto). lra.
Qed.

Lemma row_value_add_r (c a b : list Q) :
  length a = length b ->
  (row_value c (zip_with add a b) == row_value c a + row_value c b)%Q.
Proof.
  revert a b. induction c as [|p c IH]; intros [|q a] [|r b] L; try discriminate L.
  - rewrite !row_value_nil_l. lra.
  - rewrite !row_value_nil_l. lra.
  - change (zip_with add (p :: c) []) with (@nil Q). rewrite !row_value_nil_r. lra.
  - change (zip_with add (q :: a) (r :: b)) with ((q + r)%Q :: zip_with add a b).
    rewrite !row_value_cons, IH by (injection L; auto). lra.
Qed.

Lemma row_value_scale (k : Q) (w x : list Q) :
  (row_value (map (mul k) w) x == k * row_value w x)%Q.
Proof.
  revert x. induction w as [|p w IH]; intros [|y x].
  - rewrite !row_value_nil_l. lra.
  - rewrite !row_value_nil_l. lra.
  - rewrite !row_value_nil_r. lra.
  - cbn [map]. rewrite !row_value_cons, IH. simpl. lra.
Qed.

Lemma row_value_zeros (n : nat) (x : list Q) : (row_value (repeat 0%Q n) x == 0)%Q.
Proof.
  revert x. induction n as [|n IH]; intros x; cbn [repeat].
  - apply row_value_nil_l.
  - destruct x as [|y x]; [apply row_value_nil_r|].
    rewrite row_value_cons, IH. lra.
Qed.

Lemma vec_mat_fold (c : list Q) (w : list (list Q)) (x acc : list Q) :
  length c = length w ->
  Forall (fun row => length row = length x) w ->
  length acc = length x ->
  (row_value (fold_left (fun acc p => zip_with add acc (map (mul (fst p)) (snd p)))
                        (combine c w) acc) x
   == row_value acc x + row_value c (mat_vec w x))%Q.
Proof.
  revert w acc. induction c as [|k c IH]; intros [|row w] acc L F La; try discriminate L.
  - simpl. rewrite row_value_nil_l. lra.
  - inversion F as [|? ? Hr Fw]; subst. cbn [combine fold_left fst snd].
    rewrite IH.
    + cbn [mat_vec map]. rewrite row_value_cons, row_value_add_l, row_value_scale.
      * unfold mat_vec. lra.
      * rewrite length_map. congruence.
    + injection L; auto.
    + exact Fw.
    + rewrite zip_with_length; [exact La|]. rewrite length_map. congruence.
Qed.

Lemma vec_mat_value (c c' : list Q) (w : list (list Q)) (x : list Q) :
  vec_mat c w = Ok c' ->
  Forall (fun row => length row = length x) w ->
  (row_value c' x == row_value c (mat_vec w x))%Q.
Proof.
  unfold vec_mat. destruct (length c =? length w) eqn:L; [|discriminate].
  apply Nat.eqb_eq in L. intros H F. injection H as <-.
  destruct w as [|row w].
  - destruct c; [|discriminate L]. reflexivity.
  - rewrite vec_mat_fold; auto.
    + change zero with 0%Q. rewrite row_value_zeros. lra.
    + rewrite repeat_length. simpl. inversion F; auto.
Qed.

Lemma Forall2_nth {T U} (R : T -> U -> Prop) (l : list T) (r : list U) (i : nat) (d1 : T) (d2 : U) :
  Forall2 R l r -> i < length l -> R (nth i l d1) (nth i r d2).
Proof.
  intro H. revert i. induction H as [|a b l r Hab _ IH]; intros [|i] Hi; simpl in *; try lia.
  - exact Hab.
  - apply IH. lia.
Qed.

Lemma Forall2_length_eq {T U} (R : T -> U -> Prop) (l : list T) (r : list U) :
  Forall2 R l r -> length r = length l.
Proof. induction 1; simpl; congruence. Qed.

Lemma dot_value (a b : list Q) (v : Q) :
  dot a b = Ok v -> length a = length b /\ v = row_value a b.
Proof.
  unfold dot. intro H. inv_bind H. injection H as <-.
  apply ewise_Ok in E. destruct E as [L ->]. auto.
Qed.


Lemma bias_at_add_zero (b : @bias_t Q) (i : nat) :
  (bias_at (bias_add_zero b) i == bias_at b i)%Q.
Proof.
  destruct b as [a|v]; simpl; [lra|].
  revert i. induction v as [|y v IH]; intros [|i]; simpl; try lra. apply IH.
Qed.

Lemma bias_add_at (b : @bias_t Q) (v : list Q) (b' : @bias_t Q) (i : nat) :
  bias_add b v = Ok b' -> i < length v ->
  bias_at b' i = (bias_at b i + nth i v 0)%Q.
Proof.
  unfold bias_add. intros H Hi. inv_bind H. injection H as <-.
  destruct (nth_error v0 i) as [y|] eqn:Ey.
  - destruct (bias_plus_nth_error _ _ _ E Ey) as [vi [Hv ->]].
    simpl. rewrite (nth_error_nth _ _ _ Ey), (nth_error_nth _ _ _ Hv). reflexivity.
  - exfalso. apply nth_error_None in Ey.
    assert (length v0 = length v).
    { destruct b as [a|w]; simpl in E.
      - injection E as <-. apply length_map.
      - apply ewise_Ok in E. destruct E as [L ->].
        rewrite zip_with_length; auto. }
    lia.
Qed.

Lemma coef_matmul_rows (c c' : @coef Q) (w : list (list Q)) :
  coef_matmul c w = Ok c' ->
  Forall2 (fun r r' => vec_mat r w = Ok r') (crows c) (crows c').
Proof.
  unfold coef_matmul. destruct (cshape c) as [|? [|? ?]]; try discriminate.
  intro H. inv_bind H. injection H as <-. simpl. apply mapM_Forall2. exact E.
Qed.

Lemma coef_matvec_rows (c : @coef Q) (b v : list Q) :
  coef_matvec c b = Ok v ->
  Forall2 (fun r y => y = row_value r b) (crows c) v.
Proof.
  unfold coef_matvec. destruct (cshape c) as [|? [|? ?]]; try discriminate.
  intro H. apply mapM_Forall2 in H.
  eapply Forall2_impl; [|exact H]. intros r y Hd. apply dot_value in Hd. tauto.
Qed.

(** One side of [dp_linear]. *)
Lemma linear_side_value (c c' : @coef Q) (bs bs' : @bias_t Q) (w : list (list Q))
    (b : option (list Q)) (x : list Q) (i : nat) :
  coef_matmul c w = Ok c' ->
  match b with
  | None => Ok (bias_add_zero bs)
  | Some b' => v <- coef_matvec c b' ;; bias_add bs v
  end = Ok bs' ->
  Forall (fun row => length row = length x) w ->
  match b with None => True | Some b' => length b' = length w end ->
  i < length (crows c) ->
  length (crows c') = length (crows c) /\
  (bias_at bs' i + row_value (nth i (crows c') []) x
   == bias_at bs i + row_value (nth i (crows c) []) (affine_image w b x))%Q.
Proof.
  intros Hc Hb F Lb Hi.
  apply coef_matmul_rows in Hc.
  split; [apply (Forall2_length_eq Hc)|].
  pose proof (Forall2_nth [] [] Hc Hi) as Hv.
  rewrite (vec_mat_value _ _ Hv F).
  destruct b as [b'|]; simpl affine_image.
  - inv_bind Hb. apply coef_matvec_rows in E.
    rewrite (bias_add_at _ _ Hb) by (rewrite (Forall2_length_eq E); exact Hi).
    rewrite (Forall2_nth [] 0%Q E Hi).
    rewrite row_value_add_r by (unfold mat_vec; rewrite length_map; auto).
    lra.
  - injection Hb as <-. rewrite bias_at_add_zero. reflexivity.
Qed.

Lemma dp_linear_pullback :
  forall (d d' : @DeepPoly Q) (w : list (list Q)) (b : option (list Q)) (x : list Q),
    dp_linear d w b = Ok d' ->
    Forall (fun row => length row = length x) w ->
    match b with None => True | Some b' => length b' = length w end ->
    length (crows (x_l_coef d')) = length (crows (x_l_coef d)) /\
    length (crows (x_u_coef d')) = length (crows (x_u_coef d)) /\
    (forall i, i < length (crows (x_l_coef d)) ->
               (lower_value d' i x == lower_value d i (affine_image w b x))%Q) /\
    (forall i, i < length (crows (x_u_coef d)) ->
               (upper_value d' i x == upper_value d i (affine_image w b x))%Q).
Proof.
  intros d d' w b x H F Lb. unfold dp_linear in H.
  inv_bind H. rename v into lb, E into El.
  inv_bind H. rename v into ub, E into Eu.
  inv_bind H. rename v into lc, E into Elc.
  inv_bind H. rename v into uc, E into Euc.
  injection H as <-. simpl.
  repeat split.
  - apply coef_matmul_rows in Elc. apply (Forall2_length_eq Elc).
  - apply coef_matmul_rows in Euc. apply (Forall2_length_eq Euc).
  - intros i Hi. unfold lower_value. simpl.
    apply (proj2 (linear_side_value _ _ _ _ Elc El F Lb Hi)).
  - intros i Hi. unfold upper_value. simpl.
    apply (proj2 (linear_side_value _ _ _ _ Euc Eu F Lb Hi)).
Qed.

(** X4: in exact arithmetic [dp_linear] substitutes the affine map of the
    layer: the relation it returns has the same rows, and its value at
    [x] is the value of the given relation at [weight . x + bias]. *)
Theorem dp_linear_value :
  forall (d d' : @DeepPoly Q) (w : list (list Q)) (b : option (list Q)) (x : list Q),
    dp_linear d w b = Ok d' ->
    Forall (fun row => length row = length x) w ->
    match b with None => True | Some b' => length b' = length w end ->
    length (crows (x_l_coef d')) = length (crows (x_l_coef d)) /\
    length (crows (x_u_coef d')) = length (crows (x_u_coef d)) /\
    (forall i, i < length (crows (x_l_coef d)) ->
               (lower_value d' i x == lower_value d i (affine_image w b x))%Q) /\
    (forall i, i < length (crows (x_u_coef d)) ->
               (upper_value d' i x == upper_value d i (affine_image w b x))%Q).
Proof. exact (@dp_linear_pullback). Qed.

(** ** Pulling back through a ReLU layer without unstable neurons *)

Lemma pos_neg_sum (c : Q) : (pos_part c + neg_part c == c)%Q.
Proof.
  unfold pos_part, neg_part. simpl.
  destruct (Qltb 0 c) eqn:P; destruct (Qltb c 0) eqn:N;
    try apply Qltb_true in P; try apply Qltb_false in P;
    try apply Qltb_true in N; try apply Qltb_false in N; lra.
Qed.

Lemma relu_neuron_stable (lb ub l z : Q) :
  stable_pair lb ub -> (lb <= z)%Q -> (z <= ub)%Q ->
  (relu_neuron lb ub l = mkRelax 1%Q 1%Q 0%Q 0%Q /\ relu z = z) \/
  (relu_neuron lb ub l = mkRelax 0%Q 0%Q 0%Q 0%Q /\ relu z = 0%Q).
Proof.
  intros [Hp|Hn] H1 H2; [left|right]; unfold relu_neuron, relu; simpl.
  - assert (P : Qltb 0 lb = true) by (apply Qltb_true; lra).
    assert (N : Qltb lb 0 = false) by (apply Qltb_false; lra).
    assert (Z : Qltb 0 z = true) by (apply Qltb_true; lra).
    rewrite P, N, Z. auto.
  - assert (U : Qltb ub 0 = true) by (apply Qltb_true; lra).
    assert (P : Qltb 0 lb = false) by (apply Qltb_false; lra).
    assert (V : Qltb 0 ub = false) by (apply Qltb_false; lra).
    assert (Z : Qltb 0 z = false) by (apply Qltb_false; lra).
    rewrite U, P, V, Z. rewrite andb_false_r. auto.
Qed.

Lemma stable_at_length (lb ub z : list Q) :
  stable_at lb ub z -> length lb = length z /\ length ub = length z.
Proof. induction 1; simpl; intuition congruence. Qed.

Lemma sign_split_stable (f g : @relax Q -> Q) (row lb ub ls z : list Q) :
  stable_at lb ub z -> length ls = length z ->
  (forall r, (r = mkRelax 1%Q 1%Q 0%Q 0%Q \/ r = mkRelax 0%Q 0%Q 0%Q 0%Q) ->
             f r = lambda_l r /\ g r = lambda_l r) ->
  (row_value (sign_split f g row (relu_relaxation lb ub ls)) z
   == row_value row (map relu z))%Q.
Proof.
  intros S. revert row ls.
  induction S as [|lb ub z lbs ubs zs Hs H1 H2 S IH]; intros row ls L Hf.
  - destruct ls; [|discriminate L]. destruct row; reflexivity.
  - destruct ls as [|l ls]; [discriminate L|]. destruct row as [|c row]; [reflexivity|].
    unfold relu_relaxation, sign_split. cbn [combine map fst snd].
    fold (relu_relaxation lbs ubs ls). 
    change (map _ (combine row (relu_relaxation lbs ubs ls)))
      with (sign_split f g row (relu_relaxation lbs ubs ls)).
    rewrite !row_value_cons, IH by (try (injection L; auto); exact Hf).
    destruct (relu_neuron_stable l Hs H1 H2) as [[-> ->]|[-> ->]].
    + destruct (Hf _ (or_introl eq_refl)) as [-> ->]. simpl.
      pose proof (pos_neg_sum c). nra.
    + destruct (Hf _ (or_intror eq_refl)) as [-> ->]. simpl. lra.
Qed.

Lemma sign_split_offsets (f g : @relax Q -> Q) (row lb ub ls z : list Q) :
  stable_at lb ub z -> length ls = length z ->
  (forall r, (r = mkRelax 1%Q 1%Q 0%Q 0%Q \/ r = mkRelax 0%Q 0%Q 0%Q 0%Q) ->
             f r = 0%Q /\ g r = 0%Q) ->
  (vsum (sign_split f g row (relu_relaxation lb ub ls)) == 0)%Q.
Proof.
  intros S. revert row ls.
  induction S as [|lb ub z lbs ubs zs Hs H1 H2 S IH]; intros row ls L Hf.
  - destruct ls; [|discriminate L]. destruct row; reflexivity.
  - destruct ls as [|l ls]; [discriminate L|]. destruct row as [|c row]; [reflexivity|].
    unfold relu_relaxation, sign_split. cbn [combine map fst snd].
    fold (relu_relaxation lbs ubs ls).
    change (map _ (combine row (relu_relaxation lbs ubs ls)))
      with (sign_split f g row (relu_relaxation lbs ubs ls)).
    rewrite vsum_cons, IH by (try (injection L; auto); exact Hf).
    destruct (relu_neuron_stable l Hs H1 H2) as [[-> _]|[-> _]].
    + destruct (Hf _ (or_introl eq_refl)) as [-> ->]. simpl. lra.
    + destruct (Hf _ (or_intror eq_refl)) as [-> ->]. simpl. lra.
Qed.

Lemma dp_relu_rows {A : Type} {AA : Arith A} (self : @DeepPoly A) (x_lb x_ub : @tensor A)
    (it : nat) (dp_lambda : option (list A)) (d : @DeepPoly A) (p : option (list A)) :
  dp_relu self (Some (x_lb, x_ub)) it dp_lambda = Ok (d, p) ->
  exists ls,
    learned_slopes (zip_with default_lambda_l (tdata x_lb) (tdata x_ub)) it dp_lambda
    = Ok (ls, p) /\
    crows (x_l_coef d)
    = map (fun row => sign_split lambda_l lambda_u row
                        (relu_relaxation (tdata x_lb) (tdata x_ub) ls))
          (crows (x_l_coef self)) /\
    crows (x_u_coef d)
    = map (fun row => sign_split lambda_u lambda_l row
                        (relu_relaxation (tdata x_lb) (tdata x_ub) ls))
          (crows (x_u_coef self)) /\
    bias_add (x_l_bias self)
             (map (fun row => vsum (sign_split mu_l mu_u row
                                      (relu_relaxation (tdata x_lb) (tdata x_ub) ls)))
                  (crows (x_l_coef self)))
    = Ok (x_l_bias d) /\
    bias_add (x_u_bias self)
             (map (fun row => vsum (sign_split mu_u mu_l row
                                      (relu_relaxation (tdata x_lb) (tdata x_ub) ls)))
                  (crows (x_u_coef self)))
    = Ok (x_u_bias d).
Proof.
  intro H. unfold dp_relu in H.
  destruct (negb _) eqn:? in H; [discriminate|].
  inv_bind H. destruct v as [ls p'].
  destruct (negb _) eqn:? in H; [discriminate|].
  inv_bind H. inv_bind H. inv_bind H. inv_bind H.
  set (rl := relu_relaxation (tdata x_lb) (tdata x_ub) ls) in *.
  destruct (mapM_Ok _ (fun row => sign_split lambda_l lambda_u row rl)
              (fun row => length row = length rl) _
              (fun x y => @split_combine_Ok _ _ lambda_l lambda_u x rl y) E0) as [_ ->].
  destruct (mapM_Ok _ (fun row => sign_split mu_l mu_u row rl)
              (fun row => length row = length rl) _
              (fun x y => @split_combine_Ok _ _ mu_l mu_u x rl y) E1) as [_ ->].
  destruct (mapM_Ok _ (fun row => sign_split lambda_u lambda_l row rl)
              (fun row => length row = length rl) _
              (fun x y => @split_combine_Ok _ _ lambda_u lambda_l x rl y) E2) as [_ ->].
  destruct (mapM_Ok _ (fun row => sign_split mu_u mu_l row rl)
              (fun row => length row = length rl) _
              (fun x y => @split_combine_Ok _ _ mu_u mu_l x rl y) E3) as [_ ->].
  rewrite !map_map in H.
  exists ls.
  destruct (length (tshape x_lb)) as [|[|[|[|n]]]]; try discriminate H;
    inv_bind H; inv_bind H; injection H as <- <-; simpl; auto.
Qed.

Lemma learned_slopes_length {A : Type} {AA : Arith A} (defaults : list A) (it : nat)
    (dp : option (list A)) (ls : list A) (p : option (list A)) :
  learned_slopes defaults it dp = Ok (ls, p) -> length ls = length defaults.
Proof.
  unfold learned_slopes. destruct dp as [q|].
  - destruct (it =? 0); [intro H; injection H as <- _; reflexivity|].
    destruct (length q =? length defaults) eqn:L; [|discriminate].
    intro H. injection H as <- _. apply Nat.eqb_eq. exact L.
  - intro H. injection H as <- _. reflexivity.
Qed.

Lemma dp_relu_stable_pullback :
  forall (d d' : @DeepPoly Q) (x_lb x_ub : @tensor Q) (it : nat)
         (dp_lambda p : option (list Q)) (z : list Q),
    dp_relu d (Some (x_lb, x_ub)) it dp_lambda = Ok (d', p) ->
    stable_at (tdata x_lb) (tdata x_ub) z ->
    length (crows (x_l_coef d')) = length (crows (x_l_coef d)) /\
    length (crows (x_u_coef d')) = length (crows (x_u_coef d)) /\
    (forall i, i < length (crows (x_l_coef d)) ->
               (lower_value d' i z == lower_value d i (map relu z))%Q) /\
    (forall i, i < length (crows (x_u_coef d)) ->
               (upper_value d' i z == upper_value d i (map relu z))%Q).
Proof.
  intros d d' x_lb x_ub it dp p z H S.
  apply dp_relu_rows in H. destruct H as [ls [Hls [Rl [Ru [Bl Bu]]]]].
  destruct (stable_at_length S) as [L1 L2].
  assert (Ll : length ls = length z).
  { apply learned_slopes_length in Hls. rewrite Hls, zip_with_length; congruence. }
  split; [rewrite Rl; apply length_map|].
  split; [rewrite Ru; apply length_map|].
  split; intros i Hi.
  - unfold lower_value.
    rewrite (bias_add_at _ _ Bl) by (rewrite length_map; exact Hi).
    rewrite Rl.
    change (@nil Q) with (sign_split lambda_l lambda_u (@nil Q)
                            (relu_relaxation (tdata x_lb) (tdata x_ub) ls)) at 1.
    rewrite (map_nth (fun row => sign_split lambda_l lambda_u row _)).
    change 0%Q with (vsum (sign_split mu_l mu_u (@nil Q)
                             (relu_relaxation (tdata x_lb) (tdata x_ub) ls))) at 1.
    rewrite (map_nth (fun row => vsum (sign_split mu_l mu_u row _))).
    rewrite (sign_split_stable lambda_l lambda_u _ _ S Ll)
      by (intros r [->| ->]; auto).
    rewrite (sign_split_offsets mu_l mu_u _ _ S Ll)
      by (intros r [->| ->]; auto).
    cbn [add Arith_Q]. lra.
  - unfold upper_value.
    rewrite (bias_add_at _ _ Bu) by (rewrite length_map; exact Hi).
    rewrite Ru.
    change (@nil Q) with (sign_split lambda_u lambda_l (@nil Q)
                            (relu_relaxation (tdata x_lb) (tdata x_ub) ls)) at 1.
    rewrite (map_nth (fun row => sign_split lambda_u lambda_l row _)).
    change 0%Q with (vsum (sign_split mu_u mu_l (@nil Q)
                             (relu_relaxation (tdata x_lb) (tdata x_ub) ls))) at 1.
    rewrite (map_nth (fun row => vsum (sign_split mu_u mu_l row _))).
    rewrite (sign_split_stable lambda_u lambda_l _ _ S Ll)
      by (intros r [->| ->]; auto).
    rewrite (sign_split_offsets mu_u mu_l _ _ S Ll)
      by (intros r [->| ->]; auto).
    cbn [add Arith_Q]. lra.
Qed.

(** X5: in exact arithmetic, when the cached bounds say that every neuron
    is strictly active or strictly inactive and the point [z] lies within
    them, [dp_relu] substitutes the ReLU exactly, with or without learned
    slopes. *)
Theorem dp_relu_stable_value :
  forall (d d' : @DeepPoly Q) (x_lb x_ub : @tensor Q) (it : nat)
         (dp_lambda p : option (list Q)) (z : list Q),
    dp_relu d (Some (x_lb, x_ub)) it dp_lambda = Ok (d', p) ->
    stable_at (tdata x_lb) (tdata x_ub) z ->
    length (crows (x_l_coef d')) = length (crows (x_l_coef d)) /\
    length (crows (x_u_coef d')) = length (crows (x_u_coef d)) /\
    (forall i, i < length (crows (x_l_coef d)) ->
               (lower_value d' i z == lower_value d i (map relu z))%Q) /\
    (forall i, i < length (crows (x_u_coef d)) ->
               (upper_value d' i z == upper_value d i (map relu z))%Q).
Proof. exact (@dp_relu_stable_pullback). Qed.

(** ** Soundness on networks without unstable neurons *)







Section Structure.

Context {A : Type} {AA : Arith A} {TT : @Torch A}.

Lemma layer_nested_ind (P : @layer A -> Prop) :
  (forall l, match l with Sequential _ ls => Forall P ls | _ => True end -> P l) ->
  forall l, P l.
Proof.
  intro H. fix IH 1. intro l. apply H.
  destruct l; try exact I.
  induction layers as [|x tl IHl]; constructor; [apply IH | exact IHl].
Qed.

Lemma backprop_sequential (b : @cache A) (ls : list (@layer A)) (d : @DeepPoly A)
    (it : nat) (ul : bool) :
  backprop_dp (Sequential b ls) d it ul
  = ' (ls', d') <- seq_loop (fun l d => backprop_dp l d it ul) ls d ;;
    Ok (Sequential b ls', d').
Proof.
  cbn [backprop_dp]. f_equal.
  induction ls as [|x tl IH]; [reflexivity|].
  cbn [seq_loop]. rewrite <- IH. reflexivity.
Qed.

Lemma supported_sequential (b : @cache A) (ls : list (@layer A)) :
  supported (Sequential b ls) <-> Forall supported ls.
Proof.
  cbn [supported]. induction ls as [|x tl IH].
  - split; [constructor | auto].
  - split.
    + intros [Hx Ht]. constructor; [exact Hx | apply IH; exact Ht].
    + intro H. inversion H; subst. split; [assumption | apply IH; assumption].
Qed.

Lemma seq_loop_Forall (P : @layer A -> Prop)
    (f : @layer A -> @DeepPoly A -> res (@layer A * @DeepPoly A)) (ls : list (@layer A)) :
  Forall (fun l => forall d r, f l d = Ok r -> P l) ls ->
  forall d r, seq_loop f ls d = Ok r -> Forall P ls.
Proof.
  induction 1 as [|x tl Hx _ IH]; intros d r H; [constructor|].
  cbn [seq_loop] in H. inv_bind H. destruct v as [tl' d1].
  inv_bind H. constructor; eauto.
Qed.

(** The dispatch succeeds only on supported layers. *)
Lemma backprop_supported (l : @layer A) :
  forall d it ul r, backprop_dp l d it ul = Ok r -> supported l.
Proof.
  induction l as [l IH] using layer_nested_ind.
  intros d it ul r H. destruct l; try exact I; try discriminate H.
  - cbn [supported]. intros ->. destruct r as [l' d'].
    apply backprop_relu_Ok in H. destruct ul.
    + destruct H as [lb [ub [q [data [Eb _]]]]]. discriminate Eb.
    + destruct H as [data [Er _]]. discriminate Er.
  - cbn [supported]. intros ->. discriminate H.
  - rewrite backprop_sequential in H. inv_bind H.
    apply supported_sequential.
    eapply (@seq_loop_Forall supported); [|exact E].
    eapply Forall_impl; [|exact IH]. intros a Ha d0 r0 Hr. eapply Ha. exact Hr.
Qed.

Lemma backward_loop_supported (ls : list (@layer A)) :
  forall j d it ul ui ai r,
    backward_loop j ls d it ul ui ai = Ok r -> Forall supported ls.
Proof.
  induction ls as [|l tl IH]; intros j d it ul ui ai r H; [constructor|].
  cbn [backward_loop] in H. inv_bind H. destruct v as [[tl' d1] acc1].
  inv_bind H. constructor; [eapply backprop_supported; exact E0 | eapply IH; exact E].
Qed.

(** X14: the backward substitution succeeds only when the index is
    within the network and every layer up to it is supported: each ReLU
    and global pooling layer, nested ones included, has cached bounds, and
    there is no residual block and no layer of an unknown class. *)
Theorem backward_needs_supported_layers :
  forall (net : list (@layer A)) (n : nat) (d : @DeepPoly A) (it : nat) (ul ui : bool)
         (ai : option (@HybridZonotope A)) r,
    backward_deeppoly net (Z.of_nat n) d it ul ui ai = Ok r ->
    n < length net /\ Forall supported (firstn (S n) net).
Proof.
  intros net n d it ul ui ai r H. unfold backward_deeppoly in H.
  destruct (Z.of_nat n <? 0)%Z eqn:Z0; [apply Z.ltb_lt in Z0; lia|].
  rewrite Nat2Z.id in H.
  destruct (length net <=? n) eqn:L; [discriminate H|].
  apply Nat.leb_gt in L. split; [exact L|].
  inv_bind H. eapply backward_loop_supported. exact E.
Qed.

(** Without learned slopes the dispatch returns the layer it was given. *)
Lemma seq_loop_same (f : @layer A -> @DeepPoly A -> res (@layer A * @DeepPoly A))
    (ls : list (@layer A)) :
  Forall (fun l => forall d l' d', f l d = Ok (l', d') -> l' = l) ls ->
  forall d ls' d', seq_loop f ls d = Ok (ls', d') -> ls' = ls.
Proof.
  induction 1 as [|x tl Hx _ IH]; intros d ls' d' H; cbn [seq_loop] in H.
  - injection H as <- _. reflexivity.
  - inv_bind H. destruct v as [tl' d1]. inv_bind H. destruct v as [x' d2].
    injection H as <- _. f_equal; eauto.
Qed.

Lemma backprop_without_lambda (l : @layer A) :
  forall d it l' d', backprop_dp l d it false = Ok (l', d') -> l' = l.
Proof.
  induction l as [l IH] using layer_nested_ind.
  intros d it l' d' H. destruct l; try discriminate H;
    try (cbn [backprop_dp] in H; inv_bind H; injection H as <- _; reflexivity).
  - apply backprop_relu_Ok in H. destruct H as [data [_ ->]]. reflexivity.
  - cbn [backprop_dp] in H. destruct bounds as [[lb ub]|]; [|discriminate H].
    inv_bind H. injection H as <- _. reflexivity.
  - rewrite backprop_sequential in H. inv_bind H. destruct v as [ls' d0].
    injection H as <- _. f_equal.
    eapply seq_loop_same; [|exact E].
    eapply Forall_impl; [|exact IH]. intros a Ha d1 l1 d2 Hr. eapply Ha. exact Hr.
Qed.

Lemma backward_loop_without_lambda (ls : list (@layer A)) :
  forall j d it ui ai ls' d' acc,
    backward_loop j ls d it false ui ai = Ok (ls', d', acc) -> ls' = ls.
Proof.
  induction ls as [|l tl IH]; intros j d it ui ai ls' d' acc H; cbn [backward_loop] in H.
  - injection H as <- _ _. reflexivity.
  - inv_bind H. destruct v as [[tl' d1] acc1].
    inv_bind H. destruct v as [l' d2]. inv_bind H. injection H as <- _ _.
    f_equal; [eapply backprop_without_lambda; exact E0 | eapply IH; exact E].
Qed.

Lemma backward_deeppoly_without_lambda :
  forall (net net' : list (@layer A)) (idx : Z) (d : @DeepPoly A) (it : nat) (ui : bool)
         (ai : option (@HybridZonotope A)) r,
    backward_deeppoly net idx d it false ui ai = Ok (net', r) -> net' = net.
Proof.
  intros net net' idx d it ui ai r H. unfold backward_deeppoly in H.
  destruct (idx <? 0)%Z; [injection H as <- _; reflexivity|].
  destruct (length net <=? Z.to_nat idx); [discriminate H|].
  inv_bind H. destruct v as [[pre d'] acc]. injection H as <- _.
  apply backward_loop_without_lambda in E. rewrite E. apply firstn_skipn.
Qed.

(** X15: without learned slopes the backward substitution returns the
    network it was given: no layer, cache or parameter is changed,
    whatever the index, the expression and the input are. *)
Theorem no_mutation_without_lambda :
  forall (net net' : list (@layer A)) (idx : Z) (d : @DeepPoly A) (it : nat) (ui : bool)
         (ai : option (@HybridZonotope A)) r,
    backward_deeppoly net idx d it false ui ai = Ok (net', r) -> net' = net.
Proof. exact (@backward_deeppoly_without_lambda). Qed.

End Structure.

Section Rows.

Context {A : Type} {AA : Arith A} {TT : @Torch A}.

Lemma mapM_length {T U} (f : T -> res U) (l : list T) (r : list U) :
  mapM f l = Ok r -> length r = length l.
Proof.
  revert r. induction l as [|x l IH]; simpl; intros r H.
  - injection H as <-. reflexivity.
  - inv_bind H. inv_bind H. injection H as <-. simpl. f_equal. auto.
Qed.

Lemma coef_bcast_length (f : A -> A -> A) (c c' : @coef A) (p : @tensor A) :
  coef_bcast f c p = Ok c' -> length (crows c') = length (crows c).
Proof.
  unfold coef_bcast. destruct (_ <? _); [discriminate|]. intro H.
  inv_bind H. inv_bind H. inv_bind H. injection H as <-. simpl.
  eapply mapM_length; eauto.
Qed.

Lemma coef_matmul_length (c c' : @coef A) (w : list (list A)) :
  coef_matmul c w = Ok c' -> length (crows c') = length (crows c).
Proof.
  unfold coef_matmul. destruct (cshape c) as [|? [|? ?]]; try discriminate. intro H.
  inv_bind H. injection H as <-. simpl. eapply mapM_length; eauto.
Qed.

Lemma conv_rows_length (c c' : @coef A) (w : @tensor A) (args : conv_args) :
  conv_rows c w args = Ok c' -> length (crows c') = length (crows c).
Proof.
  unfold conv_rows. intro H. inv_bind H. injection H as <-. simpl.
  rewrite length_map. eapply mapM_length; eauto.
Qed.

Lemma interp_rows_length (c c' : @coef A) (size : list nat) (mode : string) (align : bool) :
  interp_rows c size mode align = Ok c' -> length (crows c') = length (crows c).
Proof.
  unfold interp_rows. destruct (cshape c) as [|? [|? [|? [|? ?]]]]; try discriminate.
  intro H. inv_bind H. injection H as <-. simpl.
  rewrite length_map. eapply mapM_length; eauto.
Qed.

Lemma coef_view_length (c c' : @coef A) (s : list nat) :
  coef_view c s = Ok c' -> length (crows c') = length (crows c).
Proof.
  unfold coef_view. destruct (_ =? _); [|discriminate]. intro H.
  injection H as <-. reflexivity.
Qed.

Lemma same_rows_refl (d : @DeepPoly A) : same_rows d d.
Proof. split; reflexivity. Qed.

Lemma same_rows_trans (d1 d2 d3 : @DeepPoly A) :
  same_rows d1 d2 -> same_rows d2 d3 -> same_rows d1 d3.
Proof. intros [a b] [c e]. split; congruence. Qed.

Lemma dp_linear_same_rows (d : @DeepPoly A) w b d' : dp_linear d w b = Ok d' -> same_rows d d'.
Proof.
  unfold dp_linear. intro H. inv_bind H. inv_bind H. inv_bind H. inv_bind H.
  injection H as <-. split; simpl; eapply coef_matmul_length; eauto.
Qed.

Lemma dp_flatten_same_rows (d : @DeepPoly A) s d' : dp_flatten d s = Ok d' -> same_rows d d'.
Proof.
  unfold dp_flatten. intro H. inv_bind H. inv_bind H.
  injection H as <-. split; simpl; eapply coef_view_length; eauto.
Qed.

Lemma dp_normalize_same_rows (d : @DeepPoly A) m s d' : dp_normalize d m s = Ok d' -> same_rows d d'.
Proof.
  unfold dp_normalize. destruct (cshape (x_l_coef d)); [discriminate|]. intro H.
  inv_bind H. inv_bind H. inv_bind H. inv_bind H. inv_bind H. inv_bind H. inv_bind H.
  injection H as <-. split; simpl; eapply coef_bcast_length; eauto.
Qed.

Lemma dp_relu_same_rows (d : @DeepPoly A) b it p d' p' : dp_relu d b it p = Ok (d', p') -> same_rows d d'.
Proof.
  destruct b as [[lb ub]|]; [|discriminate]. intro H.
  apply dp_relu_rows in H. destruct H as [ls [_ [Hl [Hu _]]]].
  split; [rewrite Hl | rewrite Hu]; apply length_map.
Qed.

Lemma dp_conv_same_rows (d : @DeepPoly A) wh w b s p g dl d' :
  dp_conv d wh w b s p g dl = Ok d' -> same_rows d d'.
Proof.
  unfold dp_conv. intro H. do 10 (inv_bind H).
  injection H as <-. split; simpl; eapply conv_rows_length; eauto.
Qed.

Lemma dp_global_avg_pool2d_same_rows (d : @DeepPoly A) wh d' :
  dp_global_avg_pool2d d wh = Ok d' -> same_rows d d'.
Proof.
  unfold dp_global_avg_pool2d. intro H. inv_bind H. inv_bind H.
  injection H as <-. split; simpl; rewrite length_map; eapply coef_bcast_length; eauto.
Qed.

Lemma dp_avg_pool2d_same_rows (d : @DeepPoly A) wh k s p d' :
  dp_avg_pool2d d wh k s p = Ok d' -> same_rows d d'.
Proof.
  unfold dp_avg_pool2d. intro H. do 7 (inv_bind H).
  injection H as <-. split; simpl; eapply conv_rows_length; eauto.
Qed.

Lemma dp_upsample_same_rows (d : @DeepPoly A) s m a d' : dp_upsample d s m a = Ok d' -> same_rows d d'.
Proof.
  unfold dp_upsample. intro H. inv_bind H. inv_bind H.
  injection H as <-. split; simpl; eapply interp_rows_length; eauto.
Qed.

Lemma dp_batch_norm_same_rows (d : @DeepPoly A) m v w b e d' :
  dp_batch_norm d m v w b e = Ok d' -> same_rows d d'.
Proof.
  unfold dp_batch_norm. intro H. inv_bind H. inv_bind H. inv_bind H. inv_bind H.
  destruct v3 as [lb ub]. inv_bind H. inv_bind H.
  injection H as <-. split; simpl; eapply coef_bcast_length; eauto.
Qed.

Lemma dp_bias_same_rows (d : @DeepPoly A) b d' : dp_bias d b = Ok d' -> same_rows d d'.
Proof.
  unfold dp_bias. intro H. do 4 (inv_bind H). injection H as <-. split; reflexivity.
Qed.

Lemma dp_scale_same_rows (d : @DeepPoly A) s d' : dp_scale d s = Ok d' -> same_rows d d'.
Proof.
  unfold dp_scale. intro H. inv_bind H. inv_bind H.
  injection H as <-. split; simpl; eapply coef_bcast_length; eauto.
Qed.

Lemma seq_loop_same_rows (f : @layer A -> @DeepPoly A -> res (@layer A * @DeepPoly A))
    (ls : list (@layer A)) :
  Forall (fun l => forall d l' d', f l d = Ok (l', d') -> same_rows d d') ls ->
  forall d ls' d', seq_loop f ls d = Ok (ls', d') -> same_rows d d'.
Proof.
  induction 1 as [|x tl Hx _ IH]; intros d ls' d' H; cbn [seq_loop] in H.
  - injection H as _ <-. apply same_rows_refl.
  - inv_bind H. destruct v as [tl' d1]. inv_bind H. destruct v as [x' d2].
    injection H as _ <-. eapply same_rows_trans; eauto.
Qed.

Lemma backprop_same_rows (l : @layer A) :
  forall d it ul l' d', backprop_dp l d it ul = Ok (l', d') -> same_rows d d'.
Proof.
  induction l as [l IH] using layer_nested_ind.
  intros d it ul l' d' H. destruct l; try discriminate H;
    try (cbn [backprop_dp] in H; inv_bind H; injection H as _ <-).
  - eapply dp_linear_same_rows; eauto.
  - eapply dp_flatten_same_rows; eauto.
  - eapply dp_normalize_same_rows; eauto.
  - apply backprop_relu_Ok in H. destruct ul.
    + destruct H as [lb [ub [q [data [_ [_ [Er _]]]]]]]. eapply dp_relu_same_rows; eauto.
    + destruct H as [data [Er _]]. eapply dp_relu_same_rows; eauto.
  - eapply dp_conv_same_rows; eauto.
  - cbn [backprop_dp] in H. destruct bounds as [[lb ub]|]; [|discriminate H].
    inv_bind H. injection H as _ <-. eapply dp_global_avg_pool2d_same_rows; eauto.
  - eapply dp_avg_pool2d_same_rows; eauto.
  - eapply dp_upsample_same_rows; eauto.
  - eapply dp_batch_norm_same_rows; eauto.
  - eapply dp_bias_same_rows; eauto.
  - eapply dp_scale_same_rows; eauto.
  - rewrite backprop_sequential in H. inv_bind H. destruct v as [ls' d0].
    injection H as _ <-.
    eapply seq_loop_same_rows; [|exact E].
    eapply Forall_impl; [|exact IH]. intros a Ha d1 l1 d2 Hr. eapply Ha. exact Hr.
Qed.

(** X12: every transfer operation the dispatch reaches keeps the number
    of rows of the relation: a successful call returns one lower and one
    upper expression per expression it was given, for every kind of layer
    and in any arithmetic. *)
Theorem backprop_keeps_rows :
  forall (l l' : @layer A) (d d' : @DeepPoly A) (it : nat) (ul : bool),
    backprop_dp l d it ul = Ok (l', d') -> same_rows d d'.
Proof. intros l l' d d' it ul H. eapply backprop_same_rows. exact H. Qed.

End Rows.

Section Shape.

Context {A : Type} {AA : Arith A} {TT : @Torch A}.






Lemma backward_loop_some (ls : list (@layer A)) :
  forall d it ul ui ai ls' d' acc,
    backward_loop 0 ls d it ul ui ai = Ok (ls', d', acc) -> ls <> [] -> acc <> None.
Proof.
  destruct ls as [|l tl]; intros d it ul ui ai ls' d' acc H N; [now elim N|].
  cbn [backward_loop] in H. inv_bind H. destruct v as [[tl' d1] acc1].
  inv_bind H. destruct v as [l' d2]. inv_bind H. injection H as _ _ <-.
  unfold concretize_step in E1. simpl in E1. inv_bind E1.
  destruct acc1 as [[a b]|].
  - inv_bind E1. inv_bind E1. injection E1 as <-. discriminate.
  - injection E1 as <-. discriminate.
Qed.

Lemma backward_deeppoly_none (net net' : list (@layer A)) (idx : Z) d it ul ui ai r :
  backward_deeppoly net idx d it ul ui ai = Ok (net', r) ->
  (r = None <-> (idx < 0)%Z).
Proof.
  intro H. unfold backward_deeppoly in H.
  destruct (idx <? 0)%Z eqn:Z0.
  - injection H as _ <-. apply Z.ltb_lt in Z0. tauto.
  - apply Z.ltb_ge in Z0.
    destruct (length net <=? Z.to_nat idx) eqn:L; [discriminate H|].
    apply Nat.leb_gt in L.
    inv_bind H. destruct v as [[pre d'] acc]. injection H as _ <-.
    split; [|lia]. intro Hn. exfalso. subst acc.
    apply backward_loop_some in E; [now elim E|].
    destruct net; [simpl in L; lia | discriminate].
Qed.


End Shape.

Section Bounded.

Context {A : Type} {AA : Arith A} {TT : @Torch A}.

(** X18: after a successful call of the solver the requested index is
    within the network, the kinds of the layers are unchanged, every cache
    that existed still exists, and every ReLU layer up to the requested
    index that the memo did not exclude has cached bounds. *)
Theorem solver_bounds_every_relu :
  forall (s s' : @solver_state A) (m : nat) (ai : HybridZonotope) (it : nat)
         (ul rb ui : bool),
    compute_dp_relu_bounds s m ai it ul rb ui = Ok s' ->
    m < length (st_net s) /\
    kinds (st_net s') = kinds (st_net s) /\
    (forall i, cached (st_net s) i -> cached (st_net s') i) /\
    (forall i, i <= m -> relu_at (st_net s) i -> in_memo i (st_memo s) = false ->
               cached (st_net s') i).
Proof.
  intros s s' m ai it ul rb ui H. unfold compute_dp_relu_bounds in H.
  apply compute_bounded in H. destruct H as [[K [Mo [_ C]]] L].
  repeat split; auto. intros i Hi. apply C. lia.
Qed.

Lemma without_caches_update (net : list (@layer A)) (m : nat) (l : @layer A) b :
  nth_error net m = Some l ->
  without_caches (list_set net m (update_bounds l b)) = without_caches net.
Proof.
  intro H. unfold without_caches. rewrite map_list_set.
  apply list_set_same. rewrite nth_error_map, H. simpl. f_equal.
  destruct l; reflexivity.
Qed.

Lemma solver_loop_writes_caches (rec : @solver_state A -> nat -> res (@solver_state A))
    (rb : bool) :
  (forall s i s', rec s i = Ok s' ->
                  without_caches (st_net s') = without_caches (st_net s)) ->
  forall idx s f s' f',
    solver_loop rec rb idx s f = Ok (s', f') ->
    without_caches (st_net s') = without_caches (st_net s).
Proof.
  intro Hrec. induction idx as [|a idx IH]; intros s f s' f' H; cbn [solver_loop] in H.
  - injection H as <- _. reflexivity.
  - destruct (nth_error (st_net s) a) as [l|]; [|eauto].
    destruct (is_relu l && negb (in_memo a (st_memo s))); [|eauto].
    apply bind_Ok in H. destruct H as [s1 [E1 H]].
    apply IH in H. cbn [st_net] in H. rewrite H.
    destruct (negb (has_bounds l) || rb); [destruct (negb (f && has_bounds l))|];
      try (injection E1 as <-; reflexivity); eauto.
Qed.

Lemma compute_writes_caches (fuel : nat) :
  forall s m ai it rb ui s',
    compute_dp_relu_bounds_rec fuel s m ai it false rb ui = Ok s' ->
    without_caches (st_net s') = without_caches (st_net s).
Proof.
  induction fuel as [|fuel IH]; intros s m ai it rb ui s' H; simpl in H;
    [discriminate H|].
  apply bind_Ok in H. destruct H as [[s2 nb] [E H]].
  assert (W : forall (t : @solver_state A) nb' t', write_bounds t m nb' = Ok t' ->
                without_caches (st_net t') = without_caches (st_net t)).
  { intros t nb' t' Hw. unfold write_bounds in Hw. destruct nb' as [b|].
    - destruct (nth_error (st_net t) m) as [l|] eqn:El; [|discriminate Hw].
      injection Hw as <-. apply without_caches_update. exact El.
    - injection Hw as <-. reflexivity. }
  apply W in H. rewrite H. clear H W.
  destruct (m =? 0).
  - injection E as <- _. reflexivity.
  - apply bind_Ok in E. destruct E as [[s1 f1] [E1 E2]].
    apply solver_loop_writes_caches in E1; [|intros s0 i s0' Hr; eapply IH; exact Hr].
    rewrite <- E1. unfold bound_requested in E2.
    destruct (nth_error (st_net s1) m) as [last|]; [|discriminate E2].
    destruct (negb (is_relu last)); [injection E2 as <- _; reflexivity|].
    apply bind_Ok in E2. destruct E2 as [[net r] [E3 E4]].
    apply backward_deeppoly_without_lambda in E3. subst net.
    destruct r as [[xl xu]|]; [|discriminate E4]. injection E4 as <- _. reflexivity.
Qed.

(** X19: without learned slopes the solver changes nothing but the
    bound caches of the layers of the network. *)
Theorem solver_only_writes_caches :
  forall (s s' : @solver_state A) (m : nat) (ai : HybridZonotope) (it : nat) (rb ui : bool),
    compute_dp_relu_bounds s m ai it false rb ui = Ok s' ->
    without_caches (st_net s') = without_caches (st_net s).
Proof.
  intros s s' m ai it rb ui H. unfold compute_dp_relu_bounds in H.
  eapply compute_writes_caches. exact H.
Qed.

Context {NN : @Network A}.

Lemma write_layer_frame (l : @layer A) (w : @layer_data A) :
  layer_bounds (write_layer l w) = layer_bounds l /\
  is_relu (write_layer l w) = is_relu l.
Proof.
  destruct w as [shape bm bv inner]. destruct l; cbn [write_layer]; auto.
  - destruct training; auto.
  - destruct inner as [|wr [|wd [|wf rest]]]; auto.
Qed.

Lemma write_layers_frame (ls : list (@layer A)) :
  forall ws, caches (write_layers ls ws) = caches ls /\
             kinds (write_layers ls ws) = kinds ls.
Proof.
  induction ls as [|l tl IH]; intros [|w wt]; cbn [write_layers]; auto.
  destruct (IH wt) as [C K]. destruct (write_layer_frame l w) as [B R].
  unfold caches, kinds in *. cbn [map]. rewrite C, K, B, R. auto.
Qed.

Lemma prepare_frame (net net0 : list (@layer A)) (ai : HybridZonotope) (sh : list nat) :
  prepare net ai = Ok (net0, sh) ->
  caches net0 = caches net /\ kinds net0 = kinds net.
Proof.
  unfold prepare. intro H.
  apply bind_Ok in H. destruct H as [w [_ H]].
  apply bind_Ok in H. destruct H as [[w' sh'] [_ H]]. injection H as <- _.
  destruct (write_layers_frame net w) as [C1 K1].
  destruct (write_layers_frame (write_layers net w) w') as [C2 K2].
  split; congruence.
Qed.

Lemma forward_deeppoly_facts :
  forall (net net' : list (@layer A)) (ai : HybridZonotope)
         (e : option (@coef A)) (it : nat) (ul rb ui : bool) r,
    forward_deeppoly net ai e it ul rb ui = Ok (net', r) ->
    exists net0 sh,
      prepare net ai = Ok (net0, sh) /\
      kinds net' = kinds net0 /\
      (forall i, cached net0 i -> cached net' i) /\
      (rb = true -> forall i, relu_at net0 i -> cached net' i) /\
      (r = None <-> net0 = []) /\
      (net0 = [] -> rb = false /\ e <> None) /\
      (ul = false -> without_caches net' = without_caches net0) /\
      (ul = false -> rb = false -> net' = net0).
Proof.
  intros net net' ai e it ul rb ui r H. unfold forward_deeppoly in H.
  apply bind_Ok in H. destruct H as [[net0 sh] [E0 H]].
  exists net0, sh. split; [exact E0|]. clear E0 net. rename net0 into net.
  apply bind_Ok in H. destruct H as [net1 [E1 H]].
  apply bind_Ok in H. destruct H as [[net2 r2] [E2 H]].
  assert (R : net2 = net' /\ r2 = r /\ (r2 = None -> e <> None)).
  { destruct e as [c|], r2 as [b|]; try discriminate H; injection H as <- <-;
      repeat split; auto; discriminate. }
  destruct R as [<- [<- Re]]. clear H.
  assert (F := backward_deeppoly_frame _ _ _ _ _ _ _ E2). destruct F as [Ca Ki].
  assert (Rn := backward_deeppoly_none _ _ _ _ _ _ _ E2).
  assert (S1 : kinds net1 = kinds net /\
               (forall i, cached net i -> cached net1 i) /\
               (rb = true -> forall i, relu_at net i -> cached net1 i) /\
               (net = [] -> rb = false) /\
               without_caches net1 = without_caches net /\
               (rb = false -> net1 = net)).
  { destruct rb.
    - destruct (length net) as [|n] eqn:Ln; [discriminate E1|].
      apply bind_Ok in E1. destruct E1 as [s1 [Ec E1]].
      injection E1 as <-.
      unfold compute_dp_relu_bounds in Ec.
      assert (W := compute_writes_caches _ _ _ _ _ _ _ Ec).
      apply compute_bounded in Ec. cbn [st_net st_memo] in *.
      destruct Ec as [[K [Mo [_ C]]] _].
      repeat split; auto; try discriminate.
      + intros _ i R. apply C; auto.
        assert (L : i < length (kinds net)) by (apply nth_error_Some; unfold relu_at in R; congruence).
        unfold kinds in L. rewrite length_map in L. lia.
      + intros ->. discriminate Ln.
    - injection E1 as <-. repeat split; auto; discriminate. }
  destruct S1 as [K1 [Mo1 [C1 [N1 [W1 I1]]]]].
  assert (Cc : forall i, cached net1 i -> cached net2 i).
  { intros i Hc. unfold cached in *. rewrite Ca. exact Hc. }
  assert (Len : length net1 = length net).
  { apply (f_equal (@length bool)) in K1. unfold kinds in K1.
    now rewrite !length_map in K1. }
  split; [congruence|]. split; [auto|]. split; [auto|]. split.
  { rewrite Rn. split.
    - intro Hn. destruct net; [reflexivity | simpl in Len; lia].
    - intros ->. simpl in Len. lia. }
  split.
  { intros Hn. split; [auto|]. apply Re. apply Rn.
    rewrite Hn in Len. simpl in Len. lia. }
  split.
  - intros ->. apply backward_deeppoly_without_lambda in E2. congruence.
  - intros -> Hrb. apply backward_deeppoly_without_lambda in E2. rewrite E2. auto.
Qed.

(** X20: a successful call of the entry point keeps the kinds of the
    layers and the caches that existed; with [recompute_bounds] every
    ReLU layer of the network has cached bounds afterwards. *)
Theorem forward_deeppoly_bounds_relus :
  forall (net net' : list (@layer A)) (ai : HybridZonotope)
         (e : option (@coef A)) (it : nat) (ul rb ui : bool) r,
    forward_deeppoly net ai e it ul rb ui = Ok (net', r) ->
    kinds net' = kinds net /\
    (forall i, cached net i -> cached net' i) /\
    (rb = true -> forall i, relu_at net i -> cached net' i).
Proof.
  intros net net' ai e it ul rb ui r H.
  apply forward_deeppoly_facts in H.
  destruct H as [net0 [sh [P [K [Mo [C _]]]]]].
  apply prepare_frame in P. destruct P as [Ca Ki].
  split; [congruence|].
  split; [intros i Hc; apply Mo; unfold cached in *; rewrite Ca; exact Hc|].
  intros Hrb i Hr. apply C; [exact Hrb|]. unfold relu_at in *. rewrite Ki. exact Hr.
Qed.

(** X21: the entry point returns no bounds exactly on the empty
    network, and it returns on the empty network only without
    [recompute_bounds] and with an expression of its caller. *)
Theorem forward_deeppoly_empty_network :
  forall (net net' : list (@layer A)) (ai : HybridZonotope)
         (e : option (@coef A)) (it : nat) (ul rb ui : bool) r,
    forward_deeppoly net ai e it ul rb ui = Ok (net', r) ->
    (r = None <-> net = []) /\ (net = [] -> rb = false /\ e <> None).
Proof.
  intros net net' ai e it ul rb ui r H.
  apply forward_deeppoly_facts in H.
  destruct H as [net0 [sh [P [_ [_ [_ [Rn [Re _]]]]]]]].
  apply prepare_frame in P. destruct P as [_ Ki].
  assert (Z : net0 = [] <-> net = []).
  { apply (f_equal (@length bool)) in Ki. unfold kinds in Ki.
    rewrite !length_map in Ki.
    destruct net0, net; simpl in Ki; split; intro E; try discriminate E;
      try reflexivity; lia. }
  split; [rewrite Rn; exact Z|]. intro Hn. apply Re. apply Z. exact Hn.
Qed.

(** X22: without learned slopes the entry point changes nothing but
    the bound caches of the layers once the two calls of the network have
    written the shapes and the statistics of the batch, and nothing at all
    after them without [recompute_bounds]. *)
Theorem forward_deeppoly_only_writes_caches :
  forall (net net' : list (@layer A)) (ai : HybridZonotope)
         (e : option (@coef A)) (it : nat) (rb ui : bool) r,
    forward_deeppoly net ai e it false rb ui = Ok (net', r) ->
    exists net0 x_shape,
      prepare net ai = Ok (net0, x_shape) /\
      without_caches net' = without_caches net0 /\
      (rb = false -> net' = net0).
Proof.
  intros net net' ai e it rb ui r H.
  apply forward_deeppoly_facts in H.
  destruct H as [net0 [sh [P [_ [_ [_ [_ [_ [W I]]]]]]]]].
  exists net0, sh. split; [exact P|]. split; auto.
Qed.

End Bounded.

Section Flat.

Context {A : Type} {AA : Arith A}.

Lemma mapM_pure {T} (l : list T) : mapM (fun x => Ok x) l = Ok l.
Proof. induction l as [|x l IH]; simpl; [reflexivity | rewrite IH; reflexivity]. Qed.

Lemma concat_chunks_one {T} (n : nat) (d : list T) :
  concat (chunks n 1 d) = firstn n d.
Proof.
  revert d. induction n as [|n IH]; intro d; [reflexivity|].
  cbn [chunks concat]. rewrite IH. destruct d as [|x d]; simpl.
  - rewrite firstn_nil. reflexivity.
  - reflexivity.
Qed.

Lemma expand_flat {T} (n : nat) (d : list T) : expand [n] [n] d = Ok (firstn n d).
Proof.
  cbn [expand]. change (prod_shape []) with 1.
  change (expand (T:=T) [] []) with (fun x : list T => Ok x).
  rewrite mapM_pure. simpl. rewrite Nat.eqb_refl, concat_chunks_one. reflexivity.
Qed.

Lemma zip_with_firstn (f : A -> A -> A) (n : nat) (r p : list A) :
  length p = n -> zip_with f (firstn n r) p = zip_with f r p.
Proof.
  intros <-. unfold zip_with. f_equal. revert r.
  induction p as [|y p IH]; intros [|x r]; simpl; try reflexivity.
  rewrite IH. reflexivity.
Qed.

Lemma bshape_flat (n : nat) : bshape [n] [n] = Ok [n].
Proof. simpl. rewrite Nat.eqb_refl. reflexivity. Qed.

Lemma coef_bcast_flat (f : A -> A -> A) (c c' : @coef A) (p : @tensor A) :
  coef_bcast f c p = Ok c' ->
  cshape c = tshape p -> tshape p = [length (tdata p)] ->
  crows c' = map (fun r => zip_with f r (tdata p)) (crows c).
Proof.
  intros H Hc Hp. unfold coef_bcast in H. rewrite Hc, Hp in H.
  change (length [length (tdata p)] <? length [length (tdata p)]) with false in H.
  cbv iota in H. unfold pad_shape in H.
  change (repeat 1 (length [length (tdata p)] - length [length (tdata p)])
          ++ [length (tdata p)]) with [length (tdata p)] in H.
  rewrite bshape_flat in H. cbn [bind] in H.
  rewrite expand_flat, firstn_all in H. cbn [bind] in H.
  inv_bind H. injection H as <-. cbn [crows].
  eapply (mapM_Ok _ (fun r => zip_with f r (tdata p)) (fun _ => True)); [|exact E].
  intros x y Hx. cbv beta in Hx. rewrite expand_flat in Hx. cbn [bind] in Hx.
  apply ewise_Ok in Hx. destruct Hx as [_ ->]. split; [exact I|].
  apply zip_with_firstn. reflexivity.
Qed.

End Flat.

Lemma row_value_zip (r p x : list Q) :
  (row_value (zip_with mul r p) x == row_value r (zip_with mul p x))%Q.
Proof.
  revert p x. induction r as [|a r IH]; intros p x.
  - change (zip_with mul [] p) with (@nil Q). rewrite !row_value_nil_l. reflexivity.
  - destruct p as [|b p].
    + change (zip_with mul (a :: r) []) with (@nil Q).
      change (zip_with mul [] x) with (@nil Q).
      rewrite row_value_nil_l, row_value_nil_r. reflexivity.
    + destruct x as [|c x].
      * change (zip_with mul (b :: p) []) with (@nil Q).
        rewrite !row_value_nil_r. reflexivity.
      * change (zip_with mul (a :: r) (b :: p)) with (mul a b :: zip_with mul r p).
        change (zip_with mul (b :: p) (c :: x)) with (mul b c :: zip_with mul p x).
        rewrite !row_value_cons, IH. cbn [mul Arith_Q]. ring.
Qed.

Lemma nth_map_rows (g : list Q -> list Q) (rows : list (list Q)) (i : nat) :
  g [] = [] -> nth i (map g rows) [] = g (nth i rows []).
Proof.
  intro Hg. rewrite <- Hg at 1. apply map_nth.
Qed.

(** X6: in exact arithmetic, on a flat layer, [dp_scale] substitutes the
    elementwise product with the scale. *)
Theorem dp_scale_value :
  forall (d d' : @DeepPoly Q) (scale : @tensor Q) (x : list Q) (i : nat),
    dp_scale d scale = Ok d' ->
    cshape (x_l_coef d) = tshape scale -> cshape (x_u_coef d) = tshape scale ->
    tshape scale = [length (tdata scale)] ->
    (lower_value d' i x == lower_value d i (zip_with mul (tdata scale) x))%Q /\
    (upper_value d' i x == upper_value d i (zip_with mul (tdata scale) x))%Q.
Proof.
  intros d d' scale x i H Hl Hu Hs. unfold dp_scale in H.
  inv_bind H. inv_bind H. injection H as <-.
  apply coef_bcast_flat in E, E0; auto.
  unfold lower_value, upper_value. cbn [x_l_coef x_u_coef x_l_bias x_u_bias].
  rewrite E, E0, !nth_map_rows by reflexivity.
  rewrite !row_value_zip. split; reflexivity.
Qed.

(** X7: in exact arithmetic, on a flat layer, [dp_bias] substitutes the
    translation by the bias. *)
Theorem dp_bias_value :
  forall (d d' : @DeepPoly Q) (bias : @tensor Q) (x : list Q),
    dp_bias d bias = Ok d' ->
    cshape (x_l_coef d) = tshape bias -> cshape (x_u_coef d) = tshape bias ->
    tshape bias = [length (tdata bias)] ->
    length x = length (tdata bias) ->
    (forall i, i < length (crows (x_l_coef d)) ->
               (lower_value d' i x == lower_value d i (zip_with add x (tdata bias)))%Q) /\
    (forall i, i < length (crows (x_u_coef d)) ->
               (upper_value d' i x == upper_value d i (zip_with add x (tdata bias)))%Q).
Proof.
  intros d d' bias x H Hl Hu Hs Hx. unfold dp_bias in H.
  inv_bind H. inv_bind H. inv_bind H. inv_bind H. injection H as <-.
  apply coef_bcast_flat in E, E1; auto.
  unfold row_sums in E0, E2. rewrite E in E0. rewrite E1 in E2. rewrite map_map in E0, E2.
  unfold lower_value, upper_value. cbn [x_l_coef x_u_coef x_l_bias x_u_bias].
  split; intros i Hi.
  - rewrite (bias_add_at _ _ E0) by (rewrite length_map; exact Hi).
    change 0%Q with (vsum (zip_with mul (@nil Q) (tdata bias))) at 1.
    rewrite (map_nth (fun r => vsum (zip_with mul r (tdata bias)))).
    rewrite row_value_add_r by exact Hx. unfold row_value. cbn [add Arith_Q]. lra.
  - rewrite (bias_add_at _ _ E2) by (rewrite length_map; exact Hi).
    change 0%Q with (vsum (zip_with mul (@nil Q) (tdata bias))) at 1.
    rewrite (map_nth (fun r => vsum (zip_with mul r (tdata bias)))).
    rewrite row_value_add_r by exact Hx. unfold row_value. cbn [add Arith_Q]. lra.
Qed.

Lemma coef_add_rows (c d e : @coef Q) (i : nat) :
  coef_add c d = Ok e -> i < length (crows c) ->
  length (nth i (crows c) []) = length (nth i (crows d) []) /\
  nth i (crows e) [] = zip_with add (nth i (crows c) []) (nth i (crows d) []).
Proof.
  unfold coef_add. destruct (_ && _) eqn:C; [|discriminate].
  apply andb_prop in C. destruct C as [_ L]. apply Nat.eqb_eq in L.
  intros H Hi. inv_bind H. injection H as <-. cbn [crows].
  apply mapM_Forall2 in E.
  assert (Hc : i < length (combine (crows c) (crows d))) by (rewrite length_combine; lia).
  pose proof (@Forall2_nth _ _ _ _ _ i ([], []) [] E Hc) as N. cbv beta in N.
  rewrite combine_nth in N by exact L. cbn [fst snd] in N.
  apply ewise_Ok in N. exact N.
Qed.

Lemma bias_add_bias_zero (b ob : @bias_t Q) (i : nat) :
  bias_add_bias (BScalar 0%Q) b = Ok ob -> (bias_at ob i == bias_at b i)%Q.
Proof.
  destruct b as [a|v]; simpl; intro H.
  - injection H as <-. simpl. lra.
  - injection H as <-. cbn [bias_at]. revert i.
    induction v as [|a v IH]; intros [|i]; simpl; try lra. apply IH.
Qed.

Lemma affine_image_length (w : list (list Q)) (b : option (list Q)) (x : list Q) :
  match b with None => True | Some b' => length b' = length w end ->
  length (affine_image w b x) = length w.
Proof.
  unfold affine_image, mat_vec. destruct b as [b'|]; intro H.
  - rewrite zip_with_length; rewrite length_map; auto.
  - apply length_map.
Qed.

(** X10: in exact arithmetic, [dp_res_block] called on a block with an
    affine residual branch, no downsample branch and no final ReLU leaves
    the branch and the dictionary as they are and substitutes the map
    x |-> x + (weight . x + bias) of the block. *)
Theorem res_block_affine_value :
  forall (TT : @Torch Q) (self out : @DeepPoly Q) (c : @cache Q) (w : list (list Q))
         (b : option (list Q)) (it : nat) (ld ld' : option (@lambda_dict Q))
         (res' : @layer Q) (ds' : option (@layer Q)) (x : list Q),
    dp_res_block self (Linear c w b) None None it ld = Ok (res', ds', ld', out) ->
    Forall (fun row => length row = length x) w ->
    length w = length x ->
    match b with None => True | Some b' => length b' = length w end ->
    res' = Linear c w b /\ ds' = None /\ ld' = ld /\
    (forall i, i < length (crows (x_l_coef self)) ->
       (lower_value out i x
        == lower_value self i (zip_with add x (affine_image w b x)))%Q) /\
    (forall i, i < length (crows (x_u_coef self)) ->
       (upper_value out i x
        == upper_value self i (zip_with add x (affine_image w b x)))%Q).
Proof.
  intros TT self out c w b it ld ld' res' ds' x H Fw Lw Lb.
  unfold dp_res_block in H. cbn [bind backprop_dp] in H.
  apply bind_Ok in H. destruct H as [[r1 res] [E1 H]].
  apply bind_Ok in E1. destruct E1 as [res0 [El E1]]. injection E1 as <- <-.
  cbn [bind] in H. apply bind_Ok in H. destruct H as [o [Ea H]].
  injection H as <- <- <- <-.
  split; [reflexivity|]. split; [reflexivity|]. split; [reflexivity|].
  pose proof (@dp_linear_pullback _ _ _ _ x El Fw Lb) as [_ [_ [Vl Vu]]].
  unfold dp_add in Ea. cbn [x_l_coef x_u_coef x_l_bias x_u_bias] in Ea.
  apply bind_Ok in Ea. destruct Ea as [lc [Elc Ea]].
  apply bind_Ok in Ea. destruct Ea as [uc [Euc Ea]].
  apply bind_Ok in Ea. destruct Ea as [lb [Elb Ea]].
  apply bind_Ok in Ea. destruct Ea as [ub [Eub Ea]].
  injection Ea as <-.
  assert (La : length x = length (affine_image w b x))
    by (rewrite affine_image_length; auto).
  split; intros i Hi.
  - destruct (@coef_add_rows _ _ _ i Elc Hi) as [Lr Er].
    specialize (Vl i Hi). unfold lower_value in *.
    cbn [x_l_coef x_u_coef x_l_bias x_u_bias].
    rewrite Er, (@bias_add_bias_zero _ _ i Elb), row_value_add_l by exact Lr.
    rewrite row_value_add_r by exact La.
    cbn [add Arith_Q] in *. lra.
  - destruct (@coef_add_rows _ _ _ i Euc Hi) as [Lr Er].
    specialize (Vu i Hi). unfold upper_value in *.
    cbn [x_l_coef x_u_coef x_l_bias x_u_bias].
    rewrite Er, (@bias_add_bias_zero _ _ i Eub), row_value_add_l by exact Lr.
    rewrite row_value_add_r by exact La.
    cbn [add Arith_Q] in *. lra.
Qed.

Section Objects.

Context {A : Type} {AA : Arith A}.

(** X23: whatever the constructor returns can be cloned and detached
    into an equal object, unless the constructor returned early: then no
    attribute exists and both calls raise AttributeError. *)
Theorem clone_detach_round_trip :
  forall (lc uc : option (@coef A)) (lb ub : option (@bias_t A))
         (e : option (pyarg (@coef A))) (o : @DeepPolyObj A),
    DeepPoly_init lc uc lb ub e = Ok o ->
    (clone o = Ok o /\ detach o = Ok o) \/
    (e = None /\ (lc = None \/ uc = None) /\
     clone o = Raise AttributeError /\ detach o = Raise AttributeError).
Proof.
  intros lc uc lb ub e o H.
  destruct e as [[t|]|], lc as [c1|], uc as [c2|]; simpl in H;
    try discriminate H; injection H as <-;
    try (left; split; reflexivity);
    right; repeat split; auto.
Qed.

End Objects.

Section LayerSizes.

Context {T U : Type}.

Lemma layer_sizes_loop_items (size : T -> U) (blocks : list (T -> res T)) :
  forall (i : nat) (last : option nat) (acc : list (nat * U)) (x : T) m y last',
    layer_sizes_loop size blocks i last acc x = Ok (m, y, last') ->
    run_blocks blocks x = Ok y /\
    last' = match blocks with [] => last | _ :: _ => Some (i + length blocks - 1) end /\
    exists items,
      m = acc ++ items /\ length items = length blocks /\
      forall k, k < length blocks ->
        exists z, run_blocks (firstn k blocks) x = Ok z /\
                  nth_error items k = Some (i + k, size z).
Proof.
  induction blocks as [|layer tl IH]; intros i last acc x m y last' H;
    cbn [layer_sizes_loop] in H.
  - injection H as <- <- <-. repeat split. exists []. rewrite app_nil_r.
    repeat split. intros k Hk. simpl in Hk. lia.
  - apply bind_Ok in H. destruct H as [x1 [E1 H]].
    destruct (IH _ _ _ _ _ _ _ H) as [R [L [items [Hm [Hl Hk]]]]].
    split; [simpl; rewrite E1; exact R|]. split.
    { rewrite L. destruct tl; simpl; f_equal; lia. }
    exists ((i, size x) :: items). split; [rewrite Hm, <- app_assoc; reflexivity|].
    split; [simpl; congruence|].
    intros [|k] Hlt.
    + exists x. split; [reflexivity|]. simpl. do 2 f_equal. lia.
    + simpl in Hlt. destruct (Hk k ltac:(lia)) as [z [Rz Nz]].
      exists z. split; [simpl; rewrite E1; exact Rz|].
      simpl. rewrite Nz. do 2 f_equal. lia.
Qed.

(** X24: [get_layer_sizes] raises on a network without blocks;
    otherwise its dictionary has the keys 0 .. len(blocks) in this order,
    and its entry [k] is the size of the value the first [k] blocks
    compute. *)
Theorem get_layer_sizes_items :
  forall (size : T -> U) (blocks : list (T -> res T)) (x : T),
    (blocks = [] -> get_layer_sizes size blocks x = Raise NameError) /\
    (forall m, get_layer_sizes size blocks x = Ok m ->
       blocks <> [] /\
       map fst m = seq 0 (S (length blocks)) /\
       forall k, k <= length blocks ->
         exists z, run_blocks (firstn k blocks) x = Ok z /\
                   nth_error m k = Some (k, size z)).
Proof.
  intros size blocks x. split; [intros ->; reflexivity|].
  intros m H. unfold get_layer_sizes in H.
  apply bind_Ok in H. destruct H as [[[items0 y] last] [E H]].
  apply layer_sizes_loop_items in E.
  destruct E as [R [L [items [Hm [Hl Hk]]]]]. simpl in Hm. subst items0.
  destruct blocks as [|b0 tl]; [subst last; discriminate H|].
  subst last. injection H as <-.
  replace (length tl - 0 + 1) with (length (b0 :: tl)) by (simpl; lia).
  set (blocks := b0 :: tl) in *.
  assert (Pt : forall k, k <= length blocks ->
             exists z, run_blocks (firstn k blocks) x = Ok z /\
                       nth_error (items ++ [(length blocks, size y)]) k
                       = Some (k, size z)).
  { intros k Hle. destruct (Nat.eq_dec k (length blocks)) as [->|N].
    - exists y. rewrite firstn_all. split; [exact R|].
      rewrite nth_error_app2 by lia. rewrite Hl, Nat.sub_diag. reflexivity.
    - destruct (Hk k ltac:(lia)) as [z [Rz Nz]]. exists z. split; [exact Rz|].
      rewrite nth_error_app1 by lia. exact Nz. }
  split; [discriminate|]. split; [|exact Pt].
  apply nth_error_ext. intro k.
  destruct (le_lt_dec k (length blocks)) as [Hle|Hgt].
  - destruct (Pt k Hle) as [z [_ Nz]].
    rewrite nth_error_map, Nz. cbn [option_map fst].
    symmetry. rewrite nth_error_seq.
    destruct (Nat.ltb_spec k (S (length blocks))); [reflexivity | lia].
  - rewrite (proj2 (nth_error_None _ _))
      by (rewrite length_map, length_app, Hl; change (length [(length blocks, size y)]) with 1; lia).
    symmetry. apply nth_error_None. rewrite length_seq. lia.
Qed.

End LayerSizes.

Section Learned.

Context {A : Type} {AA : Arith A} {TT : @Torch A}.

Lemma dp_relu_slopes (d d' : @DeepPoly A) (lb ub : @tensor A) (it : nat)
    (p1 p2 r1 r2 : option (list A)) (ls : list A) :
  learned_slopes (zip_with default_lambda_l (tdata lb) (tdata ub)) it p1 = Ok (ls, r1) ->
  learned_slopes (zip_with default_lambda_l (tdata lb) (tdata ub)) it p2 = Ok (ls, r2) ->
  dp_relu d (Some (lb, ub)) it p1 = Ok (d', r1) ->
  dp_relu d (Some (lb, ub)) it p2 = Ok (d', r2).
Proof.
  intros L1 L2 H. unfold dp_relu in *. cbv zeta in *.
  destruct (negb _); [discriminate H|].
  change (zip_with (fun lb ub => default_lambda_l lb ub) (tdata lb) (tdata ub))
    with (zip_with default_lambda_l (tdata lb) (tdata ub)) in *.
  rewrite L1 in H. rewrite L2. cbn [bind] in *.
  destruct (negb _); [discriminate H|].
  apply bind_Ok in H. destruct H as [v1 [E1 H]]. rewrite E1. cbn [bind].
  apply bind_Ok in H. destruct H as [v2 [E2 H]]. rewrite E2. cbn [bind].
  apply bind_Ok in H. destruct H as [v3 [E3 H]]. rewrite E3. cbn [bind].
  apply bind_Ok in H. destruct H as [v4 [E4 H]]. rewrite E4. cbn [bind].
  destruct (length (tshape lb)) as [|[|[|[|n]]]]; try discriminate H.
  - apply bind_Ok in H. destruct H as [v5 [E5 H]]. rewrite E5. cbn [bind].
    apply bind_Ok in H. destruct H as [v6 [E6 H]]. rewrite E6. cbn [bind].
    injection H as <-. reflexivity.
  - apply bind_Ok in H. destruct H as [v5 [E5 H]]. rewrite E5. cbn [bind].
    apply bind_Ok in H. destruct H as [v6 [E6 H]]. rewrite E6. cbn [bind].
    injection H as <-. reflexivity.
Qed.

(** X17: with learned slopes, a successful call on a ReLU layer leaves
    the layer with a parameter.  At iteration 0 it holds the default
    slopes in the shape of the bounds, whatever the parameter was, and the
    relation is the one computed without learned slopes.  At a later
    iteration it is the parameter the layer had when the batch extent of
    that parameter is the one of the bounds, and -1 for every neuron in
    the shape of the bounds otherwise and when the layer had none. *)
Theorem learned_slopes_update :
  forall (b : @cache A) (dim : list nat) (p : option (@tensor A)) (d d' : @DeepPoly A)
         (it : nat) (l' : @layer A),
    backprop_dp (ReLU b dim p) d it true = Ok (l', d') ->
    exists lb ub,
      b = Some (lb, ub) /\
      (forall p0, p = Some p0 -> tshape p0 <> []) /\
      l' = ReLU b dim
             (Some (if it =? 0
                    then mkT (1 :: tshape lb)
                             (zip_with default_lambda_l (tdata lb) (tdata ub))
                    else match p with
                         | Some p0 =>
                             if hd 0 (tshape p0) =? 1 then p0
                             else mkT (1 :: tshape lb)
                                      (repeat (opp one) (length (tdata lb)))
                         | None => mkT (1 :: tshape lb)
                                       (repeat (opp one) (length (tdata lb)))
                         end)) /\
      (it = 0 -> backprop_dp (ReLU b dim p) d it false = Ok (ReLU b dim p, d')).
Proof.
  intros b dim p d d' it l' H. assert (H0 := H).
  apply backprop_relu_Ok in H. destruct H as [lb [ub [q [data [-> [Eq [Er ->]]]]]]].
  exists lb, ub. split; [reflexivity|].
  assert (Hq : (forall p0, p = Some p0 -> tshape p0 <> []) /\
               q = match p with
                   | Some p0 =>
                       if hd 0 (tshape p0) =? 1 then p0
                       else mkT (1 :: tshape lb) (repeat (opp one) (length (tdata lb)))
                   | None => mkT (1 :: tshape lb) (repeat (opp one) (length (tdata lb)))
                   end).
  { unfold init_lambda, fresh_lambda in Eq. destruct p as [p0|].
    - destruct (tshape p0) as [|n rest] eqn:Es; [discriminate Eq|].
      split; [intros p1 E1; injection E1 as <-; rewrite Es; discriminate|].
      cbn [hd]. destruct (n =? 1); injection Eq as <-; reflexivity.
    - split; [intros p1 E1; discriminate E1|]. injection Eq as <-. reflexivity. }
  destruct Hq as [Hs Hq]. split; [exact Hs|].
  assert (Hr := Er). apply dp_relu_rows in Hr. destruct Hr as [ls [Hls _]].
  unfold learned_slopes in Hls. unfold lambda_after.
  destruct (it =? 0) eqn:I0.
  - injection Hls as <- <-. split; [reflexivity|]. intros _.
    cbn [backprop_dp].
    rewrite (@dp_relu_slopes d d' lb ub it (Some (tdata q)) None
               (Some (zip_with default_lambda_l (tdata lb) (tdata ub))) None
               (zip_with default_lambda_l (tdata lb) (tdata ub))); auto.
    unfold learned_slopes. rewrite I0. reflexivity.
  - destruct (length (tdata q) =? _); [|discriminate Hls]. injection Hls as _ <-.
    split; [|intros ->; discriminate I0].
    rewrite <- Hq. destruct q; reflexivity.
Qed.

End Learned.

Section Driver.

Context {A : Type} {AA : Arith A} {TT : @Torch A}.

Lemma backward_loop_inner_seq (ls : list (@layer A)) :
  forall j d it ul ai,
    backward_loop (S j) ls d it ul false ai =
    ' (ls', d') <- seq_loop (fun l d => backprop_dp l d it ul) ls d ;;
    Ok (ls', d', None).
Proof.
  induction ls as [|l tl IH]; intros j d it ul ai; [reflexivity|].
  cbn [backward_loop seq_loop]. rewrite IH.
  destruct (seq_loop _ tl d) as [[tl' d1]|e]; [|reflexivity]. cbn [bind].
  destruct (backprop_dp l d1 it ul) as [[l' d2]|e]; reflexivity.
Qed.

(** X16: without intermediate bounds the backward substitution is the
    dispatch on the [Sequential] of the layers up to the index, followed
    by one concretization over the input; the two raise the same
    exceptions. *)
Theorem backward_is_sequential :
  forall (net : list (@layer A)) (n : nat) (d : @DeepPoly A) (it : nat) (ul : bool)
         (ai : option (@HybridZonotope A)),
    n < length net ->
    backward_deeppoly net (Z.of_nat n) d it ul false ai =
    ' (l', d') <- backprop_dp (Sequential None (firstn (S n) net)) d it ul ;;
    tmp <- dp_concretize d' None ai ;;
    Ok (sub_layers l' ++ skipn (S n) net, Some tmp).
Proof.
  intros net n d it ul ai Hn. unfold backward_deeppoly.
  destruct (Z.of_nat n <? 0)%Z eqn:Z0; [apply Z.ltb_lt in Z0; lia|].
  rewrite Nat2Z.id.
  destruct (length net <=? n) eqn:L; [apply Nat.leb_le in L; lia|].
  rewrite backprop_sequential.
  destruct net as [|l tl]; [simpl in Hn; lia|].
  cbn [firstn backward_loop seq_loop]. rewrite backward_loop_inner_seq.
  destruct (seq_loop _ (firstn n tl) d) as [[tl' d1]|e]; [|reflexivity]. cbn [bind].
  destruct (backprop_dp l d1 it ul) as [[l' d2]|e]; [|reflexivity]. cbn [bind].
  unfold concretize_step. cbn [Nat.eqb orb Nat.ltb Nat.leb].
  destruct (dp_concretize d2 None ai) as [tmp|e]; reflexivity.
Qed.

End Driver.

Lemma row_value_zip_gen (f g : Q -> Q -> Q) (r p x : list Q) :
  (forall a b c, f a b * c == a * g b c)%Q ->
  (row_value (zip_with f r p) x == row_value r (zip_with g p x))%Q.
Proof.
  intro Hfg. revert p x. induction r as [|a r IH]; intros p x.
  - change (zip_with f [] p) with (@nil Q). rewrite !row_value_nil_l. reflexivity.
  - destruct p as [|b p].
    + change (zip_with f (a :: r) []) with (@nil Q).
      change (zip_with g [] x) with (@nil Q).
      rewrite row_value_nil_l, row_value_nil_r. reflexivity.
    + destruct x as [|c x].
      * change (zip_with g (b :: p) []) with (@nil Q).
        rewrite !row_value_nil_r. reflexivity.
      * change (zip_with f (a :: r) (b :: p)) with (f a b :: zip_with f r p).
        change (zip_with g (b :: p) (c :: x)) with (g b c :: zip_with g p x).
        rewrite !row_value_cons, IH, Hfg. reflexivity.
Qed.

Lemma zip_with_flip (f : Q -> Q -> Q) (a b : list Q) :
  zip_with (fun x y => f y x) a b = zip_with f b a.
Proof.
  unfold zip_with. revert b. induction a as [|x a IH]; intros [|y b]; simpl;
    try reflexivity. rewrite IH. reflexivity.
Qed.

Lemma row_value_div (r p x : list Q) :
  (row_value (zip_with div r p) x == row_value r (zip_with div x p))%Q.
Proof.
  rewrite <- (zip_with_flip div p x).
  apply row_value_zip_gen. intros a b c. cbn [div Arith_Q]. unfold Qdiv. ring.
Qed.

Lemma row_value_add_zero (r m : list Q) :
  (row_value r (map (fun x => add x zero) m) == row_value r m)%Q.
Proof.
  revert m. induction r as [|a r IH]; intros m.
  - rewrite !row_value_nil_l. reflexivity.
  - destruct m as [|b m]; [reflexivity|]. cbn [map].
    rewrite !row_value_cons, IH. cbn [add zero Arith_Q]. ring.
Qed.

Lemma ewise_length (f : Q -> Q -> Q) (a b c : list Q) :
  ewise f a b = Ok c -> c = zip_with f a b /\ length a = length b /\ length c = length a.
Proof.
  intro H. apply ewise_Ok in H. destruct H as [L ->].
  repeat split; auto. apply zip_with_length. exact L.
Qed.

(** X8: in exact arithmetic, on a flat layer, [dp_normalize] substitutes
    the normalisation x / sigma - mean / sigma. *)
Theorem dp_normalize_value :
  forall (d d' : @DeepPoly Q) (mean sigma x : list Q),
    dp_normalize d mean sigma = Ok d' ->
    cshape (x_l_coef d) = [length mean] -> cshape (x_u_coef d) = [length mean] ->
    length x = length mean ->
    (forall i, i < length (crows (x_l_coef d)) ->
               (lower_value d' i x == lower_value d i (normalize_image mean sigma x))%Q) /\
    (forall i, i < length (crows (x_u_coef d)) ->
               (upper_value d' i x == upper_value d i (normalize_image mean sigma x))%Q).
Proof.
  intros d d' mean sigma x H Hl Hu Hx. unfold dp_normalize in H.
  rewrite Hl in H. cbn [length] in H. unfold channel_shape in H.
  change (repeat 1 (1 - 1)) with (@nil nat) in H.
  apply bind_Ok in H. destruct H as [shift [Es H]].
  apply ewise_length in Es. destruct Es as [-> [Ls Lsh]].
  rewrite length_map in Ls, Lsh.
  apply bind_Ok in H. destruct H as [pl [Epl H]].
  apply bind_Ok in H. destruct H as [lb [Elb H]].
  apply bind_Ok in H. destruct H as [pu [Epu H]].
  apply bind_Ok in H. destruct H as [ub [Eub H]].
  apply bind_Ok in H. destruct H as [lc [Elc H]].
  apply bind_Ok in H. destruct H as [uc [Euc H]].
  injection H as <-.
  apply coef_bcast_flat in Epl, Epu, Elc, Euc;
    cbn [tshape tdata]; try congruence; try (rewrite Lsh; reflexivity).
  cbn [tdata] in *.
  unfold row_sums in Elb, Eub. rewrite Epl in Elb. rewrite Epu in Eub.
  rewrite map_map in Elb, Eub.
  assert (La : length (zip_with div x sigma) = length (zip_with div (map opp mean) sigma)).
  { rewrite !zip_with_length; rewrite ?length_map; congruence. }
  unfold lower_value, upper_value, normalize_image.
  cbn [x_l_coef x_u_coef x_l_bias x_u_bias].
  split; intros i Hi.
  - rewrite (bias_add_at _ _ Elb) by (rewrite length_map; exact Hi).
    change 0%Q with (vsum (zip_with mul (@nil Q)
                             (zip_with div (map opp mean) sigma))) at 1.
    rewrite (map_nth (fun r => vsum (zip_with mul r (zip_with div (map opp mean) sigma)))).
    rewrite Elc, nth_map_rows by reflexivity.
    rewrite row_value_add_r by exact La. rewrite row_value_div.
    unfold row_value. cbn [add Arith_Q]. lra.
  - rewrite (bias_add_at _ _ Eub) by (rewrite length_map; exact Hi).
    change 0%Q with (vsum (zip_with mul (@nil Q)
                             (zip_with div (map opp mean) sigma))) at 1.
    rewrite (map_nth (fun r => vsum (zip_with mul r (zip_with div (map opp mean) sigma)))).
    rewrite Euc, nth_map_rows by reflexivity.
    rewrite row_value_add_r by exact La. rewrite row_value_div.
    unfold row_value. cbn [add Arith_Q]. lra.
Qed.

(** X9: in exact arithmetic, on a flat layer, [dp_batch_norm]
    substitutes the affine map of the batch normalisation, whatever the
    square root is. *)
Theorem dp_batch_norm_value :
  forall (TT : @Torch Q) (d d' : @DeepPoly Q) (mean var weight : list Q)
         (bias : option (list Q)) (eps : Q) (x : list Q),
    dp_batch_norm d mean var weight bias eps = Ok d' ->
    cshape (x_l_coef d) = [length weight] -> cshape (x_u_coef d) = [length weight] ->
    length x = length weight ->
    (forall i, i < length (crows (x_l_coef d)) ->
       (lower_value d' i x
        == lower_value d i (batch_norm_image tsqrt mean var weight bias eps x))%Q) /\
    (forall i, i < length (crows (x_u_coef d)) ->
       (upper_value d' i x
        == upper_value d i (batch_norm_image tsqrt mean var weight bias eps x))%Q).
Proof.
  intros TT d d' mean var weight bias eps x H Hl Hu Hx. unfold dp_batch_norm in H.
  apply bind_Ok in H. destruct H as [c [Ec H]].
  apply ewise_length in Ec. destruct Ec as [Ec [Lc1 Lc]].
  apply bind_Ok in H. destruct H as [mc [Emc H]].
  apply ewise_length in Emc. destruct Emc as [Emc [Lm1 Lm]].
  rewrite length_map in Lm1, Lm.
  apply bind_Ok in H. destruct H as [b [Eb H]].
  rewrite Hl in H. cbn [length] in H. unfold channel_shape in H.
  change (repeat 1 (1 - 1)) with (@nil nat) in H.
  apply bind_Ok in H. destruct H as [[lb ub] [Ebias H]].
  apply bind_Ok in Ebias. destruct Ebias as [l [El Ebias]].
  apply bind_Ok in Ebias. destruct Ebias as [u [Eu Ebias]].
  apply bind_Ok in Ebias. destruct Ebias as [lb0 [Elb Ebias]].
  apply bind_Ok in Ebias. destruct Ebias as [ub0 [Eub Ebias]].
  injection Ebias as <- <-.
  apply bind_Ok in H. destruct H as [lc [Elc H]].
  apply bind_Ok in H. destruct H as [uc [Euc H]].
  injection H as <-.
  apply coef_bcast_flat in Elc, Euc; cbn [tshape tdata]; try congruence.
  cbn [tdata] in *.
  apply coef_matvec_rows in El, Eu.
  assert (Img : forall r,
             (row_value r (batch_norm_image tsqrt mean var weight bias eps x)
              == row_value r (zip_with mul c x) + row_value r b)%Q).
  { intro r. unfold batch_norm_image. cbv zeta. rewrite <- Ec.
    destruct bias as [bi|].
    - apply ewise_length in Eb. destruct Eb as [Eb [Lb1 Lb]].
      rewrite <- Emc, <- Eb.
      apply row_value_add_r. rewrite zip_with_length; congruence.
    - injection Eb as <-. rewrite <- Emc.
      rewrite row_value_add_r by (rewrite zip_with_length; congruence).
      rewrite row_value_add_zero. reflexivity. }
  unfold lower_value, upper_value.
  cbn [x_l_coef x_u_coef x_l_bias x_u_bias].
  split; intros i Hi.
  - rewrite (bias_add_at _ _ Elb) by (rewrite (Forall2_length_eq El); exact Hi).
    rewrite (@Forall2_nth _ _ _ _ _ i [] 0%Q El Hi).
    rewrite Elc, nth_map_rows by reflexivity.
    rewrite Img, row_value_zip. cbn [add Arith_Q]. lra.
  - rewrite (bias_add_at _ _ Eub) by (rewrite (Forall2_length_eq Eu); exact Hi).
    rewrite (@Forall2_nth _ _ _ _ _ i [] 0%Q Eu Hi).
    rewrite Euc, nth_map_rows by reflexivity.
    rewrite Img, row_value_zip. cbn [add Arith_Q]. lra.
Qed.

Lemma split_term_mono (c a b a' b' : Q) :
  (a <= a')%Q -> (b' <= b)%Q ->
  (pos_part c * a + neg_part c * b <= pos_part c * a' + neg_part c * b')%Q.
Proof.
  intros H1 H2. unfold pos_part, neg_part. simpl.
  destruct (Qltb 0 c) eqn:P; destruct (Qltb c 0) eqn:N;
    try apply Qltb_true in P; try apply Qltb_false in P;
    try apply Qltb_true in N; try apply Qltb_false in N;
    try lra; try nra.
Qed.

Lemma split_combine_mono (row a b a' b' v v' : list Q) :
  split_combine row a b = Ok v -> split_combine row a' b' = Ok v' ->
  Forall2 Qle a a' -> Forall2 Qle b' b -> Forall2 Qle v v'.
Proof.
  unfold split_combine, get_neg_pos_comp. intros H H'.
  inv_bind H. inv_bind H. inv_bind H'. inv_bind H'.
  apply ewise_Ok in E, E0, H, E1, E2, H'.
  destruct E as [L1 ->], E0 as [L2 ->], H as [_ ->],
           E1 as [L3 ->], E2 as [L4 ->], H' as [_ ->].
  rewrite length_map in L1, L2, L3, L4.
  intros Ha Hb. revert a b a' b' L1 L2 L3 L4 Ha Hb.
  induction row as [|c row IH]; intros [|x a] [|y b] [|x' a'] [|y' b'] L1 L2 L3 L4 Ha Hb;
    try discriminate; inversion Ha; subst; inversion Hb; subst.
  - constructor.
  - unfold zip_with in *. simpl. constructor.
    + apply split_term_mono; assumption.
    + apply IH; auto.
Qed.


Lemma mapM_related {T U} (R : U -> U -> Prop) (f g : T -> res U) (l : list T) :
  (forall x y y', f x = Ok y -> g x = Ok y' -> R y y') ->
  forall r r', mapM f l = Ok r -> mapM g l = Ok r' -> Forall2 R r r'.
Proof.
  intro H. induction l as [|x l IH]; simpl; intros r r' Hf Hg.
  - injection Hf as <-. injection Hg as <-. constructor.
  - apply bind_Ok in Hf. destruct Hf as [y [Ey Hf]].
    apply bind_Ok in Hf. destruct Hf as [ys [Eys Hf]]. injection Hf as <-.
    apply bind_Ok in Hg. destruct Hg as [y' [Ey' Hg]].
    apply bind_Ok in Hg. destruct Hg as [ys' [Eys' Hg]]. injection Hg as <-.
    constructor; eauto.
Qed.

Lemma concretize_rows_mono (c : @coef Q) (a b a' b' : @tensor Q) (r r' : list Q) :
  concretize_rows c a b = Ok r -> concretize_rows c a' b' = Ok r' ->
  Forall2 Qle (tdata a) (tdata a') -> Forall2 Qle (tdata b') (tdata b) ->
  Forall2 Qle r r'.
Proof.
  unfold concretize_rows. intros H H' Ha Hb.
  destruct (negb _); [discriminate H|]. destruct (negb _); [discriminate H'|].
  eapply mapM_related; [|exact H|exact H'].
  intros x y y' Hy Hy'. cbv beta in *.
  apply bind_Ok in Hy. destruct Hy as [v [Ev Hy]]. injection Hy as <-.
  apply bind_Ok in Hy'. destruct Hy' as [v' [Ev' Hy']]. injection Hy' as <-.
  apply vsum_le. eapply split_combine_mono; eassumption.
Qed.

Lemma bias_plus_mono (b : @bias_t Q) (v v' r r' : list Q) :
  bias_plus b v = Ok r -> bias_plus b v' = Ok r' ->
  Forall2 Qle v v' -> Forall2 Qle r r'.
Proof.
  destruct b as [a|w]; simpl; intros H H' Hv.
  - injection H as <-. injection H' as <-.
    induction Hv; simpl; constructor; auto. lra.
  - apply ewise_Ok in H, H'. destruct H as [L ->], H' as [L' ->].
    revert w L L'. induction Hv as [|x y v v' Hxy _ IH]; intros [|z w] L L';
      try discriminate; unfold zip_with in *; simpl.
    + constructor.
    + constructor; [lra|]. apply IH; simpl in *; congruence.
Qed.

(** X2: in exact arithmetic the interval concretization is monotone in
    the region: a smaller box gives lower bounds that are no smaller and
    upper bounds that are no larger, row by row. *)
Theorem concretize_monotone :
  forall (d : @DeepPoly Q) (lb ub lb' ub' : @tensor Q) (l u l' u' : list Q),
    dp_concretize d (Some (lb, ub)) None = Ok (l, u) ->
    dp_concretize d (Some (lb', ub')) None = Ok (l', u') ->
    Forall2 Qle (tdata lb) (tdata lb') -> Forall2 Qle (tdata ub') (tdata ub) ->
    Forall2 Qle l l' /\ Forall2 Qle u' u.
Proof.
  intros d lb ub lb' ub' l u l' u' H H' Hl Hu. unfold dp_concretize in H, H'.
  apply bind_Ok in H. destruct H as [lr [El H]].
  apply bind_Ok in H. destruct H as [ur [Eu H]].
  apply bind_Ok in H. destruct H as [l0 [Bl H]].
  apply bind_Ok in H. destruct H as [u0 [Bu H]]. injection H as <- <-.
  apply bind_Ok in H'. destruct H' as [lr' [El' H']].
  apply bind_Ok in H'. destruct H' as [ur' [Eu' H']].
  apply bind_Ok in H'. destruct H' as [l0' [Bl' H']].
  apply bind_Ok in H'. destruct H' as [u0' [Bu' H']]. injection H' as <- <-.
  split.
  - eapply bias_plus_mono; [exact Bl|exact Bl'|].
    eapply concretize_rows_mono; eassumption.
  - eapply bias_plus_mono; [exact Bu'|exact Bu|].
    eapply concretize_rows_mono; eassumption.
Qed.


Ltac qle := unfold Qle, Qlt; simpl; lia.


Lemma dp_linear_value_witness :
  exists d',
    dp_linear rel2 [[2%Q; 1%Q]; [0%Q; 3%Q]] (Some [1%Q; (-1)%Q]) = Ok d' /\
    forall i, i < 2 ->
      (lower_value d' i [1%Q; 2%Q]
       == lower_value rel2 i
            (affine_image [[2%Q; 1%Q]; [0%Q; 3%Q]] (Some [1%Q; (-1)%Q]) [1%Q; 2%Q]))%Q.
Proof.
  eexists. split; [cbv; reflexivity|].
  refine (proj1 (proj2 (proj2 (@dp_linear_value rel2 _ [[2%Q; 1%Q]; [0%Q; 3%Q]]
                                 (Some [1%Q; (-1)%Q]) [1%Q; 2%Q] _ _ _)))).
  - cbv. reflexivity.
  - repeat constructor.
  - reflexivity.
Defined.

Lemma dp_relu_stable_value_witness :
  exists d' p,
    dp_relu ex_rel (Some stable_bounds) 0 None = Ok (d', p) /\
    forall i, i < 1 ->
      (lower_value d' i [2%Q; (-2)%Q]
       == lower_value ex_rel i (map relu [2%Q; (-2)%Q]))%Q.
Proof.
  do 2 eexists. split; [cbv; reflexivity|].
  refine (proj1 (proj2 (proj2 (@dp_relu_stable_value ex_rel _ (fst stable_bounds)
                                 (snd stable_bounds) 0 None _ [2%Q; (-2)%Q] _ _)))).
  - cbv. reflexivity.
  - apply stable_cons; [left; qle | qle | qle |].
    apply stable_cons; [right; qle | qle | qle |].
    apply stable_nil.
Defined.


Lemma backward_needs_supported_layers_witness :
  exists r,
    backward_deeppoly (TT := plain_torch Q) net_cached 2 (identity_seed [1]) 0 false true
                      (Some (box1 (-1)%Q 1%Q)) = Ok r /\
    2 < length net_cached /\ Forall supported (firstn 3 net_cached).
Proof.
  eexists. split; [cbv; reflexivity|].
  eapply (@backward_needs_supported_layers Q _ (plain_torch Q) net_cached 2
            (identity_seed [1]) 0 false true (Some (box1 (-1)%Q 1%Q))).
  cbv. reflexivity.
Defined.

Lemma no_mutation_without_lambda_witness :
  exists net' r,
    backward_deeppoly (TT := plain_torch Q) net_cached 2 (identity_seed [1]) 0 false true
                      (Some (box1 (-1)%Q 1%Q)) = Ok (net', r) /\
    net' = net_cached.
Proof.
  do 2 eexists. split; [cbv; reflexivity|].
  eapply (@no_mutation_without_lambda Q _ (plain_torch Q) net_cached _ 2
            (identity_seed [1]) 0 true (Some (box1 (-1)%Q 1%Q))).
  cbv. reflexivity.
Defined.

Lemma backprop_keeps_rows_witness :
  exists l' d',
    backprop_dp (TT := plain_torch Q) identity_linear rel2 0 false = Ok (l', d') /\
    same_rows rel2 d'.
Proof.
  do 2 eexists. split; [cbv; reflexivity|].
  eapply (@backprop_keeps_rows Q _ (plain_torch Q) identity_linear _ rel2 _ 0 false).
  cbv. reflexivity.
Defined.


Lemma solver_bounds_every_relu_witness :
  exists s',
    compute_dp_relu_bounds (TT := plain_torch Q) (mkSt net_fresh [] []) 2
                           (box1 (-1)%Q 1%Q) 0 false true false = Ok s' /\
    cached (st_net s') 1.
Proof.
  eexists. split; [vm_compute; reflexivity|].
  refine (proj2 (proj2 (proj2 (@solver_bounds_every_relu Q _ (plain_torch Q)
                                 (mkSt net_fresh [] []) _ 2 (box1 (-1)%Q 1%Q)
                                 0 false true false _))) 1 _ _ _).
  - vm_compute. reflexivity.
  - lia.
  - reflexivity.
  - reflexivity.
Defined.

Lemma solver_only_writes_caches_witness :
  exists s',
    compute_dp_relu_bounds (TT := plain_torch Q) (mkSt net_fresh [] []) 2
                           (box1 (-1)%Q 1%Q) 0 false true false = Ok s' /\
    without_caches (st_net s') = without_caches net_fresh.
Proof.
  eexists. split; [vm_compute; reflexivity|].
  apply (@solver_only_writes_caches Q _ (plain_torch Q) (mkSt net_fresh [] []) _ 2
           (box1 (-1)%Q 1%Q) 0 true false).
  vm_compute. reflexivity.
Defined.

Lemma forward_deeppoly_bounds_relus_witness :
  exists net' r,
    forward_deeppoly (TT := plain_torch Q) (NN := plain_network Q [1]) net_fresh
                     (box1 (-1)%Q 1%Q) None 0 false true true = Ok (net', r) /\
    kinds net' = kinds net_fresh /\ cached net' 1.
Proof.
  do 2 eexists. split; [vm_compute; reflexivity|].
  pose proof (@forward_deeppoly_bounds_relus Q _ (plain_torch Q) (plain_network Q [1])
                net_fresh _ (box1 (-1)%Q 1%Q) None 0 false true true _ eq_refl)
    as [K [_ C]].
  split; [exact K|]. exact (C eq_refl 1 eq_refl).
Defined.

Lemma forward_deeppoly_empty_network_witness :
  exists net' r,
    forward_deeppoly (TT := plain_torch Q) (NN := plain_network Q [1]) []
                     (box1 (-1)%Q 1%Q) (Some (mkC [1] [[1%Q]])) 0 false false true
    = Ok (net', r) /\
    r = None.
Proof.
  do 2 eexists. split; [vm_compute; reflexivity|].
  apply (proj1 (@forward_deeppoly_empty_network Q _ (plain_torch Q) (plain_network Q [1])
                  [] _ (box1 (-1)%Q 1%Q) (Some (mkC [1] [[1%Q]])) 0 false false true
                  _ eq_refl)).
  reflexivity.
Defined.

Lemma forward_deeppoly_only_writes_caches_witness :
  exists net' r,
    forward_deeppoly (TT := plain_torch Q) (NN := plain_network Q [1]) net_fresh
                     (box1 (-1)%Q 1%Q) None 0 false true true = Ok (net', r) /\
    without_caches net' = without_caches net_fresh.
Proof.
  do 2 eexists. split; [vm_compute; reflexivity|].
  destruct (@forward_deeppoly_only_writes_caches Q _ (plain_torch Q)
              (plain_network Q [1]) net_fresh _ (box1 (-1)%Q 1%Q) None 0 true true
              _ eq_refl) as [net0 [x_shape [P [W _]]]].
  vm_compute in P. injection P as <- _. exact W.
Defined.

Lemma dp_scale_value_witness :
  exists d',
    dp_scale ex_rel (mkT [2] [2%Q; 3%Q]) = Ok d' /\
    (lower_value d' 0 [1%Q; 1%Q]
     == lower_value ex_rel 0 (zip_with mul [2%Q; 3%Q] [1%Q; 1%Q]))%Q.
Proof.
  eexists. split; [cbv; reflexivity|].
  refine (proj1 (@dp_scale_value ex_rel _ (mkT [2] [2%Q; 3%Q]) [1%Q; 1%Q] 0 _ _ _ _));
    cbv; reflexivity.
Defined.

Lemma dp_bias_value_witness :
  exists d',
    dp_bias ex_rel (mkT [2] [1%Q; (-1)%Q]) = Ok d' /\
    forall i, i < 1 ->
      (lower_value d' i [1%Q; 1%Q]
       == lower_value ex_rel i (zip_with add [1%Q; 1%Q] [1%Q; (-1)%Q]))%Q.
Proof.
  eexists. split; [cbv; reflexivity|].
  refine (proj1 (@dp_bias_value ex_rel _ (mkT [2] [1%Q; (-1)%Q]) [1%Q; 1%Q] _ _ _ _ _));
    cbv; reflexivity.
Defined.

Lemma res_block_affine_value_witness :
  exists res' ds' ld' out,
    dp_res_block (TT := plain_torch Q) rel2
                 (Linear None [[1%Q; 0%Q]; [0%Q; 1%Q]] (Some [0%Q; 0%Q])) None None 0 None
    = Ok (res', ds', ld', out) /\
    forall i, i < 2 ->
      (lower_value out i [1%Q; 2%Q]
       == lower_value rel2 i
            (zip_with add [1%Q; 2%Q]
               (affine_image [[1%Q; 0%Q]; [0%Q; 1%Q]] (Some [0%Q; 0%Q]) [1%Q; 2%Q])))%Q.
Proof.
  do 4 eexists. split; [cbv; reflexivity|].
  refine (proj1 (proj2 (proj2 (proj2
            (@res_block_affine_value (plain_torch Q) rel2 _ None [[1%Q; 0%Q]; [0%Q; 1%Q]]
               (Some [0%Q; 0%Q]) 0 None _ _ _ [1%Q; 2%Q] _ _ _ _))))).
  - cbv. reflexivity.
  - repeat constructor.
  - reflexivity.
  - reflexivity.
Defined.

Lemma clone_detach_round_trip_witness :
  exists o,
    DeepPoly_init None None None None (Some (IsTensor (mkC [1] [[1%Q]]))) = Ok o /\
    clone o = Ok o /\ detach o = Ok o.
Proof.
  eexists. split; [reflexivity|].
  destruct (@clone_detach_round_trip Q _ None None None None
              (Some (IsTensor (mkC [1] [[1%Q]]))) _ eq_refl) as [R|[E _]].
  - exact R.
  - discriminate E.
Defined.

Lemma learned_slopes_update_witness :
  exists l' d',
    backprop_dp (TT := plain_torch Q)
                (ReLU (Some ex_bounds) [2]
                      (Some (mkT [3; 2] [0%Q; 0%Q; 0%Q; 0%Q; 0%Q; 0%Q])))
                ex_rel 1 true = Ok (l', d') /\
    l' = ReLU (Some ex_bounds) [2] (Some (mkT [1; 2] [(-1)%Q; (-1)%Q])).
Proof.
  do 2 eexists. split; [cbv; reflexivity|].
  destruct (@learned_slopes_update Q _ (plain_torch Q) (Some ex_bounds) [2]
              (Some (mkT [3; 2] [0%Q; 0%Q; 0%Q; 0%Q; 0%Q; 0%Q])) ex_rel _ 1 _ eq_refl)
    as [lb [ub [Eb [_ [El _]]]]].
  injection Eb as <- <-. exact El.
Defined.

Lemma backward_is_sequential_witness :
  2 < length net_cached /\
  backward_deeppoly (TT := plain_torch Q) net_cached 2 (identity_seed [1]) 0 false false
                    (Some (box1 (-1)%Q 1%Q)) =
  ' (l', d') <- backprop_dp (TT := plain_torch Q) (Sequential None (firstn 3 net_cached))
                            (identity_seed [1]) 0 false ;;
  tmp <- dp_concretize d' None (Some (box1 (-1)%Q 1%Q)) ;;
  Ok (sub_layers l' ++ skipn 3 net_cached, Some tmp).
Proof.
  assert (H : 2 < length net_cached) by (simpl; lia).
  split; [exact H|].
  exact (@backward_is_sequential Q _ (plain_torch Q) net_cached 2 (identity_seed [1]) 0
           false (Some (box1 (-1)%Q 1%Q)) H).
Defined.

Lemma dp_normalize_value_witness :
  exists d',
    dp_normalize ex_rel [1%Q; 2%Q] [2%Q; 4%Q] = Ok d' /\
    forall i, i < 1 ->
      (lower_value d' i [3%Q; 6%Q]
       == lower_value ex_rel i (normalize_image [1%Q; 2%Q] [2%Q; 4%Q] [3%Q; 6%Q]))%Q.
Proof.
  eexists. split; [cbv; reflexivity|].
  refine (proj1 (@dp_normalize_value ex_rel _ [1%Q; 2%Q] [2%Q; 4%Q] [3%Q; 6%Q] _ _ _ _));
    cbv; reflexivity.
Defined.

Lemma dp_batch_norm_value_witness :
  exists d',
    dp_batch_norm (TT := plain_torch Q) ex_rel [1%Q; 2%Q] [3%Q; 1%Q] [2%Q; 4%Q]
                  (Some [1%Q; 0%Q]) 1%Q = Ok d' /\
    forall i, i < 1 ->
      (lower_value d' i [3%Q; 6%Q]
       == lower_value ex_rel i
            (batch_norm_image (fun x => x) [1%Q; 2%Q] [3%Q; 1%Q] [2%Q; 4%Q]
                              (Some [1%Q; 0%Q]) 1%Q [3%Q; 6%Q]))%Q.
Proof.
  eexists. split; [cbv; reflexivity|].
  refine (proj1 (@dp_batch_norm_value (plain_torch Q) ex_rel _ [1%Q; 2%Q] [3%Q; 1%Q]
                   [2%Q; 4%Q] (Some [1%Q; 0%Q]) 1%Q [3%Q; 6%Q] _ _ _ _));
    cbv; reflexivity.
Defined.

Lemma concretize_monotone_witness :
  exists l u l' u',
    dp_concretize ex_rel (Some ex_bounds) None = Ok (l, u) /\
    dp_concretize ex_rel (Some inner_bounds) None = Ok (l', u') /\
    Forall2 Qle l l' /\ Forall2 Qle u' u.
Proof.
  do 4 eexists. split; [cbv; reflexivity|]. split; [cbv; reflexivity|].
  apply (@concretize_monotone ex_rel (fst ex_bounds) (snd ex_bounds)
           (fst inner_bounds) (snd inner_bounds)).
  - cbv. reflexivity.
  - cbv. reflexivity.
  - repeat constructor; qle.
  - repeat constructor; qle.
Defined.

